(** * A2ALite server runtime: task-stream coordination layer

    A shallow embedding of the server side of the SDK
    (packages/sdk/src/server): the in-memory event queue and store, the agent
    execution context, the agent task stream, the task stream consumer
    with its manager, the JSON-RPC dispatcher and the request handlers.

    Conventions.
    - JavaScript objects become records; an optional property is an
      [option]; [a || b] on strings is [js_or] (the empty string is falsy).
    - [uuidv4()] and [new Date().toISOString()] are inputs: every operation
      that calls them takes a [Fresh] record with the values they return.
    - A promise is identified by a number; resolving it records the value
      it was resolved with, and resolving a settled promise does nothing.
    - An async generator is a program counter plus the list of the values
      it has yielded; its body runs only when [next()] is called on it.
      The producer, the generators and their callers take turns in any
      order the program counters allow. *)

From stdpp Require Import gmap strings list fin_maps.

Set Default Proof Using "Type".
Open Scope string_scope.
Open Scope list_scope.

(** ** JavaScript helpers *)

(** [s ? s : undefined] for an optional string: the empty string is falsy. *)
Definition truthy (s : option string) : option string :=
  match s with
  | Some "" => None
  | _ => s
  end.

(** [a || b] for optional strings: [b] is the result when [a] is falsy,
    be it falsy itself. *)
Definition js_or (a b : option string) : option string :=
  match truthy a with
  | Some s => Some s
  | None => b
  end.

(** [{...a, ...b}] restricted to one optional property: the property of [b]
    wins when [b] has it. *)
Definition spread {A : Type} (a b : option A) : option A :=
  match b with
  | Some _ => b
  | None => a
  end.

(** A thrown [Error] carries its message. *)
Inductive Result (A : Type) : Type :=
| Ok (a : A)
| Throw (message : string).
Arguments Ok {A} a.
Arguments Throw {A} message.

Global Instance Result_ret : MRet Result := fun _ a => Ok a.

Global Instance Result_bind : MBind Result := fun _ _ k r =>
  match r with
  | Ok a => k a
  | Throw m => Throw m
  end.

(** ** Data model (types/types.ts) *)

Inductive TaskState : Type :=
| submitted | working | input_required | auth_required
| completed | canceled | failed | rejected | unknown.

Global Instance TaskState_eq_dec : EqDecision TaskState.
Proof. solve_decision. Defined.

Inductive Role : Type := user | agent.

(** [Record<string, any>]: the values are opaque to the runtime. *)
Definition Metadata : Type := list (string * string).

Inductive Part : Type :=
| TextPart (text : string)
| FilePart (uri : string)
| DataPart (data : Metadata).

Record Message : Type := mkMessage {
  messageId : string;
  msg_role : Role;
  msg_parts : list Part;
  msg_metadata : option Metadata;
  msg_contextId : option string;
  msg_taskId : option string;
  referenceTaskIds : option (list string)
}.

Record Artifact : Type := mkArtifact {
  artifactId : string;
  art_name : option string;
  art_parts : list Part;
  art_metadata : option Metadata
}.

Record TaskStatus : Type := mkTaskStatus {
  state : TaskState;
  timestamp : option string;
  status_message : option Message
}.

Record Task : Type := mkTask {
  task_id : string;
  task_contextId : string;
  status : TaskStatus;
  artifacts : option (list Artifact);
  history : option (list Message);
  task_metadata : option Metadata
}.

Record JSONRPCError : Type := mkError {
  code : Z;
  err_message : string
}.

(** The [ErrorType] enum. *)
Module ErrorType.
Definition JSONParseError : Z := -32700.
Definition InvalidRequestError : Z := -32600.
Definition MethodNotFoundError : Z := -32601.
Definition InvalidParamsError : Z := -32602.
Definition InternalError : Z := -32603.
Definition TaskNotFoundError : Z := -32001.
Definition TaskNotCancelableError : Z := -32002.
Definition PushNotificationNotSupportedError : Z := -32003.
Definition UnsupportedOperationError : Z := -32004.
Definition ContentTypeNotSupportedError : Z := -32005.
Definition InvalidAgentResponseError : Z := -32006.
End ErrorType.

(** utils/errors.ts: [message ?? default]. *)
Definition internalError (message : option string) : JSONRPCError :=
  mkError ErrorType.InternalError (default "Internal error" message).

Definition taskNotFoundError (message : option string) : JSONRPCError :=
  mkError ErrorType.TaskNotFoundError (default "Task not found" message).

Definition pushNotificationNotSupportedError (message : option string) : JSONRPCError :=
  mkError ErrorType.PushNotificationNotSupportedError
          (default "Push Notification is not supported" message).

Definition invalidAgentResponseError (message : option string) : JSONRPCError :=
  mkError ErrorType.InvalidAgentResponseError (default "Invalid agent response" message).

(** agent/types.ts *)
Record AgentMessageParams : Type := mkMessageParams {
  mp_parts : list Part;
  mp_metadata : option Metadata
}.

Record AgentTaskParams : Type := mkTaskParams {
  tp_artifacts : option (list Artifact);
  tp_message : option AgentMessageParams;
  tp_metadata : option Metadata
}.

(** The literal [{}] passed by the task stream. *)
Definition emptyTaskParams : AgentTaskParams := mkTaskParams None None None.

Record AgentArtifactParams : Type := mkArtifactParams {
  ap_artifact : Artifact;
  ap_append : option bool;
  ap_lastChunk : option bool
}.

Inductive AgentStreamEvent : Type :=
| TaskEvent (t : Task)
| MessageEvent (m : Message)
| StatusUpdate (taskId contextId : string) (st : TaskStatus) (final : bool)
| ArtifactUpdate (taskId contextId : string) (artifact : Artifact)
                 (append lastChunk : bool) (metadata : option Metadata)
| ErrorEvent (e : JSONRPCError)
| EndOfStream (taskId contextId : option string).

(** The values [uuidv4()] and [new Date().toISOString()] return during one
    call of an operation. *)
Record Fresh : Type := mkFresh {
  now : string;
  uuid_task : string;
  uuid_message : string
}.

(** ** In-memory queue (providers/queue/in_memory.ts)

    A blocked [dequeue] leaves its promise's [resolve] callback in
    [pendingDequeuePromises]; the callback is named by the number of the
    promise.  [settled] is the state of those promises: the callbacks called
    so far, with the value passed. *)
Module InMemoryQueue.
Section Queue.
Context {T : Type}.

Record t : Type := mk {
  items : list T;
  _isClosed : bool;
  pendingDequeuePromises : list nat;
  settled : list (nat * option T)
}.

Definition empty : t := mk [] false [] [].

(** What the promise returned by [dequeue] holds right after the call. *)
Inductive Dequeued : Type :=
| Now (v : option T)
| Blocked.

(** [dequeue()], [p] being the promise created when the call blocks. *)
Definition dequeue (p : nat) (q : t) : Dequeued * t :=
  if _isClosed q then (Now None, q)
  else match items q with
       | [] => (Blocked,
                mk [] (_isClosed q) (pendingDequeuePromises q ++ [p]) (settled q))
       | x :: rest =>
           (Now (Some x), mk rest (_isClosed q) (pendingDequeuePromises q) (settled q))
       end.

(** The loop of [resolvePendingPromises]: one waiter and one item are
    shifted per turn. *)
Fixpoint resolveLoop (pending : list nat) (its : list T)
         (done : list (nat * option T)) : list nat * list T * list (nat * option T) :=
  match pending, its with
  | p :: pending', x :: its' => resolveLoop pending' its' (done ++ [(p, Some x)])
  | _, _ => (pending, its, done)
  end.

Definition resolvePendingPromises (q : t) : t :=
  let '(pending, its, done) :=
    resolveLoop (pendingDequeuePromises q) (items q) (settled q) in
  mk its (_isClosed q) pending done.

Definition enqueue (item : T) (q : t) : t :=
  resolvePendingPromises
    (mk (items q ++ [item]) (_isClosed q) (pendingDequeuePromises q) (settled q)).

Definition size (q : t) : nat := length (items q).

Definition isEmpty (q : t) : bool := bool_decide (length (items q) = 0).

Definition peek (q : t) : option T := head (items q).

Definition close (q : t) : t :=
  mk [] true []
     (settled q ++ map (fun p => (p, None)) (pendingDequeuePromises q)).

(** The value a dequeue promise was resolved with, if it was. *)
Definition resolution (p : nat) (q : t) : option (option T) :=
  (fun r => snd (snd r)) <$> list_find (fun r => fst r = p) (settled q).

(** Several [enqueue] calls in a row. *)
Definition enqueueAll (its : list T) (q : t) : t :=
  foldl (fun q x => enqueue x q) q its.
End Queue.
Arguments t : clear implicits.
End InMemoryQueue.

(** ** Execution context (agent/context.ts) *)

Record AgentExecutionContext : Type := mkContext {
  cx_id : string;
  currentTask : option Task;
  referenceTasks : option (list Task)
}.

(** The constructor's rule for the context id:
    [task?.contextId || message.contextId || id || uuidv4()]. *)
Definition newContext (uuid : string) (messageContextId : option string)
    (task : option Task) (refs : option (list Task)) (id : option string)
    : AgentExecutionContext :=
  mkContext
    (default uuid (truthy (js_or (js_or (task_contextId <$> task) messageContextId) id)))
    task refs.

Definition _createMessage (fr : Fresh) (cx : AgentExecutionContext)
    (messageParams : AgentMessageParams) (taskId messageId : option string) : Message :=
  {| messageId := default (uuid_message fr) (truthy messageId);
     msg_parts := mp_parts messageParams;
     msg_metadata := mp_metadata messageParams;
     msg_role := agent;
     msg_contextId := Some (cx_id cx);
     msg_taskId := truthy taskId;
     referenceTaskIds := None |}.

(** The object literal of [_createStatus]: [state] and [timestamp] are always
    set, [message] only when a message is given. *)
Definition _createStatus (fr : Fresh) (st : TaskState) (message : option Message)
    : TaskStatus :=
  {| state := st; timestamp := Some (now fr); status_message := message |}.

(** [{...old, ...new}] on statuses. *)
Definition spreadStatus (old : option TaskStatus) (new : TaskStatus) : TaskStatus :=
  {| state := state new;
     timestamp := spread (old ≫= timestamp) (timestamp new);
     status_message := spread (old ≫= status_message) (status_message new) |}.

Definition _mergeArtifacts (existing newArtifacts : option (list Artifact))
    : list Artifact :=
  default [] existing ++ default [] newArtifacts.

Definition _createOrUpdateTask (fr : Fresh) (cx : AgentExecutionContext)
    (taskParams : option AgentTaskParams) (taskState : TaskState)
    (taskId : option string) : Task :=
  let current := currentTask cx in
  let id := default (uuid_task fr) (truthy (js_or (task_id <$> current) taskId)) in
  let arts :=
    _mergeArtifacts (Some (default [] (current ≫= artifacts)))
                    (Some (default [] (taskParams ≫= tp_artifacts))) in
  let metadata :=
    default [] (spread (current ≫= task_metadata) (taskParams ≫= tp_metadata)) in
  let statusMessage :=
    match taskParams ≫= tp_message with
    | Some m => Some (_createMessage fr cx m (Some id) None)
    | None => None
    end in
  let st := spreadStatus (status <$> current) (_createStatus fr taskState statusMessage) in
  {| task_id := id;
     task_contextId := cx_id cx;
     artifacts := Some arts;
     status := st;
     task_metadata := Some metadata;
     history := None |}.

(** [setOrUpdateTask] returns the task and stores it in the context. *)
Definition setOrUpdateTask (fr : Fresh) (cx : AgentExecutionContext)
    (taskParams : option AgentTaskParams) (taskState : TaskState)
    (taskId : option string) : Task * AgentExecutionContext :=
  let task := _createOrUpdateTask fr cx taskParams taskState taskId in
  (task, mkContext (cx_id cx) (Some task) (referenceTasks cx)).

(** The non-streaming producers. *)
Definition cx_reject fr cx (taskParams : AgentTaskParams) taskId :=
  setOrUpdateTask fr cx (Some taskParams) rejected taskId.

Definition cx_authRequired fr cx (taskParams : AgentTaskParams) taskId :=
  setOrUpdateTask fr cx (Some taskParams) auth_required taskId.

Definition cx_inputRequired fr cx (taskParams : AgentTaskParams) taskId :=
  setOrUpdateTask fr cx (Some taskParams) input_required taskId.

Definition cx_complete fr cx (taskParams : AgentTaskParams) taskId :=
  setOrUpdateTask fr cx (Some taskParams) completed taskId.

(** [message(messageParams, messageId)]: its second argument goes to the
    second parameter of [_createMessage], which is [taskId]. *)
Definition message (fr : Fresh) (cx : AgentExecutionContext)
    (messageParams : AgentMessageParams) (messageId : option string) : Message :=
  _createMessage fr cx messageParams messageId None.

(** ** Task stream (agent/stream.ts)

    The producer operations are [async].  [writeArtifact], [start],
    [transition] and [call] are a call run from its first line to its last
    with nothing in between: what an agent sees that awaits the call, no
    other producer call of the stream being under way.  The same operations
    cut at their awaits, for calls that overlap, come after [call].
    [enqueue] has no [await] in its body: it has pushed the item when it
    returns its promise. *)

Definition isFinalTaskState (st : TaskState) : bool :=
  match st with
  | completed | failed | canceled | rejected => true
  | _ => false
  end.

Definition isPendingTaskState (st : TaskState) : bool :=
  match st with
  | input_required | auth_required => true
  | _ => false
  end.

(** [!isJSONRPCError(event) && event.kind === "end-of-stream"]. *)
Definition isEndOfStream (event : AgentStreamEvent) : bool :=
  match event with
  | EndOfStream _ _ => true
  | _ => false
  end.

Record AgentTaskStream : Type := mkStream {
  closed : bool;
  cx : AgentExecutionContext;
  streamQueue : InMemoryQueue.t AgentStreamEvent
}.

(** The constructor; the queue comes from [cx.streamQueueFactory()]. *)
Definition newTaskStream (c : AgentExecutionContext)
    (queue : InMemoryQueue.t AgentStreamEvent) : Result AgentTaskStream :=
  match currentTask c with
  | None => Throw "Cannot create AgentTaskStream: context has no current task."
  | Some _ => Ok (mkStream false c queue)
  end.

Definition _terminateIfPendingOrFinalState (s : AgentTaskStream) : AgentTaskStream :=
  match currentTask (cx s) with
  | Some task =>
      if isPendingTaskState (state (status task)) || isFinalTaskState (state (status task))
      then mkStream true (cx s)
             (InMemoryQueue.enqueue
                (EndOfStream (Some (task_id task)) (Some (task_contextId task)))
                (streamQueue s))
      else s
  | None => s
  end.

Definition _ensureOpen (s : AgentTaskStream) : Result unit :=
  if closed s then Throw "Task stream already terminated." else Ok tt.

Definition _sendTaskStatusUpdate (s : AgentTaskStream) : AgentTaskStream :=
  match currentTask (cx s) with
  | Some task =>
      let final := isFinalTaskState (state (status task)) in
      mkStream (closed s) (cx s)
        (InMemoryQueue.enqueue
           (StatusUpdate (task_id task) (task_contextId task) (status task) final)
           (streamQueue s))
  | None => s
  end.

Definition getTask (s : AgentTaskStream) : Result Task :=
  match currentTask (cx s) with
  | None => Throw "No task found"
  | Some task => Ok task
  end.

(** [this.cx.setOrUpdateTask(params, state)] inside the stream. *)
Definition updateTask (fr : Fresh) (params : AgentTaskParams) (st : TaskState)
    (s : AgentTaskStream) : AgentTaskStream :=
  mkStream (closed s) (snd (setOrUpdateTask fr (cx s) (Some params) st None))
           (streamQueue s).

(** [sendTaskStatusUpdate] is an optional parameter with default [true];
    [append] and [lastChunk] default to [false].  The call is awaited: its
    two awaits are passed with nothing in between. *)
Definition writeArtifact (fr : Fresh) (params : AgentArtifactParams)
    (sendTaskStatusUpdate : option bool) (s : AgentTaskStream) : Result AgentTaskStream :=
  _ ← _ensureOpen s;
  match currentTask (cx s) with
  | None => Throw "No task find to stream artifacts to"
  | Some task =>
      let s1 :=
        if bool_decide (state (status task) ≠ working) then
          let s' := updateTask fr emptyTaskParams working s in
          if default true sendTaskStatusUpdate then _sendTaskStatusUpdate s' else s'
        else s in
      let s2 :=
        mkStream (closed s1) (cx s1)
          (InMemoryQueue.enqueue
             (ArtifactUpdate (task_id task) (cx_id (cx s1)) (ap_artifact params)
                (default false (ap_append params))
                (default false (ap_lastChunk params))
                (art_metadata (ap_artifact params)))
             (streamQueue s1)) in
      Ok (_terminateIfPendingOrFinalState s2)
  end.

Definition _setTaskState (fr : Fresh) (st : TaskState) (s : AgentTaskStream)
    : Result AgentTaskStream :=
  _ ← _ensureOpen s;
  match currentTask (cx s) with
  | None => Throw "No task find to stream artifacts to"
  | Some task =>
      let s1 :=
        if bool_decide (state (status task) ≠ st)
        then _sendTaskStatusUpdate (updateTask fr emptyTaskParams st s)
        else s in
      Ok (_terminateIfPendingOrFinalState s1)
  end.

Definition start (fr : Fresh) (taskParams : AgentTaskParams) (s : AgentTaskStream)
    : Result AgentTaskStream :=
  _ ← _ensureOpen s;
  match currentTask (cx s) with
  | None => Throw "No task find to stream artifacts to"
  | Some task =>
      let s1 :=
        if bool_decide (state (status task) ≠ working)
        then _sendTaskStatusUpdate (updateTask fr taskParams working s)
        else s in
      Ok (_terminateIfPendingOrFinalState s1)
  end.

(** The common body of [reject], [authRequired], [inputRequired] and
    [complete], awaited: the terminate check follows the status-update
    with nothing in between. *)
Definition transition (st : TaskState) (fr : Fresh) (taskParams : AgentTaskParams)
    (s : AgentTaskStream) : Result AgentTaskStream :=
  _ ← _ensureOpen s;
  Ok (_terminateIfPendingOrFinalState
        (_sendTaskStatusUpdate (updateTask fr taskParams st s))).

Definition reject := transition rejected.
Definition authRequired := transition auth_required.
Definition inputRequired := transition input_required.
Definition complete := transition completed.

(** The public producer operations, as calls; [call] is the awaited
    call. *)
Inductive ProducerCall : Type :=
| WriteArtifact (params : AgentArtifactParams) (sendTaskStatusUpdate : option bool)
| Start (taskParams : AgentTaskParams)
| Reject (taskParams : AgentTaskParams)
| AuthRequired (taskParams : AgentTaskParams)
| InputRequired (taskParams : AgentTaskParams)
| Complete (taskParams : AgentTaskParams).

Definition call (fr : Fresh) (c : ProducerCall) (s : AgentTaskStream)
    : Result AgentTaskStream :=
  match c with
  | WriteArtifact params send => writeArtifact fr params send s
  | Start p => start fr p s
  | Reject p => reject fr p s
  | AuthRequired p => authRequired fr p s
  | InputRequired p => inputRequired fr p s
  | Complete p => complete fr p s
  end.

(** *** The producer operations, cut at their awaits

    A call of an async function runs the body up to its first [await] and
    returns; what is left runs later, from one [await] to the next in one
    go.  [_sendTaskStatusUpdate] and [enqueue] have done their work when
    they return their promise, so [await this._sendTaskStatusUpdate()]
    enqueues during the call and suspends the caller after it.  The task is
    read and updated before the first [await] only; [closed = true] and the
    sentinel are written by the last stretch, the terminate check.

    What a suspended call has left to do: the artifact-update and then the
    terminate check ([writeArtifact] after its status-update), or the
    terminate check alone. *)
Inductive Suspended : Type :=
| ArtifactLeft (task : Task) (params : AgentArtifactParams)
| CheckLeft.

(** [await this.streamQueue.enqueue({kind: "artifact-update", ...})]: the
    task id is the one read at the call, the context id is read now. *)
Definition enqueueArtifact (task : Task) (params : AgentArtifactParams)
    (s : AgentTaskStream) : AgentTaskStream :=
  mkStream (closed s) (cx s)
    (InMemoryQueue.enqueue
       (ArtifactUpdate (task_id task) (cx_id (cx s)) (ap_artifact params)
          (default false (ap_append params))
          (default false (ap_lastChunk params))
          (art_metadata (ap_artifact params)))
       (streamQueue s)).

(** A call up to its first [await]: the stream it leaves and what is left
    of the call, or what it throws. *)
Definition writeArtifactHead (fr : Fresh) (params : AgentArtifactParams)
    (sendTaskStatusUpdate : option bool) (s : AgentTaskStream)
    : Result (AgentTaskStream * option Suspended) :=
  _ ← _ensureOpen s;
  match currentTask (cx s) with
  | None => Throw "No task find to stream artifacts to"
  | Some task =>
      if bool_decide (state (status task) ≠ working) then
        let s' := updateTask fr emptyTaskParams working s in
        if default true sendTaskStatusUpdate
        then Ok (_sendTaskStatusUpdate s', Some (ArtifactLeft task params))
        else Ok (enqueueArtifact task params s', Some CheckLeft)
      else Ok (enqueueArtifact task params s, Some CheckLeft)
  end.

(** On a working task [start] meets no [await]: the call runs the terminate
    check itself. *)
Definition startHead (fr : Fresh) (taskParams : AgentTaskParams) (s : AgentTaskStream)
    : Result (AgentTaskStream * option Suspended) :=
  _ ← _ensureOpen s;
  match currentTask (cx s) with
  | None => Throw "No task find to stream artifacts to"
  | Some task =>
      if bool_decide (state (status task) ≠ working)
      then Ok (_sendTaskStatusUpdate (updateTask fr taskParams working s), Some CheckLeft)
      else Ok (_terminateIfPendingOrFinalState s, None)
  end.

Definition transitionHead (st : TaskState) (fr : Fresh) (taskParams : AgentTaskParams)
    (s : AgentTaskStream) : Result (AgentTaskStream * option Suspended) :=
  _ ← _ensureOpen s;
  Ok (_sendTaskStatusUpdate (updateTask fr taskParams st s), Some CheckLeft).

Definition callHead (fr : Fresh) (c : ProducerCall) (s : AgentTaskStream)
    : Result (AgentTaskStream * option Suspended) :=
  match c with
  | WriteArtifact params send => writeArtifactHead fr params send s
  | Start p => startHead fr p s
  | Reject p => transitionHead rejected fr p s
  | AuthRequired p => transitionHead auth_required fr p s
  | InputRequired p => transitionHead input_required fr p s
  | Complete p => transitionHead completed fr p s
  end.

(** A suspended call runs on, to its next [await] or to its end. *)
Definition resume (k : Suspended) (s : AgentTaskStream)
    : AgentTaskStream * option Suspended :=
  match k with
  | ArtifactLeft task params => (enqueueArtifact task params s, Some CheckLeft)
  | CheckLeft => (_terminateIfPendingOrFinalState s, None)
  end.

(** What is left of a call runs to the end, nothing else in between. *)
Definition settle (k : option Suspended) (s : AgentTaskStream) : AgentTaskStream :=
  match k with
  | None => s
  | Some k =>
      match resume k s with
      | (s1, Some k1) => fst (resume k1 s1)
      | (s1, None) => s1
      end
  end.

(** [await stream.op(...)] with no other producer call under way. *)
Definition callAwaited (fr : Fresh) (c : ProducerCall) (s : AgentTaskStream)
    : Result AgentTaskStream :=
  r ← callHead fr c s;
  Ok (settle (snd r) (fst r)).

(** An agent at work on one stream: it makes a call, which runs to its
    first [await], or the [i]-th of the calls under way runs on.  The
    runtime resumes suspended calls in the order their promises settle;
    here any of them may run next. *)
Inductive ProducerStep : Type :=
| Invoke (fr : Fresh) (c : ProducerCall)
| Continue (i : nat).

(** The stream, the calls under way, oldest first, and for every call made
    so far what it threw before its first [await], if anything. *)
Record Producer : Type := mkProducer {
  prod_stream : AgentTaskStream;
  inFlight : list Suspended;
  outcomes : list (option string)
}.

Definition producerStep (P : Producer) (a : ProducerStep) : Producer :=
  match a with
  | Invoke fr c =>
      match callHead fr c (prod_stream P) with
      | Ok (s', k) =>
          mkProducer s' (inFlight P ++ option_list k) (outcomes P ++ [None])
      | Throw message =>
          mkProducer (prod_stream P) (inFlight P) (outcomes P ++ [Some message])
      end
  | Continue i =>
      match inFlight P !! i with
      | Some k =>
          match resume k (prod_stream P) with
          | (s', Some k') => mkProducer s' (<[i := k']> (inFlight P)) (outcomes P)
          | (s', None) => mkProducer s' (delete i (inFlight P)) (outcomes P)
          end
      | None => P
      end
  end.

Definition runProducer (P : Producer) (steps : list ProducerStep) : Producer :=
  foldl producerStep P steps.

(** A stream no call has been made on yet. *)
Definition newProducer (s : AgentTaskStream) : Producer := mkProducer s [] [].

(** What [context.stream(cb, taskId, initialTaskState)] returns before the
    callback has produced anything. *)
Record StreamResult : Type := mkStreamResult {
  taskStream : AgentTaskStream;
  sr_currentTask : Task
}.

Definition cx_stream (fr : Fresh) (c : AgentExecutionContext) (taskId : option string)
    (initialTaskState : option TaskState) : Result StreamResult :=
  let '(task, c') := setOrUpdateTask fr c None (default submitted initialTaskState) taskId in
  ts ← newTaskStream c' InMemoryQueue.empty;
  Ok (mkStreamResult ts task).

(** ** Task stream consumer (server/taskStreamConsumer.ts)

    [tap()] and [consume()] are async generators.  A call creates a
    generator object and runs nothing; the body runs when [next()] is called
    on the object, up to the next [yield] or pending [await].  Each body is
    cut at these points into a program counter. *)

(** A tapper object.  [resolve] names the promise whose callback was stored
    last; nothing in the source resets it. *)
Record Tapper : Type := mkTapper {
  queue : list AgentStreamEvent;
  resolve : option nat
}.

Inductive ConsumePc : Type :=
| ConsumeStart
| ConsumeAwait (p : nat)
| ConsumeYield (event : AgentStreamEvent)
| ConsumeDone.

Inductive TapPc : Type :=
| TapStart
| TapAwait (p : nat)
| TapYield
| TapDone.

Record Generator (Pc : Type) : Type := mkGenerator {
  pc : Pc;
  yielded : list AgentStreamEvent
}.
Arguments mkGenerator {Pc} pc yielded.
Arguments pc {Pc} g.
Arguments yielded {Pc} g.

(** The fields of [TaskStreamConsumer].  [tappers] is a [Set] of object
    references, iterated in insertion order; [aborted] is
    [abortSignal?.aborted]; [cons_streamQueue] is the queue object of the
    task stream, on which the producer's [enqueue] acts. *)
Record TaskStreamConsumer : Type := mkConsumer {
  tappers : list nat;
  consuming : bool;
  finished : bool;
  cons_streamQueue : InMemoryQueue.t AgentStreamEvent;
  aborted : bool
}.

(** A consumer together with the objects that refer to it: the tapper
    objects (by reference), the promises the tap generators created and
    that were resolved, the generator made by [consume()] and those made by
    [tap()].  [iterated] tells whether the caller of [consume()] kept the
    generator and iterates it with [for await]; [next()] is called on it by
    nobody else. *)
Record Channel : Type := mkChannel {
  consumer : TaskStreamConsumer;
  tapperHeap : gmap nat Tapper;
  tapPromises : gmap nat (option AgentStreamEvent);
  consumeGen : option (Generator ConsumePc);
  iterated : bool;
  tapGens : gmap nat (Generator TapPc);
  nextId : nat
}.

Definition setConsumer (c : TaskStreamConsumer) (ch : Channel) : Channel :=
  mkChannel c (tapperHeap ch) (tapPromises ch) (consumeGen ch) (iterated ch)
            (tapGens ch) (nextId ch).

Definition setQueue (q : InMemoryQueue.t AgentStreamEvent) (ch : Channel) : Channel :=
  let c := consumer ch in
  setConsumer (mkConsumer (tappers c) (consuming c) (finished c) q (aborted c)) ch.

Definition setTappers (ts : list nat) (ch : Channel) : Channel :=
  let c := consumer ch in
  setConsumer (mkConsumer ts (consuming c) (finished c) (cons_streamQueue c) (aborted c)) ch.

Definition setTapper (r : nat) (t : Tapper) (ch : Channel) : Channel :=
  mkChannel (consumer ch) (<[r := t]> (tapperHeap ch)) (tapPromises ch)
            (consumeGen ch) (iterated ch) (tapGens ch) (nextId ch).

Definition setConsumeGen (g : Generator ConsumePc) (ch : Channel) : Channel :=
  mkChannel (consumer ch) (tapperHeap ch) (tapPromises ch) (Some g) (iterated ch)
            (tapGens ch) (nextId ch).

Definition setTapGen (r : nat) (g : Generator TapPc) (ch : Channel) : Channel :=
  mkChannel (consumer ch) (tapperHeap ch) (tapPromises ch) (consumeGen ch)
            (iterated ch) (<[r := g]> (tapGens ch)) (nextId ch).

Definition allocate (ch : Channel) : nat * Channel :=
  (nextId ch,
   mkChannel (consumer ch) (tapperHeap ch) (tapPromises ch) (consumeGen ch)
             (iterated ch) (tapGens ch) (S (nextId ch))).

(** Calling the [resolve] callback of promise [p]: a settled promise keeps
    its value. *)
Definition callResolve (p : nat) (v : option AgentStreamEvent) (ch : Channel) : Channel :=
  match tapPromises ch !! p with
  | Some _ => ch
  | None =>
      mkChannel (consumer ch) (tapperHeap ch) (<[p := v]> (tapPromises ch))
                (consumeGen ch) (iterated ch) (tapGens ch) (nextId ch)
  end.

(** The constructor. *)
Definition newConsumer (ts : AgentTaskStream) (abortSignal : option bool) : Channel :=
  mkChannel (mkConsumer [] false false (streamQueue ts) (default false abortSignal))
            ∅ ∅ None false ∅ 0.

(** *** consume() *)

(** One turn of [for (const tapper of this.tappers)] in the broadcast. *)
Definition broadcastTo (event : AgentStreamEvent) (ch : Channel) (r : nat) : Channel :=
  match tapperHeap ch !! r with
  | Some t =>
      match resolve t with
      | Some p => callResolve p (Some event) ch
      | None => setTapper r (mkTapper (queue t ++ [event]) (resolve t)) ch
      end
  | None => ch
  end.

Definition broadcast (event : AgentStreamEvent) (ch : Channel) : Channel :=
  foldl (broadcastTo event) ch (tappers (consumer ch)).

(** One turn of the loop of the [finally] block. *)
Definition notifyEnd (ch : Channel) (r : nat) : Channel :=
  match tapperHeap ch !! r with
  | Some t =>
      match resolve t with
      | Some p => callResolve p None ch
      | None => ch
      end
  | None => ch
  end.

(** The [finally] block of [consume()], then the generator returns. *)
Definition consumeFinally (g : Generator ConsumePc) (ch : Channel) : Channel :=
  let ch1 := foldl notifyEnd ch (tappers (consumer ch)) in
  let c := consumer ch1 in
  setConsumeGen (mkGenerator ConsumeDone (yielded g))
    (setConsumer (mkConsumer [] false true (cons_streamQueue c) (aborted c)) ch1).

(** The body from the test [isEndOfStreamEvent(event)] to [yield event]. *)
Definition consumeEvent (g : Generator ConsumePc) (event : AgentStreamEvent)
    (ch : Channel) : Channel :=
  if isEndOfStream event then consumeFinally g ch
  else setConsumeGen (mkGenerator (ConsumeYield event) (yielded g ++ [event])) ch.

(** The body from the head of the [while] loop to the next suspension. *)
Definition consumeLoop (g : Generator ConsumePc) (ch : Channel) : Channel :=
  if aborted (consumer ch) then consumeFinally g ch
  else
    let '(p, ch1) := allocate ch in
    match InMemoryQueue.dequeue p (cons_streamQueue (consumer ch1)) with
    | (InMemoryQueue.Now None, q) => consumeFinally g (setQueue q ch1)
    | (InMemoryQueue.Now (Some event), q) => consumeEvent g event (setQueue q ch1)
    | (InMemoryQueue.Blocked, q) =>
        setConsumeGen (mkGenerator (ConsumeAwait p) (yielded g)) (setQueue q ch1)
    end.

(** [consumer.consume()]: the call only makes the generator object. *)
Definition consume (ch : Channel) : Channel :=
  setConsumeGen (mkGenerator ConsumeStart []) ch.

(** [next()] on the generator of [consume()]. *)
Definition consumeNext (ch : Channel) : Channel :=
  match consumeGen ch with
  | Some g =>
      match pc g with
      | ConsumeStart =>
          let c := consumer ch in
          if consuming c || finished c
          then setConsumeGen (mkGenerator ConsumeDone (yielded g)) ch
          else consumeLoop g
                 (setConsumer (mkConsumer (tappers c) true (finished c)
                                 (cons_streamQueue c) (aborted c)) ch)
      | ConsumeYield event => consumeLoop g (broadcast event ch)
      | _ => ch
      end
  | None => ch
  end.

(** The continuation of [await this.streamQueue.dequeue()] once the promise
    has a value. *)
Definition consumeResume (ch : Channel) : Channel :=
  match consumeGen ch with
  | Some g =>
      match pc g with
      | ConsumeAwait p =>
          match InMemoryQueue.resolution p (cons_streamQueue (consumer ch)) with
          | Some (Some event) => consumeEvent g event ch
          | Some None => consumeFinally g ch
          | None => ch
          end
      | _ => ch
      end
  | None => ch
  end.

(** *** tap() *)

(** [consumer.tap()]: the call only makes the generator object; [r] names
    it, and the tapper object its body will create. *)
Definition tap (ch : Channel) : nat * Channel :=
  let '(r, ch1) := allocate ch in
  (r, setTapGen r (mkGenerator TapStart []) ch1).

(** The [finally] block of [tap()]. *)
Definition tapFinally (r : nat) (g : Generator TapPc) (ch : Channel) : Channel :=
  setTapGen r (mkGenerator TapDone (yielded g))
    (setTappers (filter (fun x => x ≠ r) (tappers (consumer ch))) ch).

(** The body from the head of [while (!this.finished)] to the next
    suspension. *)
Definition tapLoop (r : nat) (g : Generator TapPc) (ch : Channel) : Channel :=
  if finished (consumer ch) then tapFinally r g ch
  else
    match tapperHeap ch !! r with
    | Some t =>
        match queue t with
        | event :: rest =>
            setTapGen r (mkGenerator TapYield (yielded g ++ [event]))
              (setTapper r (mkTapper rest (resolve t)) ch)
        | [] =>
            let '(p, ch1) := allocate ch in
            setTapGen r (mkGenerator (TapAwait p) (yielded g))
              (setTapper r (mkTapper (queue t) (Some p)) ch1)
        end
    | None => ch
    end.

(** [next()] on a generator of [tap()]. *)
Definition tapNext (r : nat) (ch : Channel) : Channel :=
  match tapGens ch !! r with
  | Some g =>
      match pc g with
      | TapStart =>
          tapLoop r g
            (setTappers (tappers (consumer ch) ++ [r])
               (setTapper r (mkTapper [] None) ch))
      | TapYield => tapLoop r g ch
      | _ => ch
      end
  | None => ch
  end.

(** The continuation of the [await] of [tap()] once the promise has a
    value. *)
Definition tapResume (r : nat) (ch : Channel) : Channel :=
  match tapGens ch !! r with
  | Some g =>
      match pc g with
      | TapAwait p =>
          match tapPromises ch !! p with
          | Some (Some event) =>
              setTapGen r (mkGenerator TapYield (yielded g ++ [event])) ch
          | Some None => tapFinally r g ch
          | None => ch
          end
      | _ => ch
      end
  | None => ch
  end.

(** *** What can happen to a channel *)

Inductive Action : Type :=
| Enqueue (event : AgentStreamEvent)
| Abort
| ConsumeNext
| ConsumeResume
| Tap
| TapNext (r : nat)
| TapResume (r : nat).

(** The producer enqueues, the abort signal trips, the [for await] loop that
    holds the generator of [consume()] asks for the next event, a subscriber
    calls [tap()] or asks its generator for the next event, and a settled
    promise lets the generator awaiting it go on. *)
Definition step (ch : Channel) (a : Action) : Channel :=
  match a with
  | Enqueue event =>
      setQueue (InMemoryQueue.enqueue event (cons_streamQueue (consumer ch))) ch
  | Abort =>
      let c := consumer ch in
      setConsumer (mkConsumer (tappers c) (consuming c) (finished c)
                     (cons_streamQueue c) true) ch
  | ConsumeNext => if iterated ch then consumeNext ch else ch
  | ConsumeResume => consumeResume ch
  | Tap => snd (tap ch)
  | TapNext r => tapNext r ch
  | TapResume r => tapResume r ch
  end.

Definition run (ch : Channel) (trace : list Action) : Channel :=
  foldl step ch trace.

(** The events a generator has handed to its caller so far. *)
Definition received (r : nat) (ch : Channel) : list AgentStreamEvent :=
  match tapGens ch !! r with
  | Some g => yielded g
  | None => []
  end.

Definition primaryReceived (ch : Channel) : list AgentStreamEvent :=
  match consumeGen ch with
  | Some g => yielded g
  | None => []
  end.

(** *** TaskStreamManager: task id to consumer *)

Definition getConsumer (taskId : string) (m : gmap string Channel) : option Channel :=
  m !! taskId.

Definition createConsumer (ts : AgentTaskStream) (abortSignal : option bool)
    (m : gmap string Channel) : Result (gmap string Channel) :=
  task ← getTask ts;
  match m !! task_id task with
  | Some _ =>
      Throw ("Stream for task " +:+ task_id task +:+ " is already being consumed")
  | None => Ok (<[task_id task := newConsumer ts abortSignal]> m)
  end.

(** The generator a streaming handler forwards events from. *)
Inductive EventSource : Type :=
| FromConsume (taskId : string)
| FromTap (taskId : string) (r : nat).

Definition tapOrConsume (ts : AgentTaskStream) (abortSignal : option bool)
    (m : gmap string Channel) : Result (EventSource * gmap string Channel) :=
  task ← getTask ts;
  match m !! task_id task with
  | Some ch =>
      let '(r, ch') := tap ch in
      Ok (FromTap (task_id task) r, <[task_id task := ch']> m)
  | None =>
      m' ← createConsumer ts abortSignal m;
      Ok (FromConsume (task_id task), alter consume (task_id task) m')
  end.

Definition remove (taskId : string) (m : gmap string Channel) : gmap string Channel :=
  delete taskId m.

(** [for await (const event of eventConsumer)]: the loop holds the generator
    and calls [next()] on it. *)
Definition forAwait (src : EventSource) (m : gmap string Channel) : gmap string Channel :=
  match src with
  | FromConsume taskId =>
      alter (fun ch => mkChannel (consumer ch) (tapperHeap ch) (tapPromises ch)
                         (consumeGen ch) true (tapGens ch) (nextId ch)) taskId m
  | FromTap _ _ => m
  end.

(** The events the loop has been given so far. *)
Definition sourceEvents (src : EventSource) (m : gmap string Channel)
    : list AgentStreamEvent :=
  match src with
  | FromConsume taskId => from_option primaryReceived [] (m !! taskId)
  | FromTap taskId r => from_option (received r) [] (m !! taskId)
  end.

(** ** JSON-RPC dispatcher and request handlers
    (jsonRPC/jsonRpcServer.ts, server/server.ts) *)

Inductive RequestId : Type :=
| IdString (s : string)
| IdNumber (n : Z)
| IdNull.

Record PushNotificationAuthenticationInfo : Type := mkAuthInfo {
  schemes : list string;
  credentials : option string
}.

Record PushNotificationConfig : Type := mkPushConfig {
  url : string;
  token : option string;
  authentication : option PushNotificationAuthenticationInfo
}.

(** [params] is [Record<string, any>] for the dispatcher; these are the
    shapes the handlers read. *)
Inductive Params : Type :=
| SendParams (message : Message)
| IdParams (id : string)
| PushParams (taskId : string) (pushNotificationConfig : PushNotificationConfig)
| NoParams.

Record JSONRPCRequest : Type := mkRequest {
  req_id : RequestId;
  method : string;
  params : Params
}.

Inductive ResultValue : Type :=
| ResultTask (t : Task)
| ResultMessage (m : Message)
| ResultEvent (event : AgentStreamEvent)
| ResultPushConfig (taskId : string) (pushNotificationConfig : PushNotificationConfig).

Inductive JSONRPCResponse : Type :=
| Success (id : RequestId) (result : ResultValue)
| Failure (id : RequestId) (error : JSONRPCError).

(** A response stream: the frames its generator yields before it waits for
    an event, and the generator whose events it then forwards, one frame
    each. *)
Record ResponseStream : Type := mkResponseStream {
  rs_id : RequestId;
  frames : list JSONRPCResponse;
  source : option EventSource
}.

Inductive HandlerResponse : Type :=
| Response (response : JSONRPCResponse)
| Stream (stream : ResponseStream).

(** The frames of a response stream once the channels are in state [m]. *)
Definition streamFrames (rs : ResponseStream) (m : gmap string Channel)
    : list JSONRPCResponse :=
  frames rs ++
  match source rs with
  | Some src => map (fun event => Success (rs_id rs) (ResultEvent event)) (sourceEvents src m)
  | None => []
  end.

(** A thrown value: an [Error], an object of the JSON-RPC error shape, or
    anything else. *)
Inductive Thrown : Type :=
| ErrorObject (message : string)
| RpcErrorObject (e : JSONRPCError)
| OtherValue.

Inductive Outcome (A : Type) : Type :=
| Returned (a : A)
| Raised (t : Thrown).
Arguments Returned {A} a.
Arguments Raised {A} t.

(** [isJSONRPCError(error) ? error : wrap(error instanceof Error ?
    error.message : undefined)]. *)
Definition caught (wrap : option string -> JSONRPCError) (t : Thrown) : JSONRPCError :=
  match t with
  | RpcErrorObject e => e
  | ErrorObject m => wrap (Some m)
  | OtherValue => wrap None
  end.

Inductive AgentExecutionResult : Type :=
| TaskResult (t : Task)
| MessageResult (m : Message)
| StreamRes (r : StreamResult)
| ErrorResult (e : JSONRPCError).

Record IAgentExecutor : Type := mkExecutor {
  execute : AgentExecutionContext -> Outcome AgentExecutionResult;
  cancel : Task -> Outcome (Task + JSONRPCError)
}.

(** The task store (handlers never pass a ttl) and the stream manager. *)
Record ServerState : Type := mkState {
  _taskStore : gmap string Task;
  _taskStreamManager : gmap string Channel
}.

Definition Handler : Type :=
  JSONRPCRequest -> option bool -> ServerState -> HandlerResponse * ServerState.

Section Handlers.
Variable _agentExecutor : IAgentExecutor.
(** The value of [uuidv4()] in the context constructor. *)
Variable uuid : string.

Definition _handleMessage (request : JSONRPCRequest) (st : ServerState)
    : Outcome AgentExecutionResult :=
  match params request with
  | SendParams message =>
      let lookup :=
        match truthy (msg_taskId message) with
        | Some taskId =>
            match _taskStore st !! taskId with
            | Some task => inr (Some task)
            | None => inl (taskNotFoundError (Some ("Task " +:+ taskId +:+ " not found")))
            end
        | None => inr None
        end in
      match lookup with
      | inl e => Returned (ErrorResult e)
      | inr task =>
          let referencedTasks :=
            (fun ids : list string => omap (fun taskId => _taskStore st !! taskId) ids)
              <$> referenceTaskIds message in
          execute _agentExecutor
            (newContext uuid (msg_contextId message) task referencedTasks None)
      end
  | _ => Raised (ErrorObject "Cannot read properties of undefined")
  end.

Definition taskMismatch : string :=
  "Task mismatch. The task in stream does not match the current task".

Definition _handleMessageSend (request : JSONRPCRequest) (abortSignal : option bool)
    (st : ServerState) : JSONRPCResponse * ServerState :=
  let id := req_id request in
  let fail t := (Failure id (caught invalidAgentResponseError t), st) in
  match _handleMessage request st with
  | Raised t => fail t
  | Returned (ErrorResult e) => (Failure id e, st)
  | Returned (TaskResult t) =>
      (Success id (ResultTask t),
       mkState (<[task_id t := t]> (_taskStore st)) (_taskStreamManager st))
  | Returned (MessageResult m) => (Success id (ResultMessage m), st)
  | Returned (StreamRes r) =>
      match getTask (taskStream r) with
      | Throw m => fail (ErrorObject m)
      | Ok t =>
          if bool_decide (task_id t ≠ task_id (sr_currentTask r)) ||
             bool_decide (task_contextId t ≠ task_contextId (sr_currentTask r))
          then fail (ErrorObject taskMismatch)
          else
            match getConsumer (task_id t) (_taskStreamManager st) with
            | Some _ => (Success id (ResultTask (sr_currentTask r)), st)
            | None =>
                match createConsumer (taskStream r) abortSignal (_taskStreamManager st) with
                | Throw m => fail (ErrorObject m)
                | Ok m' =>
                    (* [consumer.consume();] the generator is not kept *)
                    (Success id (ResultTask (sr_currentTask r)),
                     mkState (_taskStore st) (alter consume (task_id t) m'))
                end
            end
      end
  end.

Definition _handleMessageStream (request : JSONRPCRequest) (abortSignal : option bool)
    (st : ServerState) : ResponseStream * ServerState :=
  let id := req_id request in
  let fail t := Failure id (caught invalidAgentResponseError t) in
  match _handleMessage request st with
  | Raised t => (mkResponseStream id [fail t] None, st)
  | Returned (ErrorResult e) => (mkResponseStream id [Failure id e] None, st)
  | Returned (TaskResult t) =>
      (mkResponseStream id [Success id (ResultTask t)] None,
       mkState (<[task_id t := t]> (_taskStore st)) (_taskStreamManager st))
  | Returned (MessageResult m) =>
      (mkResponseStream id [Success id (ResultMessage m)] None, st)
  | Returned (StreamRes r) =>
      let first := Success id (ResultTask (sr_currentTask r)) in
      match tapOrConsume (taskStream r) abortSignal (_taskStreamManager st) with
      | Throw m => (mkResponseStream id [first; fail (ErrorObject m)] None, st)
      | Ok (src, m') =>
          (mkResponseStream id [first] (Some src),
           mkState (_taskStore st) (forAwait src m'))
      end
  end.

Definition _handleTaskPushNotificationGet (request : JSONRPCRequest)
    (abortSignal : option bool) (st : ServerState) : JSONRPCResponse * ServerState :=
  let id := req_id request in
  match params request with
  | IdParams taskId =>
      match _taskStore st !! taskId with
      | None =>
          (Failure id (taskNotFoundError (Some ("Task with ID " +:+ taskId +:+ " not found"))), st)
      | Some _ => (Failure id (pushNotificationNotSupportedError None), st)
      end
  | NoParams =>
      (Failure id (internalError (Some "Cannot read properties of undefined")), st)
  | _ => (Failure id (taskNotFoundError (Some "Task with ID undefined not found")), st)
  end.

Definition _handleTaskPushNotificationSet (request : JSONRPCRequest)
    (abortSignal : option bool) (st : ServerState) : JSONRPCResponse * ServerState :=
  let id := req_id request in
  match params request with
  | PushParams taskId config =>
      match _taskStore st !! taskId with
      | None =>
          (Failure id (taskNotFoundError (Some ("Task with ID " +:+ taskId +:+ " not found"))), st)
      | Some _ =>
          (Success id
             (ResultPushConfig taskId
                (mkPushConfig (url config) (token config)
                   ((fun a => mkAuthInfo (schemes a) None) <$> authentication config))),
           st)
      end
  | NoParams =>
      (Failure id (internalError (Some "Cannot read properties of undefined")), st)
  | _ => (Failure id (taskNotFoundError (Some "Task with ID undefined not found")), st)
  end.

Definition _handleTaskCancel (request : JSONRPCRequest) (abortSignal : option bool)
    (st : ServerState) : JSONRPCResponse * ServerState :=
  let id := req_id request in
  match params request with
  | IdParams taskId =>
      match _taskStore st !! taskId with
      | None =>
          (Failure id (taskNotFoundError (Some ("Task with ID " +:+ taskId +:+ " not found"))), st)
      | Some task =>
          match cancel _agentExecutor task with
          | Raised t => (Failure id (caught invalidAgentResponseError t), st)
          | Returned (inr e) => (Failure id e, st)
          | Returned (inl t) => (Success id (ResultTask t), st)
          end
      end
  | _ => (Failure id (taskNotFoundError (Some "Task with ID undefined not found")), st)
  end.

Definition _handleTaskResubscribe (request : JSONRPCRequest) (abortSignal : option bool)
    (st : ServerState) : ResponseStream * ServerState :=
  let id := req_id request in
  match params request with
  | IdParams taskId =>
      match _taskStore st !! taskId with
      | None =>
          (mkResponseStream id
             [Failure id (taskNotFoundError (Some ("Task " +:+ taskId +:+ " not found")))] None,
           st)
      | Some task =>
          match getConsumer (task_id task) (_taskStreamManager st) with
          | None =>
              (mkResponseStream id
                 [Failure id (taskNotFoundError (Some ("Task " +:+ taskId +:+ " is not active")))]
                 None,
               st)
          | Some ch =>
              let '(r, ch') := tap ch in
              (mkResponseStream id [] (Some (FromTap (task_id task) r)),
               mkState (_taskStore st) (<[task_id task := ch']> (_taskStreamManager st)))
          end
      end
  | NoParams =>
      (mkResponseStream id
         [Failure id (internalError (Some "Cannot read properties of undefined"))] None,
       st)
  | _ =>
      (mkResponseStream id
         [Failure id (taskNotFoundError (Some "Task undefined not found"))] None,
       st)
  end.

Definition single (h : JSONRPCRequest -> option bool -> ServerState ->
                       JSONRPCResponse * ServerState) : Handler :=
  fun request abortSignal st =>
    let '(response, st') := h request abortSignal st in (Response response, st').

Definition streaming (h : JSONRPCRequest -> option bool -> ServerState ->
                          ResponseStream * ServerState) : Handler :=
  fun request abortSignal st =>
    let '(stream, st') := h request abortSignal st in (Stream stream, st').

(** [setRequestHandler] is [Map.set]. *)
Definition setRequestHandler (methodName : string) (handler : Handler)
    (handlers : gmap string Handler) : gmap string Handler :=
  <[methodName := handler]> handlers.

Definition registerHandlers (handlers : gmap string Handler) : gmap string Handler :=
  setRequestHandler "tasks/resubscribe" (streaming _handleTaskResubscribe)
    (setRequestHandler "tasks/pushNotificationConfig/get" (single _handleTaskPushNotificationGet)
      (setRequestHandler "tasks/pushNotificationConfig/set" (single _handleTaskPushNotificationSet)
        (setRequestHandler "tasks/cancel" (single _handleTaskCancel)
          (setRequestHandler "message/stream" (streaming _handleMessageStream)
            (setRequestHandler "message/send" (single _handleMessageSend) handlers))))).

(** [JSONRPCServer.handleRequest]. *)
Definition dispatch (handlers : gmap string Handler) (request : JSONRPCRequest)
    (abortSignal : option bool) (st : ServerState) : HandlerResponse * ServerState :=
  match handlers !! method request with
  | None =>
      (Response (Failure (req_id request)
                   (mkError ErrorType.MethodNotFoundError "Method not found")), st)
  | Some handler => handler request abortSignal st
  end.

Record A2AServer : Type := mkServer {
  _jsonRpcServer : gmap string Handler;
  serverState : ServerState;
  _isRunning : bool
}.

(** The constructor; [taskStoreFactory()] gives the store. *)
Definition newA2AServer (store : gmap string Task) : A2AServer :=
  mkServer (registerHandlers ∅) (mkState store ∅) false.

Definition startServer (srv : A2AServer) : A2AServer :=
  mkServer (registerHandlers (_jsonRpcServer srv)) (serverState srv) true.

(** [A2AServer.handleRequest]. *)
Definition handleRequest (srv : A2AServer) (request : JSONRPCRequest)
    (abortSignal : option bool) : Result (HandlerResponse * A2AServer) :=
  if negb (_isRunning srv) then Throw "Server is not running"
  else
    let '(response, st') :=
      dispatch (_jsonRpcServer srv) request abortSignal (serverState srv) in
    Ok (response, mkServer (_jsonRpcServer srv) st' (_isRunning srv)).

End Handlers.

(** ** In-memory store (providers/storage/in_memory.ts)

    The store is a [Map] from keys to entries; a [Map] keeps its keys in
    insertion order, and [Map.set] on a key it has keeps the key's place.
    [Date.now()] is an input of every operation that reads the clock; times
    are milliseconds and [ttl] is a whole number of seconds. *)
Module InMemoryStore.
Section Store.
Context {T : Type}.

Record Entry : Type := mkEntry {
  value : T;
  expiresAt : option Z
}.

Definition t : Type := list (string * Entry).

Definition empty : t := [].

(** [Map.get], [Map.set] and [Map.delete]. *)
Fixpoint mapGet (key : string) (m : t) : option Entry :=
  match m with
  | [] => None
  | (k, e) :: rest => if decide (k = key) then Some e else mapGet key rest
  end.

Fixpoint mapSet (key : string) (e : Entry) (m : t) : t :=
  match m with
  | [] => [(key, e)]
  | (k, e') :: rest =>
      if decide (k = key) then (k, e) :: rest else (k, e') :: mapSet key e rest
  end.

Definition mapDelete (key : string) (m : t) : bool * t :=
  (bool_decide (is_Some (mapGet key m)),
   filter (fun kv => fst kv ≠ key) m).

(** [ttl && ttl > 0]: no ttl, zero and negative ttl give no expiry. *)
Definition set (now : Z) (key : string) (v : T) (ttl : option Z) (s : t) : t :=
  let expiresAt :=
    match ttl with
    | Some n => if bool_decide (0 < n)%Z then Some (now + n * 1000)%Z else None
    | None => None
    end in
  mapSet key (mkEntry v expiresAt) s.

(** [entry.expiresAt && entry.expiresAt < Date.now()]: [0] is falsy. *)
Definition expired (now : Z) (e : Entry) : bool :=
  match expiresAt e with
  | Some x => bool_decide (x ≠ 0%Z) && bool_decide (x < now)%Z
  | None => false
  end.

Definition get (now : Z) (key : string) (s : t) : option T * t :=
  match mapGet key s with
  | None => (None, s)
  | Some e =>
      if expired now e then (None, snd (mapDelete key s)) else (Some (value e), s)
  end.

Definition delete (key : string) (s : t) : bool * t := mapDelete key s.

Definition has (now : Z) (key : string) (s : t) : bool * t :=
  match mapGet key s with
  | None => (false, s)
  | Some e => if expired now e then (false, snd (mapDelete key s)) else (true, s)
  end.

Definition clear (s : t) : t := [].

(** The loop deletes the expired entries; deleting from a [Map] while
    iterating over it is allowed and skips nothing. *)
Definition cleanupExpired (now : Z) (s : t) : t :=
  filter (fun kv => expired now (snd kv) = false) s.

Definition keys (now : Z) (s : t) : list string * t :=
  let s' := cleanupExpired now s in (fst <$> s', s').

Definition values (now : Z) (s : t) : list T * t :=
  let s' := cleanupExpired now s in ((fun kv => value (snd kv)) <$> s', s').

Definition entries (now : Z) (s : t) : list (string * T) * t :=
  let s' := cleanupExpired now s in
  ((fun kv => (fst kv, value (snd kv))) <$> s', s').
End Store.
Arguments t : clear implicits.
Arguments Entry : clear implicits.
End InMemoryStore.

(** ** Operations on a queue, one after the other

    [Deq p] is a call of [dequeue()] whose promise is [p].  The run keeps
    the answers given so far: which promise got which item, be it at the
    call or later, when an [enqueue] resolved it. *)
Inductive QueueOp (T : Type) : Type :=
| Enq (x : T)
| Deq (p : nat).
Arguments Enq {T} x.
Arguments Deq {T} p.

(** The promises an [enqueue] has just resolved with an item. *)
Definition newlyResolved {T : Type} (before after : InMemoryQueue.t T) : list (nat * T) :=
  omap (fun r => match snd r with Some x => Some (fst r, x) | None => None end)
       (drop (length (InMemoryQueue.settled before)) (InMemoryQueue.settled after)).

Definition queueStep {T : Type} (st : InMemoryQueue.t T * list (nat * T))
    (op : QueueOp T) : InMemoryQueue.t T * list (nat * T) :=
  let '(q, answers) := st in
  match op with
  | Enq x =>
      let q' := InMemoryQueue.enqueue x q in
      (q', answers ++ newlyResolved q q')
  | Deq p =>
      match InMemoryQueue.dequeue p q with
      | (InMemoryQueue.Now (Some x), q') => (q', answers ++ [(p, x)])
      | (_, q') => (q', answers)
      end
  end.

Definition runQueue {T : Type} (q : InMemoryQueue.t T) (ops : list (QueueOp T))
    : InMemoryQueue.t T * list (nat * T) :=
  foldl queueStep (q, []) ops.

(** The items enqueued and the promises of the [dequeue] calls, in call
    order. *)
Definition enqs {T : Type} (ops : list (QueueOp T)) : list T :=
  omap (fun op => match op with Enq x => Some x | Deq _ => None end) ops.

Definition deqs {T : Type} (ops : list (QueueOp T)) : list nat :=
  omap (fun op => match op with Deq p => Some p | Enq _ => None end) ops.

(** ** Vocabulary of the properties *)

(** The status message [_createOrUpdateTask] materializes from the params:
    addressed to the task's id, in the context. *)
Definition materialized (fr : Fresh) (cx : AgentExecutionContext)
    (taskParams : option AgentTaskParams) (taskId : option string) : option Message :=
  let id := default (uuid_task fr) (truthy (js_or (task_id <$> currentTask cx) taskId)) in
  (fun m => _createMessage fr cx m (Some id) None) <$> (taskParams ≫= tp_message).

(** The kinds of the events a task stream emits. *)
Definition isStatusUpdate (event : AgentStreamEvent) : bool :=
  match event with
  | StatusUpdate _ _ _ _ => true
  | _ => false
  end.

Definition isArtifactUpdate (event : AgentStreamEvent) : bool :=
  match event with
  | ArtifactUpdate _ _ _ _ _ _ => true
  | _ => false
  end.

(** The state of the stream's task is terminal or pending. *)
Definition terminated (s : AgentTaskStream) : Prop :=
  exists task, currentTask (cx s) = Some task /\
    (isFinalTaskState (state (status task)) || isPendingTaskState (state (status task))) = true.

(** The message of the error [_ensureOpen] throws. *)
Definition alreadyTerminated : string := "Task stream already terminated.".

(** The events a trace makes the producer enqueue, in order. *)
Definition enqueued (trace : list Action) : list AgentStreamEvent :=
  omap (fun a => match a with Enqueue event => Some event | _ => None end) trace.

(** A channel whose [consume()] generator was made and then let go: no
    [next()] has reached it and none will, the consumer has not started,
    and no tapper has been given anything. *)
Record idle (ch : Channel) : Prop := mkIdle {
  idle_iterated : iterated ch = false;
  idle_gen : consumeGen ch = Some (mkGenerator ConsumeStart []);
  idle_finished : finished (consumer ch) = false;
  idle_consuming : consuming (consumer ch) = false;
  idle_promises : tapPromises ch = ∅;
  idle_yielded : forall r g, tapGens ch !! r = Some g -> yielded g = [];
  idle_buffers : forall r t, tapperHeap ch !! r = Some t -> queue t = []
}.

(** Every tapper in the set has stored a [resolve] callback, and no tapper
    has anything in its buffer. *)
Record unbuffered (ch : Channel) : Prop := mkUnbuffered {
  unbuffered_queue : forall r t, tapperHeap ch !! r = Some t -> queue t = [];
  unbuffered_resolve : forall r, r ∈ tappers (consumer ch) ->
    exists t p, tapperHeap ch !! r = Some t /\ resolve t = Some p
}.

(** The method names [registerHandlers] sets a handler for. *)
Definition registeredMethods : list string :=
  ["message/send"; "message/stream"; "tasks/cancel";
   "tasks/pushNotificationConfig/set"; "tasks/pushNotificationConfig/get";
   "tasks/resubscribe"].

(** A started server whose store and stream manager are [st]. *)
Definition runningServer (exec : IAgentExecutor) (uuid : string) (st : ServerState)
    : A2AServer :=
  let srv := startServer exec uuid (newA2AServer exec uuid ∅) in
  mkServer (_jsonRpcServer srv) st (_isRunning srv).

(** ** Sample values used by the closed lemmas *)

Definition fresh0 : Fresh :=
  mkFresh "2025-06-01T10:00:00.000Z" "uuid-task-0" "uuid-message-0".

Definition fresh1 : Fresh :=
  mkFresh "2025-06-01T10:00:05.000Z" "uuid-task-1" "uuid-message-1".

Definition hello : AgentMessageParams := mkMessageParams [TextPart "hello"] None.

Definition howMany : Message :=
  mkMessage "m-0" agent [TextPart "how many?"] None (Some "ctx-1") (Some "task-1") None.

Definition art (id text : string) : Artifact :=
  mkArtifact id None [TextPart text] None.

(** A task as the store gives it back: waiting for input, with one
    artifact and a status message. *)
Definition storedTask : Task :=
  mkTask "task-1" "ctx-1"
         (mkTaskStatus input_required (Some "2025-06-01T09:00:00.000Z") (Some howMany))
         (Some [art "a0" "zero"]) None None.

Definition resumedContext : AgentExecutionContext :=
  mkContext "ctx-1" (Some storedTask) None.

(** A stream on [resumedContext] moved to [submitted], as
    [context.stream(cb)] makes it. *)
Definition submittedStream : AgentTaskStream :=
  mkStream false (snd (setOrUpdateTask fresh0 resumedContext None submitted None))
           InMemoryQueue.empty.

Definition chunk : AgentArtifactParams :=
  mkArtifactParams (art "a1" "one") None None.

(** [submittedStream] after [writeArtifact(chunk)]. *)
Definition workingStream : AgentTaskStream :=
  Eval vm_compute in
    match writeArtifact fresh1 chunk None submittedStream with
    | Ok s => s
    | Throw _ => submittedStream
    end.

(** [workingStream] after [complete({})]. *)
Definition completedStream : AgentTaskStream :=
  Eval vm_compute in
    match complete fresh1 emptyTaskParams workingStream with
    | Ok s => s
    | Throw _ => workingStream
    end.

Definition sendHi : JSONRPCRequest :=
  mkRequest (IdNumber 1) "message/send"
            (SendParams (mkMessage "m-1" user [TextPart "hi"] None None None None)).

(** An agent that answers with [context.stream(cb)]. *)
Definition streamingAgent : IAgentExecutor :=
  mkExecutor
    (fun c => match cx_stream fresh0 c None None with
              | Ok r => Returned (StreamRes r)
              | Throw m => Raised (ErrorObject m)
              end)
    (fun t => Returned (inl t)).

Definition emptyState : ServerState := mkState ∅ ∅.

(** What [streamingAgent] returns for [sendHi]. *)
Definition sendHiResult : StreamResult :=
  Eval vm_compute in
    match cx_stream fresh0 (newContext "uuid-context-0" None None None None) None None with
    | Ok r => r
    | Throw _ => mkStreamResult submittedStream storedTask
    end.

(** An artifact-update and the sentinel of the task of [sendHiResult]. *)
Definition artifactEvent (id text : string) : AgentStreamEvent :=
  ArtifactUpdate "uuid-task-0" "uuid-context-0" (art id text) false false None.

Definition sentinel : AgentStreamEvent :=
  EndOfStream (Some "uuid-task-0") (Some "uuid-context-0").

Definition streamHi : JSONRPCRequest :=
  mkRequest (IdNumber 2) "message/stream"
            (SendParams (mkMessage "m-2" user [TextPart "hi"] None None None None)).

(** The channel [message/stream] sets up for [streamHi]: its [for await]
    loop holds the generator of [consume()]. *)
Definition liveChannel : Channel :=
  default (newConsumer (taskStream sendHiResult) None)
    (_taskStreamManager
       (snd (_handleMessageStream streamingAgent "uuid-context-0" streamHi None emptyState))
     !! "uuid-task-0").

(** Two subscribers tap in (generators 1 and 3) while the consumer waits
    for the first event. *)
Definition twoTappers : list Action :=
  [ConsumeNext; Tap; TapNext 1; Tap; TapNext 3].

(** The first artifact goes round: both tappers are woken with it; the
    second artifact is already in the queue.  Tapper 3 asks for the next
    event; the client of tapper 1 is still busy with the first. *)
Definition firstEvent : list Action :=
  [Enqueue (artifactEvent "a1" "one"); ConsumeResume;
   Enqueue (artifactEvent "a2" "two"); ConsumeNext;
   TapResume 1; TapResume 3; TapNext 3].

(** A third subscriber taps in (generator 7); the second artifact is
    broadcast; then tapper 1 asks for the next event, and the stream
    ends. *)
Definition secondEvent : list Action :=
  [Tap; TapNext 7; ConsumeNext; TapNext 1; TapResume 3; TapResume 7;
   Enqueue sentinel; ConsumeResume; TapResume 1; TapNext 3; TapNext 7].

(** A task that is not the one [submittedStream] works on. *)
Definition otherTask : Task :=
  mkTask "task-2" "ctx-1" (mkTaskStatus submitted (Some (now fresh0)) None)
         (Some []) None (Some []).

(** An agent whose stream result names another task than the one its
    stream works on. *)
Definition mismatchingAgent : IAgentExecutor :=
  mkExecutor (fun _ => Returned (StreamRes (mkStreamResult submittedStream otherTask)))
             (fun t => Returned (inl t)).

(** The channel [tapOrConsume] makes for a stream nobody consumes yet, once
    the handler's [for await] loop holds the generator. *)
Definition streamingChannel (ts : AgentTaskStream) (abortSignal : option bool) : Channel :=
  let ch := consume (newConsumer ts abortSignal) in
  mkChannel (consumer ch) (tapperHeap ch) (tapPromises ch) (consumeGen ch) true
            (tapGens ch) (nextId ch).

(** A consumer without tappers that has handed [ys] to its [for await]
    loop and still has [rest] and the sentinel in the queue. *)
Record draining (ys rest : list AgentStreamEvent) (last : AgentStreamEvent)
    (ch : Channel) : Prop := mkDraining {
  draining_iterated : iterated ch = true;
  draining_aborted : aborted (consumer ch) = false;
  draining_tappers : tappers (consumer ch) = [];
  draining_items : InMemoryQueue.items (cons_streamQueue (consumer ch)) = rest ++ [last];
  draining_open : InMemoryQueue._isClosed (cons_streamQueue (consumer ch)) = false;
  draining_pc :
    (consumeGen ch = Some (mkGenerator ConsumeStart ys)
     /\ consuming (consumer ch) = false /\ finished (consumer ch) = false)
    \/ exists event, consumeGen ch = Some (mkGenerator (ConsumeYield event) ys)
}.

(** What a store without expiring entries holds, as a finite map. *)
Definition storeView {T : Type} (s : InMemoryStore.t T) : gmap string T :=
  list_to_map ((fun kv => (fst kv, InMemoryStore.value (snd kv))) <$> s).

Definition permanent {T : Type} (s : InMemoryStore.t T) : Prop :=
  Forall (fun kv => InMemoryStore.expiresAt (snd kv) = None) s.

(** One call of [setOrUpdateTask], and several in a row on one context. *)
Record Transition : Type := mkTransition {
  tr_fresh : Fresh;
  tr_params : option AgentTaskParams;
  tr_state : TaskState;
  tr_taskId : option string
}.

Definition applyTransition (c : AgentExecutionContext) (tr : Transition)
    : AgentExecutionContext :=
  snd (setOrUpdateTask (tr_fresh tr) c (tr_params tr) (tr_state tr) (tr_taskId tr)).

Definition applyTransitions (c : AgentExecutionContext) (trs : list Transition)
    : AgentExecutionContext :=
  foldl applyTransition c trs.

Definition tr_artifacts (tr : Transition) : list Artifact :=
  default [] (tr_params tr ≫= tp_artifacts).

(** Producer calls made one after the other by an agent that awaits each
    of them and catches what they throw: a call that throws leaves the
    stream as it was. *)
Definition runCalls (s : AgentTaskStream) (calls : list (Fresh * ProducerCall))
    : AgentTaskStream :=
  foldl (fun s fc => match call (fst fc) (snd fc) s with
                     | Ok s' => s'
                     | Throw _ => s
                     end) s calls.

(** The same agent step by step: each call is run on to its end before the
    next is made. *)
Definition awaitEach (calls : list (Fresh * ProducerCall)) : list ProducerStep :=
  calls ≫= fun fc => [Invoke (fst fc) (snd fc); Continue 0; Continue 0].

(** [stream.complete({}); stream.complete({})] without [await]: both calls
    run to their first [await], then the first runs on, then the second. *)
Definition completeTwice : list ProducerStep :=
  [Invoke fresh1 (Complete emptyTaskParams); Invoke fresh1 (Complete emptyTaskParams);
   Continue 0; Continue 0].

(** [workingStream] after [context.complete({})] on its context: the task
    is completed by the context, not by the stream. *)
Definition completedByContext : AgentTaskStream :=
  mkStream (closed workingStream)
           (snd (cx_complete fresh1 (cx workingStream) emptyTaskParams None))
           (streamQueue workingStream).

(** No event of the list is the end-of-stream sentinel. *)
Definition noSentinel (events : list AgentStreamEvent) : Prop :=
  Forall (fun e => isEndOfStream e = false) events.

(** A stream nobody dequeues from, with the sentinel on its queue only if
    it is closed. *)
Definition sentinelOnlyIfClosed (s : AgentTaskStream) : Prop :=
  InMemoryQueue.pendingDequeuePromises (streamQueue s) = []
  /\ (closed s = false -> noSentinel (InMemoryQueue.items (streamQueue s))).

(** What an open queue holds after [ops], in terms of the calls made. *)
Record fifoState {T : Type} (ops : list (QueueOp T)) (st : InMemoryQueue.t T * list (nat * T))
    : Prop := mkFifo {
  fifo_answers : snd st = zip (deqs ops) (enqs ops);
  fifo_items : InMemoryQueue.items (fst st) = drop (length (deqs ops)) (enqs ops);
  fifo_pending :
    InMemoryQueue.pendingDequeuePromises (fst st) = drop (length (enqs ops)) (deqs ops);
  fifo_open : InMemoryQueue._isClosed (fst st) = false
}.

(** The state of an iterated consumer whose stream has been given the
    events [E] so far (those in the queue when the consumer was made, then
    those enqueued): what its generator has yielded, what a settled
    [dequeue] promise holds for it and what is still in the queue make up
    [E], in this order. *)
Record inOrder (E : list AgentStreamEvent) (ch : Channel) : Prop := mkInOrder {
  ord_open : InMemoryQueue._isClosed (cons_streamQueue (consumer ch)) = false;
  ord_pending :
    Forall (fun p => p < nextId ch)
           (InMemoryQueue.pendingDequeuePromises (cons_streamQueue (consumer ch)));
  ord_settled :
    Forall (fun r => fst r < nextId ch)
           (InMemoryQueue.settled (cons_streamQueue (consumer ch)));
  ord_gen : exists g,
    consumeGen ch = Some g
    /\ Forall (fun e => isEndOfStream e = false) (yielded g)
    /\ let q := cons_streamQueue (consumer ch) in
       match pc g with
       | ConsumeStart =>
           InMemoryQueue.pendingDequeuePromises q = []
           /\ yielded g ++ InMemoryQueue.items q = E
       | ConsumeYield e =>
           InMemoryQueue.pendingDequeuePromises q = []
           /\ yielded g ++ InMemoryQueue.items q = E
       | ConsumeAwait p =>
           (InMemoryQueue.pendingDequeuePromises q = [p]
            /\ InMemoryQueue.items q = []
            /\ InMemoryQueue.resolution p q = None
            /\ yielded g = E)
           \/ (exists e, InMemoryQueue.pendingDequeuePromises q = []
                 /\ InMemoryQueue.resolution p q = Some (Some e)
                 /\ yielded g ++ e :: InMemoryQueue.items q = E)
       | ConsumeDone => yielded g `prefix_of` E
       end
}.

(** The events the consumer has broadcast: those its generator has
    yielded, but the one it is suspended at. *)
Definition broadcastSoFar (ch : Channel) : list AgentStreamEvent :=
  match consumeGen ch with
  | Some g =>
      match pc g with
      | ConsumeYield _ => removelast (yielded g)
      | _ => yielded g
      end
  | None => []
  end.

(** The event a tap generator will yield when it resumes, if its promise
    has one. *)
Definition awaited (ch : Channel) (g : Generator TapPc) : list AgentStreamEvent :=
  match pc g with
  | TapAwait p =>
      match tapPromises ch !! p with
      | Some (Some e) => [e]
      | _ => []
      end
  | _ => []
  end.

(** Every tap generator has been given a subsequence of [B]. *)
Record tapsWithin (B : list AgentStreamEvent) (ch : Channel) : Prop := mkTapsWithin {
  tw_fresh : forall p, nextId ch <= p -> tapPromises ch !! p = None;
  tw_bound : forall r t p,
    tapperHeap ch !! r = Some t -> resolve t = Some p -> p < nextId ch;
  tw_taps : forall r g,
    tapGens ch !! r = Some g -> (yielded g ++ awaited ch g) `sublist_of` B
}.

(** The same in the middle of a broadcast of [e]: some have been given [e]
    already. *)
Record tapsDuring (B : list AgentStreamEvent) (e : AgentStreamEvent) (ch : Channel)
    : Prop := mkTapsDuring {
  td_fresh : forall p, nextId ch <= p -> tapPromises ch !! p = None;
  td_bound : forall r t p,
    tapperHeap ch !! r = Some t -> resolve t = Some p -> p < nextId ch;
  td_taps : forall r g,
    tapGens ch !! r = Some g ->
    (yielded g ++ awaited ch g) `sublist_of` B
    \/ (yielded g `sublist_of` B /\ awaited ch g = [e])
}.

(** The reachable states of a consumer, for its subscribers. *)
Record tapsInOrder (ch : Channel) : Prop := mkTapsInOrder {
  tio_unbuffered : unbuffered ch;
  tio_within : tapsWithin (broadcastSoFar ch) ch;
  tio_yield : forall g e,
    consumeGen ch = Some g -> pc g = ConsumeYield e -> exists ys, yielded g = ys ++ [e]
}.

(** What keeps a subscriber from waiting forever: a tap generator that
    awaits a pending promise is in the tapper set with the promise's
    [resolve] stored, and a finished consumer has no tapper left. *)
Record tapsAlive (ch : Channel) : Prop := mkTapsAlive {
  ta_wait : forall r g p,
    tapGens ch !! r = Some g -> pc g = TapAwait p ->
    is_Some (tapPromises ch !! p)
    \/ (finished (consumer ch) = false /\ r ∈ tappers (consumer ch)
        /\ exists t, tapperHeap ch !! r = Some t /\ resolve t = Some p);
  ta_member : forall r g,
    tapGens ch !! r = Some g -> pc g ≠ TapStart -> pc g ≠ TapDone ->
    finished (consumer ch) = false -> r ∈ tappers (consumer ch);
  ta_clear : finished (consumer ch) = true -> tappers (consumer ch) = []
}.

(** A consumer blocked in [await this.streamQueue.dequeue()]. *)
Record waiting (g : Generator ConsumePc) (p : nat) (ch : Channel) : Prop := mkWaiting {
  wt_gen : consumeGen ch = Some g;
  wt_pc : pc g = ConsumeAwait p;
  wt_iterated : iterated ch = true;
  wt_finished : finished (consumer ch) = false;
  wt_open : InMemoryQueue._isClosed (cons_streamQueue (consumer ch)) = false;
  wt_items : InMemoryQueue.items (cons_streamQueue (consumer ch)) = [];
  wt_pending : InMemoryQueue.pendingDequeuePromises (cons_streamQueue (consumer ch)) = [p];
  wt_unresolved : InMemoryQueue.resolution p (cons_streamQueue (consumer ch)) = None
}.

(** [liveChannel] once its loop has asked for the first event. *)
Definition waitingChannel : Channel := run liveChannel [ConsumeNext].

(** The [id] member of a response. *)
Definition responseId (response : JSONRPCResponse) : RequestId :=
  match response with
  | Success id _ => id
  | Failure id _ => id
  end.

(** Everything a handler's answer puts on the wire once the channels are
    in state [m]. *)
Definition wireFrames (hr : HandlerResponse) (m : gmap string Channel)
    : list JSONRPCResponse :=
  match hr with
  | Response response => [response]
  | Stream stream => streamFrames stream m
  end.

(** The task a well-formed request of a registered method addresses, if
    it addresses one. *)
Definition addressedTask (request : JSONRPCRequest) : option string :=
  match params request with
  | SendParams message =>
      if bool_decide (method request ∈ ["message/send"; "message/stream"])
      then truthy (msg_taskId message) else None
  | IdParams id =>
      if bool_decide (method request ∈
           ["tasks/cancel"; "tasks/pushNotificationConfig/get"; "tasks/resubscribe"])
      then Some id else None
  | PushParams taskId _ =>
      if bool_decide (method request = "tasks/pushNotificationConfig/set")
      then Some taskId else None
  | NoParams => None
  end.

(** The handler a started server has for a method name. *)
Definition route (exec : IAgentExecutor) (uuid : string) (m : string) : option Handler :=
  if decide (m = "tasks/resubscribe")
  then Some (streaming _handleTaskResubscribe)
  else if decide (m = "tasks/pushNotificationConfig/get")
  then Some (single _handleTaskPushNotificationGet)
  else if decide (m = "tasks/pushNotificationConfig/set")
  then Some (single _handleTaskPushNotificationSet)
  else if decide (m = "tasks/cancel")
  then Some (single (_handleTaskCancel exec))
  else if decide (m = "message/stream")
  then Some (streaming (_handleMessageStream exec uuid))
  else if decide (m = "message/send")
  then Some (single (_handleMessageSend exec uuid))
  else None.

(** An agent that answers every message with a completed Task, and the
    Task it returns for [sendHi]. *)
Definition taskAgent : IAgentExecutor :=
  mkExecutor (fun c => Returned (TaskResult (fst (cx_complete fresh0 c emptyTaskParams None))))
             (fun t => Returned (inl t)).

Definition completedTask : Task :=
  Eval vm_compute in
    fst (cx_complete fresh0 (newContext "uuid-context-0" None None None None)
           emptyTaskParams None).

(** One turn of the [for await] loop over [consume()]: the awaited
    [dequeue] promise, if it has a value, lets the generator go on, and
    the loop asks for the next event. *)
Definition turn : list Action := [ConsumeResume; ConsumeNext].

Definition turns (n : nat) : list Action := concat (replicate n turn).

(** An iterated consumer that has not been aborted: it has not returned
    unless it met the sentinel. *)
Record live (E : list AgentStreamEvent) (ch : Channel) : Prop := mkLive {
  lv_order : inOrder E ch;
  lv_iterated : iterated ch = true;
  lv_aborted : aborted (consumer ch) = false;
  lv_start : forall g, consumeGen ch = Some g -> pc g = ConsumeStart ->
    consuming (consumer ch) = false /\ finished (consumer ch) = false;
  lv_done : forall g, consumeGen ch = Some g -> pc g = ConsumeDone ->
    finished (consumer ch) = true
    /\ exists e rest, isEndOfStream e = true /\ E = yielded g ++ e :: rest
}.

(** No [Abort] among the actions. *)
Definition unaborted (trace : list Action) : Prop :=
  Forall (fun a => a ≠ Abort) trace.

(** A tap generator made on a consumer that has finished: it has yielded
    nothing and has not entered its loop. *)
Record silent (r : nat) (ch : Channel) : Prop := mkSilent {
  sl_finished : finished (consumer ch) = true;
  sl_id : r < nextId ch;
  sl_gen : exists g, tapGens ch !! r = Some g /\ yielded g = []
                     /\ (pc g = TapStart \/ pc g = TapDone)
}.

(** [liveChannel] once its stream has ended. *)
Definition finishedChannel : Channel :=
  run liveChannel (twoTappers ++ firstEvent ++ secondEvent).

(** * Properties *)

(** ** In-memory queue *)

Section QueueFacts.
Context {T : Type}.
Implicit Types (q : InMemoryQueue.t T) (x : T).

Lemma resolveLoop_no_items pending (done : list (nat * option T)) :
  InMemoryQueue.resolveLoop pending (@nil T) done = (pending, [], done).
Proof. by destruct pending. Qed.

Lemma resolveLoop_no_waiter (its : list T) (done : list (nat * option T)) :
  InMemoryQueue.resolveLoop [] its done = ([], its, done).
Proof. done. Qed.

(** With no blocked [dequeue], [enqueue] appends the item. *)
Lemma enqueue_no_waiter q x :
  InMemoryQueue.pendingDequeuePromises q = [] ->
  InMemoryQueue.enqueue x q =
  InMemoryQueue.mk (InMemoryQueue.items q ++ [x]) (InMemoryQueue._isClosed q) []
                   (InMemoryQueue.settled q).
Proof.
  intros Hp. unfold InMemoryQueue.enqueue, InMemoryQueue.resolvePendingPromises.
  cbn. by rewrite Hp.
Qed.

Lemma enqueueAll_no_waiter (xs : list T) q :
  InMemoryQueue.pendingDequeuePromises q = [] ->
  InMemoryQueue.enqueueAll xs q =
  InMemoryQueue.mk (InMemoryQueue.items q ++ xs) (InMemoryQueue._isClosed q) []
                   (InMemoryQueue.settled q).
Proof.
  revert q. induction xs as [|x xs IH]; intros q Hp.
  - destruct q; cbn in *. by rewrite Hp, app_nil_r.
  - change (InMemoryQueue.enqueueAll (x :: xs) q)
      with (InMemoryQueue.enqueueAll xs (InMemoryQueue.enqueue x q)).
    rewrite (enqueue_no_waiter q x Hp), IH by done.
    cbn. by rewrite <- app_assoc.
Qed.

(** [close()] resolves every blocked [dequeue], in order, with [undefined],
    and leaves nothing behind. *)
Lemma close_resolves_waiters q :
  InMemoryQueue.settled (InMemoryQueue.close q) =
    InMemoryQueue.settled q ++
    map (fun p => (p, None)) (InMemoryQueue.pendingDequeuePromises q)
  /\ InMemoryQueue.pendingDequeuePromises (InMemoryQueue.close q) = []
  /\ InMemoryQueue.items (InMemoryQueue.close q) = []
  /\ InMemoryQueue._isClosed (InMemoryQueue.close q) = true.
Proof. done. Qed.

(** A second [close()] changes nothing. *)
Lemma close_idempotent q :
  InMemoryQueue.close (InMemoryQueue.close q) = InMemoryQueue.close q.
Proof. unfold InMemoryQueue.close. cbn. by rewrite app_nil_r. Qed.

(** A closed queue hands out nothing: [dequeue] answers [undefined] at once
    and registers no waiter. *)
Lemma dequeue_closed p q :
  InMemoryQueue._isClosed q = true ->
  InMemoryQueue.dequeue p q = (InMemoryQueue.Now None, q).
Proof. intros Hc. unfold InMemoryQueue.dequeue. by rewrite Hc. Qed.

(** C4 (the code departs from the claim).  [enqueue] does not look at
    [_isClosed]: an item enqueued after [close()] is pushed on [items] and
    stays there, where [size], [isEmpty] and [peek] see it; only [dequeue]
    refuses to hand it out. *)
Theorem enqueue_after_close_keeps_item q x :
  let q' := InMemoryQueue.enqueue x (InMemoryQueue.close q) in
  InMemoryQueue.items q' = [x]
  /\ InMemoryQueue.size q' = 1
  /\ InMemoryQueue.isEmpty q' = false
  /\ InMemoryQueue.peek q' = Some x
  /\ InMemoryQueue._isClosed q' = true
  /\ (forall p, InMemoryQueue.dequeue p q' = (InMemoryQueue.Now None, q')).
Proof.
  cbn zeta. rewrite enqueue_no_waiter by done. cbn.
  repeat split; try done.
Qed.

End QueueFacts.

(** ** Execution context *)

(** C2, as stated, fails: a message made in a context that has a current
    task carries no [taskId]. *)
Lemma message_taskId_counterexample :
  ~ (forall fr cx params messageId,
        let m := message fr cx params messageId in
        msg_role m = agent /\ msg_contextId m = Some (cx_id cx)
        /\ msg_taskId m = task_id <$> currentTask cx).
Proof.
  intros H. specialize (H fresh0 resumedContext hello None).
  cbn in H. destruct H as (_ & _ & H). discriminate H.
Qed.

(** C2 (amended).  [context.message(params)] returns a message of role
    agent whose [contextId] is the context's id and which has no [taskId],
    whether or not the context has a current task. *)
Theorem message_inherits_context fr cx params :
  let m := message fr cx params None in
  msg_role m = agent
  /\ msg_contextId m = Some (cx_id cx)
  /\ msg_taskId m = None
  /\ msg_parts m = mp_parts params
  /\ msg_metadata m = mp_metadata params.
Proof. done. Qed.

(** What the second argument of [message] does: it becomes the [taskId],
    and the [messageId] is a new uuid. *)
Lemma message_second_argument fr cx params (given : string) :
  msg_taskId (message fr cx params (Some given)) = truthy (Some given)
  /\ messageId (message fr cx params (Some given)) = uuid_message fr.
Proof. done. Qed.


(** C3, as stated, fails: a transition whose params carry no message keeps
    the status message of the previous status. *)
Lemma status_replaced_counterexample :
  ~ (forall fr cx taskParams taskState taskId,
        status (fst (setOrUpdateTask fr cx taskParams taskState taskId)) =
        mkTaskStatus taskState (Some (now fr)) (materialized fr cx taskParams taskId)).
Proof.
  intros H.
  specialize (H fresh0 resumedContext (Some emptyTaskParams) working None).
  cbn in H. discriminate H.
Qed.

(** C3 (amended).  After [setOrUpdateTask] the status has the new state and
    a new timestamp; its message is the one materialized from the params
    when they carry one, and otherwise the message of the previous status,
    if there was one. *)
Theorem setOrUpdateTask_status fr cx taskParams taskState taskId :
  let task := fst (setOrUpdateTask fr cx taskParams taskState taskId) in
  state (status task) = taskState
  /\ timestamp (status task) = Some (now fr)
  /\ status_message (status task) =
     match materialized fr cx taskParams taskId with
     | Some m => Some m
     | None => currentTask cx ≫= fun t => status_message (status t)
     end
  /\ currentTask (snd (setOrUpdateTask fr cx taskParams taskState taskId)) = Some task.
Proof.
  cbn. unfold materialized, spread.
  repeat split.
  destruct (taskParams ≫= tp_message); cbn; [done|].
  by destruct (currentTask cx).
Qed.

(** The artifacts of the context's current task, [[]] when there is none. *)
Lemma setOrUpdateTask_artifacts fr cx taskParams taskState taskId :
  artifacts (fst (setOrUpdateTask fr cx taskParams taskState taskId)) =
  Some (default [] (currentTask cx ≫= artifacts)
        ++ default [] (taskParams ≫= tp_artifacts)).
Proof. done. Qed.

(** C8, as stated, fails: the artifacts the task already had come first. *)
Lemma artifact_merge_counterexample :
  ~ (forall fr1 fr2 cx A B st1 st2 id1 id2,
        let cx1 := snd (setOrUpdateTask fr1 cx (Some (mkTaskParams (Some A) None None)) st1 id1) in
        let cx2 := snd (setOrUpdateTask fr2 cx1 (Some (mkTaskParams (Some B) None None)) st2 id2) in
        currentTask cx2 ≫= artifacts = Some (A ++ B)).
Proof.
  intros H.
  specialize (H fresh0 fresh1 resumedContext [art "a1" "one"] [art "a2" "two"]
                working completed None None).
  cbn in H. discriminate H.
Qed.

(** C8 (amended).  After two [setOrUpdateTask] calls with artifact lists
    [A] and [B] the task's artifacts are [E ++ A ++ B], [E] being the
    artifacts of the current task before the first call ([[]] when the
    context had no task, or the task no artifacts). *)
Theorem artifact_merge fr1 fr2 cx (A B : list Artifact) m1 m2 md1 md2 st1 st2 id1 id2 :
  let E := default [] (currentTask cx ≫= artifacts) in
  let cx1 := snd (setOrUpdateTask fr1 cx (Some (mkTaskParams (Some A) m1 md1)) st1 id1) in
  let cx2 := snd (setOrUpdateTask fr2 cx1 (Some (mkTaskParams (Some B) m2 md2)) st2 id2) in
  currentTask cx2 ≫= artifacts = Some (E ++ A ++ B).
Proof.
  cbn. unfold _mergeArtifacts. cbn. by rewrite <- app_assoc.
Qed.

(** On a context without a task the result is [A ++ B]. *)
Lemma artifact_merge_fresh fr1 fr2 ctxId refs (A B : list Artifact) st1 st2 id1 id2 :
  let cx := mkContext ctxId None refs in
  let cx1 := snd (setOrUpdateTask fr1 cx (Some (mkTaskParams (Some A) None None)) st1 id1) in
  let cx2 := snd (setOrUpdateTask fr2 cx1 (Some (mkTaskParams (Some B) None None)) st2 id2) in
  currentTask cx2 ≫= artifacts = Some (A ++ B).
Proof. done. Qed.

(** ** Task stream *)

Lemma terminate_working s task :
  currentTask (cx s) = Some task -> state (status task) = working ->
  _terminateIfPendingOrFinalState s = s.
Proof.
  intros Ht Hs. unfold _terminateIfPendingOrFinalState. by rewrite Ht, Hs.
Qed.

(** C7, as stated, fails: with [sendTaskStatusUpdate = false] a task that
    is not yet working is moved to working without a status-update. *)
Lemma writeArtifact_status_counterexample :
  exists s',
    writeArtifact fresh1 chunk (Some false) submittedStream = Ok s'
    /\ (currentTask (cx submittedStream) ≫= fun t => Some (state (status t))) = Some submitted
    /\ InMemoryQueue.items (streamQueue s') =
         [ArtifactUpdate "task-1" "ctx-1" (art "a1" "one") false false None]
    /\ ~ (exists su au, isStatusUpdate su = true /\
            streamQueue s' =
            InMemoryQueue.enqueueAll [su; au] (streamQueue submittedStream)).
Proof.
  eexists. split; [reflexivity|]. split; [reflexivity|]. split; [reflexivity|].
  intros (su & au & _ & H).
  apply (f_equal (fun q => length (InMemoryQueue.items q))) in H.
  cbn in H. discriminate H.
Qed.

(** C7 (amended).  A successful [writeArtifact] enqueues exactly one
    artifact-update; a status-update (for the task moved to working) is
    enqueued just before it if and only if the task was not already working
    and [sendTaskStatusUpdate] is true, as it is by default. *)
Theorem writeArtifact_events fr params send s s' :
  writeArtifact fr params send s = Ok s' ->
  exists task,
    currentTask (cx s) = Some task /\ closed s = false /\
    let moved := fst (setOrUpdateTask fr (cx s) (Some emptyTaskParams) working None) in
    let before :=
      if bool_decide (state (status task) ≠ working) && default true send
      then [StatusUpdate (task_id moved) (task_contextId moved) (status moved) false]
      else [] in
    streamQueue s' =
      InMemoryQueue.enqueueAll
        (before ++ [ArtifactUpdate (task_id task) (cx_id (cx s)) (ap_artifact params)
                      (default false (ap_append params))
                      (default false (ap_lastChunk params))
                      (art_metadata (ap_artifact params))])
        (streamQueue s)
    /\ closed s' = false.
Proof.
  unfold writeArtifact, _ensureOpen. destruct (closed s) eqn:Hc; [done|]. cbn.
  destruct (currentTask (cx s)) as [task|] eqn:Ht; [|done].
  intros [= <-]. exists task. split; [done|]. split; [done|]. cbn zeta.
  case_bool_decide as Hw; cbn [andb].
  - destruct (default true send).
    + rewrite (terminate_working _ (fst (setOrUpdateTask fr (cx s) (Some emptyTaskParams)
                                          working None))); done.
    + rewrite (terminate_working _ (fst (setOrUpdateTask fr (cx s) (Some emptyTaskParams)
                                          working None))); cbn; by rewrite ?Hc.
  - rewrite (terminate_working _ task); cbn; by rewrite ?Hc.
Qed.

Lemma writeArtifact_events_witness :
  writeArtifact fresh1 chunk None submittedStream = Ok workingStream /\
  InMemoryQueue.items (streamQueue workingStream) =
    [StatusUpdate "task-1" "ctx-1"
       (mkTaskStatus working (Some (now fresh1)) (Some howMany)) false;
     ArtifactUpdate "task-1" "ctx-1" (art "a1" "one") false false None].
Proof.
  split; [reflexivity|].
  destruct (writeArtifact_events fresh1 chunk None submittedStream workingStream eq_refl)
    as (task & Ht & _ & Hq & _).
  cbn in Ht. injection Ht as <-. rewrite Hq. reflexivity.
Defined.

(** Every producer operation starts with [_ensureOpen]. *)
Lemma call_closed fr c s :
  closed s = true -> call fr c s = Throw alreadyTerminated.
Proof.
  intros Hc.
  destruct c; cbn;
    unfold writeArtifact, start, reject, authRequired, inputRequired, complete,
           transition, _ensureOpen;
    by rewrite Hc.
Qed.

(** The terminate check closes the stream exactly when it leaves the task
    in a terminal or pending state. *)
Lemma terminate_check_closes s :
  terminated (_terminateIfPendingOrFinalState s) ->
  closed (_terminateIfPendingOrFinalState s) = true.
Proof.
  unfold terminated, _terminateIfPendingOrFinalState.
  destruct (currentTask (cx s)) as [task|] eqn:Ht.
  - destruct (isPendingTaskState (state (status task))) eqn:Hp;
      destruct (isFinalTaskState (state (status task))) eqn:Hf; cbn; try done.
    intros (task' & Ht' & H). rewrite Ht in Ht'. injection Ht' as <-.
    by rewrite Hp, Hf in H.
  - intros (task' & Ht' & _). by rewrite Ht in Ht'.
Qed.


Lemma call_ends_with_check fr c s s' :
  call fr c s = Ok s' -> exists s0, s' = _terminateIfPendingOrFinalState s0.
Proof.
  destruct c; unfold call, writeArtifact, start, reject, authRequired, inputRequired,
    complete, transition, _ensureOpen, mbind, Result_bind;
    destruct (closed s); try done;
    try (destruct (currentTask (cx s)); [|done]);
    intros H; injection H as <-; eexists; reflexivity.
Qed.

Lemma transition_state st fr taskParams s s' :
  transition st fr taskParams s = Ok s' ->
  exists task, currentTask (cx s') = Some task /\ state (status task) = st.
Proof.
  unfold transition, _ensureOpen. destruct (closed s); [done|]. cbn.
  intros [= <-]. unfold _terminateIfPendingOrFinalState. cbn.
  destruct (_ || _); cbn; eauto.
Qed.

(** [complete] leaves the stream terminated. *)
Lemma complete_terminates fr taskParams s s' :
  complete fr taskParams s = Ok s' -> terminated s'.
Proof.
  intros H. destruct (transition_state _ _ _ _ _ H) as (task & Ht & Hs).
  exists task. by rewrite Hs.
Qed.

(** An awaited call, cut at its awaits and run on with nothing in between,
    is the call run in one go. *)
Lemma call_awaited fr c s : callAwaited fr c s = call fr c s.
Proof.
  destruct c; unfold callAwaited, callHead, call, writeArtifactHead, writeArtifact,
    startHead, start, reject, authRequired, inputRequired, complete, transitionHead,
    transition, _ensureOpen, mbind, Result_bind;
    destruct (closed s); try done;
    try (destruct (currentTask (cx s)) as [task|]; [|done]);
    try (destruct (bool_decide _); [|done]);
    try (destruct (default true sendTaskStatusUpdate));
    done.
Qed.

(** On a closed stream a call throws before it does anything. *)
Lemma callHead_closed fr c s :
  closed s = true -> callHead fr c s = Throw alreadyTerminated.
Proof.
  intros Hc.
  destruct c; cbn; unfold writeArtifactHead, startHead, transitionHead, _ensureOpen;
    by rewrite Hc.
Qed.

Lemma terminate_cx s : cx (_terminateIfPendingOrFinalState s) = cx s.
Proof.
  unfold _terminateIfPendingOrFinalState.
  destruct (currentTask (cx s)); [|done]. by destruct (_ || _).
Qed.

(** What runs after an [await] never touches the task and never reopens
    the stream. *)
Lemma resume_cx k s : cx (fst (resume k s)) = cx s.
Proof. destruct k; cbn; [done|apply terminate_cx]. Qed.

Lemma terminate_keeps_closed s :
  closed s = true -> closed (_terminateIfPendingOrFinalState s) = true.
Proof.
  intros Hc. unfold _terminateIfPendingOrFinalState.
  destruct (currentTask (cx s)); [|done]. by destruct (_ || _).
Qed.

Lemma resume_closed k s :
  closed s = true -> closed (fst (resume k s)) = true.
Proof. destruct k; cbn; [done|apply terminate_keeps_closed]. Qed.

Lemma producerStep_closed P a :
  closed (prod_stream P) = true -> closed (prod_stream (producerStep P a)) = true.
Proof.
  intros Hc. destruct a as [fr c|i]; cbn.
  - by rewrite (callHead_closed fr c _ Hc).
  - destruct (inFlight P !! i) as [k|]; [|done].
    pose proof (resume_closed k _ Hc) as Hk.
    destruct (resume k (prod_stream P)) as [s' [k'|]]; done.
Qed.

(** A closed stream stays closed, whatever the agent does next. *)
Lemma runProducer_closed steps : forall P,
  closed (prod_stream P) = true -> closed (prod_stream (runProducer P steps)) = true.
Proof.
  induction steps as [|a steps IH]; intros P Hc; [done|].
  apply IH. by apply producerStep_closed.
Qed.

(** C9, as stated, fails for calls that are not awaited: of two [complete]
    calls made in a row the second passes [_ensureOpen] although the first
    has made the task completed; both enqueue their status-update and both
    enqueue the sentinel.  It fails too for a task completed through the
    context: the stream is still open and [writeArtifact] goes through. *)
Lemma complete_twice_counterexample :
  let P := runProducer (newProducer workingStream) completeTwice in
  (exists s1 k,
      callHead fresh1 (Complete emptyTaskParams) workingStream = Ok (s1, k)
      /\ terminated s1
      /\ callHead fresh1 (Complete emptyTaskParams) s1 ≠ Throw alreadyTerminated)
  /\ outcomes P = [None; None]
  /\ InMemoryQueue.items (streamQueue (prod_stream P)) =
       InMemoryQueue.items (streamQueue workingStream) ++
       [StatusUpdate "task-1" "ctx-1"
          (mkTaskStatus completed (Some (now fresh1)) (Some howMany)) true;
        StatusUpdate "task-1" "ctx-1"
          (mkTaskStatus completed (Some (now fresh1)) (Some howMany)) true;
        EndOfStream (Some "task-1") (Some "ctx-1");
        EndOfStream (Some "task-1") (Some "ctx-1")]
  /\ terminated completedByContext
  /\ exists s2 k, callHead fresh1 (WriteArtifact chunk None) completedByContext = Ok (s2, k).
Proof.
  cbn zeta. split.
  { eexists _, _. split; [reflexivity|]. split.
    - eexists. split; [reflexivity|]. reflexivity.
    - discriminate. }
  split; [reflexivity|]. split; [reflexivity|]. split.
  - eexists. split; [reflexivity|]. reflexivity.
  - eexists _, _. reflexivity.
Qed.

(** C9 (amended).  After a [complete] that was awaited, and more generally
    after any awaited producer call that has left the task in a terminal
    or pending state, every producer call on the stream throws "Task stream
    already terminated." before it does anything, whatever else the agent
    has done on the stream since. *)
Theorem producer_call_after_termination
    (fr fr' : Fresh) (taskParams : AgentTaskParams) (c c' : ProducerCall)
    (s s' : AgentTaskStream) (underWay : list Suspended) (log : list (option string))
    (steps : list ProducerStep) :
  let later := prod_stream (runProducer (mkProducer s' underWay log) steps) in
  (callAwaited fr (Complete taskParams) s = Ok s' ->
   callHead fr' c' later = Throw alreadyTerminated)
  /\ (callAwaited fr c s = Ok s' -> terminated s' ->
      callHead fr' c' later = Throw alreadyTerminated).
Proof.
  cbn zeta.
  assert (forall c0, callAwaited fr c0 s = Ok s' -> terminated s' ->
            callHead fr' c'
              (prod_stream (runProducer (mkProducer s' underWay log) steps)) =
            Throw alreadyTerminated) as Hgen.
  { intros c0 Hcall Hterm. apply callHead_closed, runProducer_closed. cbn.
    rewrite call_awaited in Hcall.
    destruct (call_ends_with_check _ _ _ _ Hcall) as (s0 & ->).
    by apply terminate_check_closes. }
  split.
  - intros Hc. apply (Hgen (Complete taskParams)); [exact Hc|].
    rewrite call_awaited in Hc. by eapply complete_terminates.
  - apply Hgen.
Qed.

Lemma producer_call_after_termination_witness :
  callAwaited fresh1 (Complete emptyTaskParams) workingStream = Ok completedStream
  /\ callHead fresh1 (Complete emptyTaskParams) completedStream = Throw alreadyTerminated
  /\ callHead fresh1 (WriteArtifact chunk None)
       (prod_stream (runProducer (newProducer completedStream)
                       [Invoke fresh1 (Start emptyTaskParams); Continue 0])) =
     Throw alreadyTerminated.
Proof.
  split; [reflexivity|]. split.
  - apply (proj1 (producer_call_after_termination fresh1 fresh1 emptyTaskParams
                    (Complete emptyTaskParams) (Complete emptyTaskParams)
                    workingStream completedStream [] [] [])).
    reflexivity.
  - apply (proj2 (producer_call_after_termination fresh1 fresh1 emptyTaskParams
                    (Complete emptyTaskParams) (WriteArtifact chunk None)
                    workingStream completedStream [] []
                    [Invoke fresh1 (Start emptyTaskParams); Continue 0])).
    + reflexivity.
    + eexists. split; [reflexivity|]. reflexivity.
Defined.

(** ** Task stream consumer *)

Lemma idle_tapLoop r g ch :
  idle ch -> yielded g = [] ->
  idle (tapLoop r g ch)
  /\ cons_streamQueue (consumer (tapLoop r g ch)) = cons_streamQueue (consumer ch).
Proof.
  intros [Hi Hg Hf Hc Hp Hy Hb] Hyg. unfold tapLoop. rewrite Hf.
  destruct (tapperHeap ch !! r) as [t|] eqn:Ht; [|by split].
  rewrite (Hb _ _ Ht). cbn. split; [|done].
  split; cbn; try done.
  - intros r' g'. destruct (decide (r = r')) as [<-|Hne].
    + rewrite lookup_insert_eq. by intros [= <-].
    + rewrite lookup_insert_ne by done. apply Hy.
  - intros r' t'. destruct (decide (r = r')) as [<-|Hne].
    + rewrite lookup_insert_eq. by intros [= <-].
    + rewrite lookup_insert_ne by done. apply Hb.
Qed.

Lemma idle_step ch a :
  idle ch ->
  idle (step ch a)
  /\ cons_streamQueue (consumer (step ch a)) =
     InMemoryQueue.enqueueAll (enqueued [a]) (cons_streamQueue (consumer ch)).
Proof.
  intros Hidle. pose proof Hidle as [Hi Hg Hf Hc Hp Hy Hb].
  destruct a as [event| | | | |r|r]; cbn.
  - split; [|done]. by split.
  - split; [|done]. by split.
  - by rewrite Hi.
  - unfold consumeResume. by rewrite Hg.
  - split; [|done]. split; cbn; try done.
    + intros r g. destruct (decide (nextId ch = r)) as [<-|Hne].
      * rewrite lookup_insert_eq. by intros [= <-].
      * rewrite lookup_insert_ne by done. apply Hy.
  - unfold tapNext. destruct (tapGens ch !! r) as [g|] eqn:Hgr; [|done].
    pose proof (Hy _ _ Hgr) as Hyg.
    destruct (pc g); try done.
    + match goal with |- idle (tapLoop r g ?c) /\ _ =>
        destruct (idle_tapLoop r g c) as [H1 H2]; [|done|by split] end.
      split; cbn; try done.
      intros r' t'. destruct (decide (r = r')) as [<-|Hne].
      * rewrite lookup_insert_eq. by intros [= <-].
      * rewrite lookup_insert_ne by done. apply Hb.
    + by apply idle_tapLoop.
  - unfold tapResume. destruct (tapGens ch !! r) as [g|]; [|done].
    destruct (pc g); try done. by rewrite Hp, lookup_empty.
Qed.

Lemma enqueued_app t1 t2 : enqueued (t1 ++ t2) = enqueued t1 ++ enqueued t2.
Proof. apply omap_app. Qed.

Lemma enqueueAll_app {T} (xs ys : list T) q :
  InMemoryQueue.enqueueAll (xs ++ ys) q =
  InMemoryQueue.enqueueAll ys (InMemoryQueue.enqueueAll xs q).
Proof. apply foldl_app. Qed.

(** However the producer, the abort signal and the subscribers go on, an
    idle channel stays idle and its queue only takes in what is enqueued. *)
Lemma idle_run trace : forall ch,
  idle ch ->
  idle (run ch trace)
  /\ cons_streamQueue (consumer (run ch trace)) =
     InMemoryQueue.enqueueAll (enqueued trace) (cons_streamQueue (consumer ch)).
Proof.
  induction trace as [|a trace IH]; intros ch Hidle; [done|].
  destruct (idle_step ch a Hidle) as [H1 H2].
  destruct (IH _ H1) as [H3 H4].
  split; [exact H3|].
  change (run ch (a :: trace)) with (run (step ch a) trace).
  rewrite H4, H2. change (a :: trace) with ([a] ++ trace).
  by rewrite enqueued_app, enqueueAll_app.
Qed.

Lemma idle_new ts abortSignal : idle (consume (newConsumer ts abortSignal)).
Proof. split; cbn; try done; intros ? ?; by rewrite lookup_empty. Qed.

(** C1 (the code departs from the claim).  [_handleMessageSend] registers a
    consumer and calls [consume()], but lets the generator go without ever
    calling [next()] on it, so the body of [consume()] never runs.  Whatever
    the producer, the abort signal and later subscribers do, nothing is
    dequeued: the queue holds every event enqueued (the sentinel too), the
    consumer neither starts nor finishes, and no tapper is woken. *)
Theorem message_send_consumer_never_runs
    (exec : IAgentExecutor) (uuid : string) (request : JSONRPCRequest)
    (abortSignal : option bool) (st : ServerState) (r : StreamResult) (t : Task) :
  _handleMessage exec uuid request st = Returned (StreamRes r) ->
  getTask (taskStream r) = Ok t ->
  task_id t = task_id (sr_currentTask r) ->
  task_contextId t = task_contextId (sr_currentTask r) ->
  _taskStreamManager st !! task_id t = None ->
  fst (_handleMessageSend exec uuid request abortSignal st) =
    Success (req_id request) (ResultTask (sr_currentTask r))
  /\ exists ch,
      _taskStreamManager (snd (_handleMessageSend exec uuid request abortSignal st))
        !! task_id t = Some ch
      /\ cons_streamQueue (consumer ch) = streamQueue (taskStream r)
      /\ forall trace,
          let ch' := run ch trace in
          finished (consumer ch') = false
          /\ consuming (consumer ch') = false
          /\ primaryReceived ch' = []
          /\ cons_streamQueue (consumer ch') =
             InMemoryQueue.enqueueAll (enqueued trace) (streamQueue (taskStream r))
          /\ tapPromises ch' = ∅
          /\ forall tapper, received tapper ch' = [].
Proof.
  intros Hres Htask Hid Hctx Hnone.
  unfold _handleMessageSend. rewrite Hres, Htask.
  rewrite bool_decide_eq_false_2 by (intros H; by apply H).
  rewrite bool_decide_eq_false_2 by (intros H; by apply H).
  cbn [orb]. unfold getConsumer, createConsumer. rewrite Hnone, Htask. cbn.
  rewrite Hnone. cbn. split; [done|].
  exists (consume (newConsumer (taskStream r) abortSignal)).
  split; [by rewrite lookup_alter_eq, lookup_insert_eq|].
  split; [done|]. intros trace.
  destruct (idle_run trace _ (idle_new (taskStream r) abortSignal)) as [Hidle Hq].
  destruct Hidle as [Hi Hg Hf Hc Hp Hy Hb]. cbn zeta.
  repeat split; try done.
  - unfold primaryReceived. by rewrite Hg.
  - intros tapper. unfold received.
    destruct (tapGens _ !! tapper) eqn:Ht; [by eapply Hy|done].
Qed.

Lemma message_send_consumer_never_runs_witness :
  exists ch,
    _taskStreamManager (snd (_handleMessageSend streamingAgent "uuid-context-0" sendHi
                               None emptyState)) !! "uuid-task-0" = Some ch
    /\ let ch' := run ch [Enqueue (artifactEvent "a1" "one"); Tap; TapNext 0;
                          Enqueue sentinel; ConsumeNext; ConsumeResume; TapResume 0] in
       finished (consumer ch') = false
       /\ InMemoryQueue.items (cons_streamQueue (consumer ch')) =
          [artifactEvent "a1" "one"; sentinel]
       /\ received 0 ch' = [].
Proof.
  destruct (message_send_consumer_never_runs streamingAgent "uuid-context-0" sendHi None
              emptyState sendHiResult (sr_currentTask sendHiResult))
    as (_ & ch & Hch & _ & Hrun); try reflexivity.
  exists ch. split; [exact Hch|].
  destruct (Hrun [Enqueue (artifactEvent "a1" "one"); Tap; TapNext 0;
                  Enqueue sentinel; ConsumeNext; ConsumeResume; TapResume 0])
    as (Hf & _ & _ & Hq & _ & Hr).
  cbn zeta. rewrite Hq. split; [exact Hf|]. split; [reflexivity|apply Hr].
Defined.

(** A [resolve] callback stored by a tapper that has been called once is
    still stored; calling it again does nothing, and the event is not
    buffered either: this tapper does not get the event. *)
Lemma broadcastTo_settled event ch r t p :
  tapperHeap ch !! r = Some t -> resolve t = Some p ->
  is_Some (tapPromises ch !! p) ->
  broadcastTo event ch r = ch.
Proof.
  intros Ht Hr [v Hv]. unfold broadcastTo, callResolve. by rewrite Ht, Hr, Hv.
Qed.

Lemma callResolve_fields p v ch :
  tapperHeap (callResolve p v ch) = tapperHeap ch
  /\ consumer (callResolve p v ch) = consumer ch
  /\ consumeGen (callResolve p v ch) = consumeGen ch
  /\ tapGens (callResolve p v ch) = tapGens ch.
Proof. unfold callResolve. by destruct (tapPromises ch !! p). Qed.

Lemma unbuffered_callResolve p v ch : unbuffered ch -> unbuffered (callResolve p v ch).
Proof.
  intros [Hq Hr]. destruct (callResolve_fields p v ch) as (Hh & Hc & _).
  split; rewrite ?Hh, ?Hc; done.
Qed.

Lemma broadcast_fold event (rs : list nat) : forall ch,
  unbuffered ch -> (forall r, r ∈ rs -> r ∈ tappers (consumer ch)) ->
  unbuffered (foldl (broadcastTo event) ch rs)
  /\ consumer (foldl (broadcastTo event) ch rs) = consumer ch
  /\ consumeGen (foldl (broadcastTo event) ch rs) = consumeGen ch.
Proof.
  induction rs as [|r rs IH]; intros ch Hu Hin; [done|]. cbn.
  destruct (unbuffered_resolve _ Hu r) as (t & p & Ht & Hp); [apply Hin; left|].
  assert (broadcastTo event ch r = callResolve p (Some event) ch) as ->.
  { unfold broadcastTo. by rewrite Ht, Hp. }
  destruct (callResolve_fields p (Some event) ch) as (Hh & Hc & Hg & _).
  destruct (IH (callResolve p (Some event) ch)) as (H1 & H2 & H3).
  - by apply unbuffered_callResolve.
  - intros r' Hr'. rewrite Hc. apply Hin. by right.
  - split; [done|]. by rewrite H2, H3, Hc, Hg.
Qed.

Lemma notify_fold (rs : list nat) : forall ch,
  unbuffered ch ->
  unbuffered (foldl notifyEnd ch rs)
  /\ consumer (foldl notifyEnd ch rs) = consumer ch.
Proof.
  induction rs as [|r rs IH]; intros ch Hu; [done|]. cbn.
  assert (unbuffered (notifyEnd ch r) /\ consumer (notifyEnd ch r) = consumer ch) as [H1 H2].
  { unfold notifyEnd. destruct (tapperHeap ch !! r) as [t|]; [|done].
    destruct (resolve t) as [p|]; [|done].
    split; [by apply unbuffered_callResolve|apply callResolve_fields]. }
  destruct (IH _ H1) as [H3 H4]. split; [done|]. by rewrite H4.
Qed.

Lemma unbuffered_consumeFinally g ch : unbuffered ch -> unbuffered (consumeFinally g ch).
Proof.
  intros Hu. unfold consumeFinally.
  destruct (notify_fold (tappers (consumer ch)) ch Hu) as [[Hq Hr] Hc].
  split; cbn; [exact Hq|]. intros r Hin. by apply elem_of_nil in Hin.
Qed.

Lemma unbuffered_consumeLoop g ch : unbuffered ch -> unbuffered (consumeLoop g ch).
Proof.
  intros Hu. unfold consumeLoop.
  destruct (aborted (consumer ch)); [by apply unbuffered_consumeFinally|].
  cbn. destruct (InMemoryQueue.dequeue _ _) as [[[event|]|] q].
  - unfold consumeEvent. destruct (isEndOfStream event).
    + apply unbuffered_consumeFinally. by destruct Hu.
    + by destruct Hu.
  - apply unbuffered_consumeFinally. by destruct Hu.
  - by destruct Hu.
Qed.

Lemma unbuffered_tapFinally r g ch : unbuffered ch -> unbuffered (tapFinally r g ch).
Proof.
  intros [Hq Hr]. split; cbn; [exact Hq|].
  intros r' Hin. apply list_elem_of_filter in Hin as [_ Hin]. by apply Hr.
Qed.

Lemma unbuffered_tapLoop r g ch :
  (forall r' t, tapperHeap ch !! r' = Some t -> queue t = []) ->
  (forall r', r' ∈ tappers (consumer ch) -> r' ≠ r ->
     exists t p, tapperHeap ch !! r' = Some t /\ resolve t = Some p) ->
  is_Some (tapperHeap ch !! r) ->
  unbuffered (tapLoop r g ch).
Proof.
  intros Hq Hr [t Ht]. unfold tapLoop.
  destruct (finished (consumer ch)).
  - split; cbn; [exact Hq|].
    intros r' Hin. apply list_elem_of_filter in Hin as [Hne Hin]. by apply Hr.
  - rewrite Ht, (Hq _ _ Ht). cbn. split; cbn.
    + intros r' t'. destruct (decide (r = r')) as [<-|Hne].
      * rewrite lookup_insert_eq. by intros [= <-].
      * rewrite lookup_insert_ne by done. apply Hq.
    + intros r' Hin. destruct (decide (r = r')) as [<-|Hne].
      * rewrite lookup_insert_eq. eauto.
      * rewrite lookup_insert_ne by done. by apply Hr.
Qed.

Lemma unbuffered_step ch a : unbuffered ch -> unbuffered (step ch a).
Proof.
  intros Hu. destruct a as [event| | | | |r|r]; cbn.
  - by destruct Hu.
  - by destruct Hu.
  - destruct (iterated ch); [|done]. unfold consumeNext.
    destruct (consumeGen ch) as [g|]; [|done].
    destruct (pc g) as [| |event|]; try done.
    + destruct (_ || _); [by destruct Hu|].
      apply unbuffered_consumeLoop. by destruct Hu.
    + apply unbuffered_consumeLoop. by apply broadcast_fold.
  - unfold consumeResume. destruct (consumeGen ch) as [g|]; [|done].
    destruct (pc g); try done.
    destruct (InMemoryQueue.resolution _ _) as [[event|]|]; try done.
    + unfold consumeEvent. destruct (isEndOfStream event).
      * by apply unbuffered_consumeFinally.
      * by destruct Hu.
    + by apply unbuffered_consumeFinally.
  - by destruct Hu.
  - unfold tapNext. destruct (tapGens ch !! r) as [g|]; [|done].
    destruct Hu as [Hq Hr].
    destruct (pc g); try done.
    + apply unbuffered_tapLoop; cbn.
      * intros r' t'. destruct (decide (r = r')) as [<-|Hne].
        -- rewrite lookup_insert_eq. by intros [= <-].
        -- rewrite lookup_insert_ne by done. apply Hq.
      * intros r' Hin Hne. rewrite lookup_insert_ne by done.
        apply Hr. apply elem_of_app in Hin as [Hin|Hin]; [done|].
        apply list_elem_of_singleton in Hin. congruence.
      * rewrite lookup_insert_eq. eauto.
    + destruct (tapperHeap ch !! r) as [t|] eqn:Ht.
      * apply unbuffered_tapLoop; eauto.
      * unfold tapLoop. rewrite Ht.
        destruct (finished (consumer ch)); [|by split].
        by apply unbuffered_tapFinally.
  - unfold tapResume. destruct (tapGens ch !! r) as [g|]; [|done].
    destruct (pc g); try done.
    destruct (tapPromises ch !! p) as [[event|]|]; try done.
    + by destruct Hu.
    + by apply unbuffered_tapFinally.
Qed.

(** X26.  In no reachable state of a consumer does a tapper hold a buffered
    event: the [tapper.queue.push(event)] branch of the broadcast and the
    [tapper.queue.shift()] branch of [tap()] are never taken, so a tapper
    gets an event only if its promise is pending when the event is
    broadcast. *)
Lemma tapper_buffer_never_used ch trace r t :
  tapperHeap ch = ∅ -> tappers (consumer ch) = [] ->
  tapperHeap (run ch trace) !! r = Some t ->
  queue t = [].
Proof.
  assert (forall trace ch, unbuffered ch -> unbuffered (run ch trace)) as Hrun.
  { clear. induction trace as [|a trace IH]; intros ch Hu; [done|].
    apply (IH (step ch a)). by apply unbuffered_step. }
  intros Hh Ht. eapply unbuffered_queue, Hrun. split.
  - intros r' t'. by rewrite Hh, lookup_empty.
  - intros r'. rewrite Ht. by intros Hin%elem_of_nil.
Qed.

(** C6 (the code departs from the claim).  Tappers 1 and 3 are registered
    before either artifact is enqueued, tapper 7 after the first artifact
    was broadcast.  The primary consumer gets both artifacts once, and so
    does tapper 3; tapper 7 gets the second only.  Tapper 1, whose client
    had not asked for the next event when the second artifact was
    broadcast, gets only the first: its stored [resolve] was that of a
    settled promise, and the event was neither delivered nor buffered. *)
Theorem tapper_misses_broadcast_event :
  let registered := run liveChannel twoTappers in
  let between := run registered firstEvent in
  let final := run between secondEvent in
  tappers (consumer registered) = [1; 3]
  /\ tappers (consumer between) = [1; 3]
  /\ (pc <$> consumeGen between) = Some (ConsumeYield (artifactEvent "a2" "two"))
  /\ primaryReceived final = [artifactEvent "a1" "one"; artifactEvent "a2" "two"]
  /\ received 3 final = [artifactEvent "a1" "one"; artifactEvent "a2" "two"]
  /\ received 7 final = [artifactEvent "a2" "two"]
  /\ received 1 final = [artifactEvent "a1" "one"]
  /\ finished (consumer final) = true
  /\ (pc <$> tapGens final !! 1) = Some TapDone
  /\ (queue <$> tapperHeap final !! 1) = Some [].
Proof. cbn zeta. repeat split; vm_compute; reflexivity. Qed.

(** ** Dispatcher and request handlers *)

(** [registerHandlers] sets the handlers of [registeredMethods] and no
    other. *)
Lemma registerHandlers_other exec uuid handlers m :
  m ∉ registeredMethods ->
  registerHandlers exec uuid handlers !! m = handlers !! m.
Proof.
  unfold registeredMethods. rewrite !not_elem_of_cons.
  intros (? & ? & ? & ? & ? & ? & _).
  unfold registerHandlers, setRequestHandler.
  by rewrite !lookup_insert_ne.
Qed.

Lemma registerHandlers_registered exec uuid handlers m :
  m ∈ registeredMethods -> is_Some (registerHandlers exec uuid handlers !! m).
Proof.
  unfold registeredMethods. rewrite !elem_of_cons, elem_of_nil.
  unfold registerHandlers, setRequestHandler.
  intros [->|[->|[->|[->|[->|[->|[]]]]]]];
    repeat (rewrite lookup_insert_ne by done); rewrite lookup_insert_eq; eauto.
Qed.

Lemma tasks_get_unregistered exec uuid :
  _jsonRpcServer (startServer exec uuid (newA2AServer exec uuid ∅)) !! "tasks/get" = None.
Proof.
  assert ("tasks/get" ∉ registeredMethods) as Hget.
  { unfold registeredMethods. rewrite !not_elem_of_cons. repeat split; try done.
    apply not_elem_of_nil. }
  unfold startServer, newA2AServer. cbn [_jsonRpcServer].
  by rewrite !registerHandlers_other, lookup_empty.
Qed.

(** [JSONRPCServer.handleRequest] on a method without handler. *)
Lemma dispatch_unregistered (handlers : gmap string Handler) request abortSignal st :
  handlers !! method request = None ->
  dispatch handlers request abortSignal st =
  (Response (Failure (req_id request) (mkError (-32601) "Method not found")), st).
Proof. unfold dispatch, Handler. by intros ->. Qed.

(** Handling a request never changes the handler table. *)
Lemma handleRequest_handlers srv request abortSignal response srv' :
  handleRequest srv request abortSignal = Ok (response, srv') ->
  _jsonRpcServer srv' = _jsonRpcServer srv /\ _isRunning srv' = _isRunning srv.
Proof.
  unfold handleRequest. destruct (_isRunning srv); [|done]. cbn.
  destruct (dispatch _ _ _ _). by intros [= <- <-].
Qed.

(** A started server has no handler for [tasks/get]. *)
Lemma running_tasks_get exec uuid st id p abortSignal :
  handleRequest (runningServer exec uuid st) (mkRequest id "tasks/get" p) abortSignal =
    Ok (Response (Failure id (mkError (-32601) "Method not found")),
        runningServer exec uuid st).
Proof.
  unfold handleRequest.
  change (_isRunning (runningServer exec uuid st)) with true.
  change (_jsonRpcServer (runningServer exec uuid st))
    with (_jsonRpcServer (startServer exec uuid (newA2AServer exec uuid ∅))).
  cbn [negb]. rewrite dispatch_unregistered by apply tasks_get_unregistered.
  reflexivity.
Qed.

(** C5 (the code departs from the claim).  No handler is registered for
    [tasks/get]: whatever the store holds, a started server answers the
    request with MethodNotFound (-32601) and leaves the store alone; a
    server that was not started throws. *)
Theorem tasks_get_method_not_found
    (exec : IAgentExecutor) (uuid : string) (st : ServerState)
    (id : RequestId) (p : Params) (abortSignal : option bool) :
  handleRequest (runningServer exec uuid st) (mkRequest id "tasks/get" p) abortSignal =
    Ok (Response (Failure id (mkError (-32601) "Method not found")),
        runningServer exec uuid st)
  /\ handleRequest (newA2AServer exec uuid (_taskStore st)) (mkRequest id "tasks/get" p)
       abortSignal = Throw "Server is not running".
Proof. split; [apply running_tasks_get|done]. Qed.

(** [tasks/get] for a task that is in the store. *)
Lemma tasks_get_stored_task :
  let st := mkState {["task-1" := storedTask]} ∅ in
  _taskStore st !! "task-1" = Some storedTask
  /\ handleRequest (runningServer streamingAgent "uuid-context-0" st)
       (mkRequest (IdNumber 7) "tasks/get" (IdParams "task-1")) None =
     Ok (Response (Failure (IdNumber 7) (mkError (-32601) "Method not found")),
         runningServer streamingAgent "uuid-context-0" st).
Proof. split; [reflexivity|apply running_tasks_get]. Qed.

Lemma tapOrConsume_ok ts abortSignal (m : gmap string Channel) t :
  getTask ts = Ok t ->
  exists src m', tapOrConsume ts abortSignal m = Ok (src, m').
Proof.
  intros Ht. unfold tapOrConsume, createConsumer, mbind, Result_bind. rewrite Ht.
  destruct (m !! task_id t) eqn:Hm.
  - destruct (tap c). eauto.
  - eauto.
Qed.

(** C10.  When the agent returns a stream whose task id is not that of
    [currentTask], [message/stream] yields [currentTask], asks
    [tapOrConsume] for the events of the stream's own task and forwards
    them: it registers a consumer under the stream's task id and iterates
    its [consume()] generator, or taps the consumer registered there
    already, and at every moment the response is [currentTask] followed by
    one result frame for each event that generator has yielded, in order.
    Nothing else in the store or the manager changes.  No frame of the
    response is an error, so none carries InvalidAgentResponse (-32006).
    [message/send] answers the same result with that error. *)
Theorem message_stream_skips_task_check
    (exec : IAgentExecutor) (uuid : string) (request : JSONRPCRequest)
    (abortSignal : option bool) (st : ServerState) (r : StreamResult) (t : Task) :
  _handleMessage exec uuid request st = Returned (StreamRes r) ->
  getTask (taskStream r) = Ok t ->
  task_id t ≠ task_id (sr_currentTask r) ->
  let rs := fst (_handleMessageStream exec uuid request abortSignal st) in
  let st' := snd (_handleMessageStream exec uuid request abortSignal st) in
  let first := Success (req_id request) (ResultTask (sr_currentTask r)) in
  let yieldedBy ch :=
    match _taskStreamManager st !! task_id t with
    | None => primaryReceived ch
    | Some ch0 => received (nextId ch0) ch
    end in
  frames rs = [first]
  /\ (exists src m',
        tapOrConsume (taskStream r) abortSignal (_taskStreamManager st) = Ok (src, m')
        /\ source rs = Some src
        /\ _taskStreamManager st' = forAwait src m')
  /\ match _taskStreamManager st !! task_id t with
     | None =>
         source rs = Some (FromConsume (task_id t))
         /\ _taskStreamManager st' !! task_id t =
              Some (streamingChannel (taskStream r) abortSignal)
     | Some ch0 =>
         source rs = Some (FromTap (task_id t) (nextId ch0))
         /\ _taskStreamManager st' !! task_id t = Some (step ch0 Tap)
     end
  /\ (forall taskId, taskId ≠ task_id t ->
        _taskStreamManager st' !! taskId = _taskStreamManager st !! taskId)
  /\ _taskStore st' = _taskStore st
  /\ (forall m ch, m !! task_id t = Some ch ->
        streamFrames rs m =
          first :: map (fun event => Success (req_id request) (ResultEvent event))
                       (yieldedBy ch))
  /\ (forall m id e, Failure id e ∉ streamFrames rs m)
  /\ fst (_handleMessageSend exec uuid request abortSignal st) =
       Failure (req_id request) (invalidAgentResponseError (Some taskMismatch))
  /\ code (invalidAgentResponseError (Some taskMismatch)) = (-32006)%Z.
Proof.
  intros Hres Htask Hne. cbn zeta.
  assert (fst (_handleMessageSend exec uuid request abortSignal st) =
            Failure (req_id request) (invalidAgentResponseError (Some taskMismatch))) as Hsend.
  { unfold _handleMessageSend. rewrite Hres, Htask. by rewrite bool_decide_eq_true_2. }
  assert (forall src m id e,
            Failure id e ∉
              streamFrames
                (mkResponseStream (req_id request)
                   [Success (req_id request) (ResultTask (sr_currentTask r))]
                   (Some src)) m) as Hnoerr.
  { intros src m id e. unfold streamFrames. cbn.
    rewrite elem_of_cons, list_elem_of_fmap.
    intros [H|(event & H & _)]; discriminate H. }
  unfold _handleMessageStream, tapOrConsume, createConsumer, mbind, Result_bind.
  rewrite Hres, Htask.
  destruct (_taskStreamManager st !! task_id t) as [ch0|] eqn:Hm.
  - (* a consumer is registered: tap *)
    change (tap ch0) with (nextId ch0, step ch0 Tap).
    cbn [fst snd frames source _taskStreamManager _taskStore forAwait].
    split; [done|]. split; [by eexists _, _|].
    split; [split; [done|by rewrite lookup_insert_eq]|].
    split; [intros taskId Hk; by rewrite lookup_insert_ne|].
    split; [done|]. split.
    + intros m ch Hch. unfold streamFrames. cbn. by rewrite Hch.
    + split; [|done]. intros m. apply Hnoerr.
  - (* nobody consumes the stream yet: createConsumer, consume, iterate *)
    cbn [fst snd frames source _taskStreamManager _taskStore forAwait].
    split; [done|]. split; [by eexists _, _|].
    split; [split; [done|by rewrite !lookup_alter_eq, lookup_insert_eq]|].
    split; [intros taskId Hk; by rewrite !lookup_alter_ne, lookup_insert_ne|].
    split; [done|]. split.
    + intros m ch Hch. unfold streamFrames. cbn. by rewrite Hch.
    + split; [|done]. intros m. apply Hnoerr.
Qed.

Lemma message_stream_skips_task_check_witness :
  let rs := fst (_handleMessageStream mismatchingAgent "uuid-context-0" streamHi None
                   emptyState) in
  let st' := snd (_handleMessageStream mismatchingAgent "uuid-context-0" streamHi None
                    emptyState) in
  let produced := ArtifactUpdate "task-1" "ctx-1" (art "a1" "one") false false None in
  getTask submittedStream = Ok (default otherTask (currentTask (cx submittedStream)))
  /\ task_id (default otherTask (currentTask (cx submittedStream))) ≠ task_id otherTask
  /\ frames rs = [Success (IdNumber 2) (ResultTask otherTask)]
  /\ source rs = Some (FromConsume "task-1")
  /\ _taskStreamManager st' !! "task-1" = Some (streamingChannel submittedStream None)
  /\ _taskStreamManager st' !! "task-2" = None
  /\ streamFrames rs
       {["task-1" := run (streamingChannel submittedStream None)
                         [Enqueue produced; ConsumeNext]]} =
     [Success (IdNumber 2) (ResultTask otherTask);
      Success (IdNumber 2) (ResultEvent produced)]
  /\ fst (_handleMessageSend mismatchingAgent "uuid-context-0" streamHi None emptyState) =
       Failure (IdNumber 2) (invalidAgentResponseError (Some taskMismatch)).
Proof.
  cbn zeta. split; [reflexivity|]. split; [discriminate|].
  destruct (message_stream_skips_task_check mismatchingAgent "uuid-context-0" streamHi None
              emptyState (mkStreamResult submittedStream otherTask)
              (default otherTask (currentTask (cx submittedStream))))
    as (Hf & _ & [Hsrc Hreg] & Hother & _ & Hfwd & _ & Hs & _);
    [reflexivity|reflexivity|discriminate|].
  split; [exact Hf|]. split; [exact Hsrc|]. split; [exact Hreg|].
  split; [rewrite (Hother "task-2"); [reflexivity|discriminate]|].
  split; [|exact Hs].
  rewrite (Hfwd _ _ (lookup_singleton_eq _ _)). reflexivity.
Defined.

(** ** The streaming path *)

(** On a manager that has a consumer for the task, [tapOrConsume] taps:
    for the channel it is the action [Tap]. *)
Lemma tapOrConsume_existing ts abortSignal (m : gmap string Channel) t ch :
  getTask ts = Ok t -> m !! task_id t = Some ch ->
  tapOrConsume ts abortSignal m =
    Ok (FromTap (task_id t) (nextId ch), <[task_id t := step ch Tap]> m).
Proof.
  intros Ht Hm. unfold tapOrConsume, mbind, Result_bind. by rewrite Ht, Hm.
Qed.

Lemma draining_next ys event rest last ch :
  isEndOfStream event = false ->
  draining ys (event :: rest) last ch ->
  draining (ys ++ [event]) rest last (step ch ConsumeNext).
Proof.
  intros Hev [Hi Ha Ht Hq Ho Hpc]. cbn. rewrite Hi. unfold consumeNext.
  destruct ch as [[tps cons fin q ab] heap proms gen it gens n].
  destruct q as [its cl pend settled]. cbn in *. subst.
  destruct Hpc as [(-> & -> & ->)|[e ->]]; cbn;
    unfold consumeLoop, consumeEvent; cbn; rewrite Hev; split; cbn; eauto.
Qed.

Lemma draining_last ys last ch :
  isEndOfStream last = true ->
  draining ys [] last ch ->
  primaryReceived (step ch ConsumeNext) = ys
  /\ finished (consumer (step ch ConsumeNext)) = true
  /\ consuming (consumer (step ch ConsumeNext)) = false.
Proof.
  intros Hev [Hi Ha Ht Hq Ho Hpc]. cbn. rewrite Hi. unfold consumeNext.
  destruct ch as [[tps cons fin q ab] heap proms gen it gens n].
  destruct q as [its cl pend settled]. cbn in *. subst.
  destruct Hpc as [(-> & -> & ->)|[e ->]]; cbn;
    unfold consumeLoop, consumeEvent; cbn; by rewrite Hev.
Qed.

(** The sibling path.  When the generator of [consume()] is iterated, as
    [message/stream] does, the consumer hands every event before the
    sentinel to its caller, once and in order, and finishes at the
    sentinel. *)
Lemma iterated_consumer_drains ts (events : list AgentStreamEvent) last :
  Forall (fun event => isEndOfStream event = false) events ->
  isEndOfStream last = true ->
  InMemoryQueue.items (streamQueue ts) = events ++ [last] ->
  InMemoryQueue._isClosed (streamQueue ts) = false ->
  let ch := run (streamingChannel ts None) (replicate (S (length events)) ConsumeNext) in
  primaryReceived ch = events
  /\ finished (consumer ch) = true
  /\ consuming (consumer ch) = false.
Proof.
  intros Hev Hlast Hq Ho.
  assert (forall rest ys ch,
            Forall (fun event => isEndOfStream event = false) rest ->
            draining ys rest last ch ->
            let ch' := run ch (replicate (S (length rest)) ConsumeNext) in
            primaryReceived ch' = ys ++ rest
            /\ finished (consumer ch') = true
            /\ consuming (consumer ch') = false) as Hloop.
  { clear -Hlast. induction rest as [|event rest IH]; intros ys ch Hrest Hd.
    - rewrite app_nil_r. by apply (draining_last ys last).
    - apply Forall_cons in Hrest as [Hevent Hrest].
      change (run ch (replicate (S (length (event :: rest))) ConsumeNext))
        with (run (step ch ConsumeNext) (replicate (S (length rest)) ConsumeNext)).
      rewrite (cons_middle event ys rest), app_assoc.
      apply IH; [done|]. by apply (draining_next ys event rest last). }
  apply (Hloop events [] _ Hev). split; cbn; try done. by left.
Qed.

(** What [message/stream] leaves in the manager for a stream nobody
    consumes yet. *)
Lemma message_stream_channel exec uuid request abortSignal st r t :
  _handleMessage exec uuid request st = Returned (StreamRes r) ->
  getTask (taskStream r) = Ok t ->
  _taskStreamManager st !! task_id t = None ->
  source (fst (_handleMessageStream exec uuid request abortSignal st)) =
    Some (FromConsume (task_id t))
  /\ _taskStreamManager (snd (_handleMessageStream exec uuid request abortSignal st))
       !! task_id t = Some (streamingChannel (taskStream r) abortSignal).
Proof.
  intros Hres Ht Hm.
  unfold _handleMessageStream, tapOrConsume, createConsumer, mbind, Result_bind.
  rewrite Hres, Ht, Hm. cbn.
  split; [done|]. by rewrite lookup_alter_eq, lookup_alter_eq, lookup_insert_eq.
Qed.

(** Registering replays nothing: the first [next()] on a tap generator
    yields no event; the tapper starts with an empty buffer and waits on a
    new promise. *)
Lemma tap_registration_no_replay r ch :
  (pc <$> tapGens ch !! r) = Some TapStart ->
  finished (consumer ch) = false ->
  received r (tapNext r ch) = received r ch
  /\ tapperHeap (tapNext r ch) !! r = Some (mkTapper [] (Some (nextId ch)))
  /\ (pc <$> tapGens (tapNext r ch) !! r) = Some (TapAwait (nextId ch))
  /\ tappers (consumer (tapNext r ch)) = tappers (consumer ch) ++ [r].
Proof.
  unfold tapNext, received.
  destruct (tapGens ch !! r) as [[pc0 ys]|] eqn:Hg; [|done].
  cbn. intros [= ->] Hf. unfold tapLoop. cbn. rewrite Hf, lookup_insert_eq. cbn.
  by rewrite !lookup_insert_eq.
Qed.

(** * Properties of whole runs *)

(** ** In-memory queue: order of delivery *)

Section QueueOrder.
Context {T : Type}.
Implicit Types (D : list nat) (E : list T).

Lemma zip_snoc_r_short D E (x : T) :
  length D <= length E -> zip D (E ++ [x]) = zip D E.
Proof.
  revert E. induction D as [|p D IH]; intros [|y E] Hlen; cbn in *; try done; try lia.
  f_equal. apply IH. lia.
Qed.

Lemma zip_snoc_l_short D E (p : nat) :
  length E <= length D -> zip (D ++ [p]) E = zip D E.
Proof.
  revert D. induction E as [|y E IH]; intros D Hlen.
  - by destruct (D ++ [p]), D.
  - destruct D as [|q D]; cbn in *; [lia|]. f_equal. apply IH. lia.
Qed.

Lemma zip_snoc_r_next D E (x : T) p ps :
  drop (length E) D = p :: ps ->
  zip D (E ++ [x]) = zip D E ++ [(p, x)] /\ drop (length (E ++ [x])) D = ps
  /\ drop (length D) E = [] /\ drop (length D) (E ++ [x]) = [].
Proof.
  revert D. induction E as [|y E IH]; intros D Hd; cbn in *.
  - rewrite drop_0 in Hd. subst D. cbn. split; [by destruct ps|].
    split; [done|]. split; [done|]. apply drop_nil.
  - destruct D as [|q D]; [done|]. cbn in *.
    destruct (IH D Hd) as (H1 & H2 & H3 & H4). by rewrite H1, H2, H3, H4.
Qed.

Lemma zip_snoc_l_next D E (p : nat) x rest :
  drop (length D) E = x :: rest ->
  zip (D ++ [p]) E = zip D E ++ [(p, x)] /\ drop (length (D ++ [p])) E = rest
  /\ drop (length E) D = [] /\ drop (length E) (D ++ [p]) = [].
Proof.
  revert E. induction D as [|q D IH]; intros E Hd; cbn in *.
  - rewrite drop_0 in Hd. subst E. cbn. split; [by destruct rest|].
    split; [done|]. split; [done|]. apply drop_nil.
  - destruct E as [|y E]; [done|]. cbn in *.
    destruct (IH E Hd) as (H1 & H2 & H3 & H4). by rewrite H1, H2, H3, H4.
Qed.

Lemma drop_nil_length {A} (l : list A) n : drop n l = [] -> length l <= n.
Proof.
  revert n. induction l as [|a l IH]; intros [|n]; cbn; try done; try lia.
  intros H. specialize (IH _ H). lia.
Qed.

Lemma calls_snoc (ops : list (QueueOp T)) :
  (forall x, enqs (ops ++ [Enq x]) = enqs ops ++ [x] /\ deqs (ops ++ [Enq x]) = deqs ops)
  /\ (forall p, enqs (ops ++ [@Deq T p]) = enqs ops
             /\ deqs (ops ++ [@Deq T p]) = deqs ops ++ [p]).
Proof.
  unfold enqs, deqs. split; intros ?; rewrite !omap_app; cbn; by rewrite ?app_nil_r.
Qed.

Lemma fifoState_step (ops : list (QueueOp T)) st op :
  fifoState ops st -> fifoState (ops ++ [op]) (queueStep st op).
Proof.
  destruct st as [q answers]. intros [Ha Hi Hp Ho]. cbn in *.
  destruct q as [its cl pend setl]. cbn in *. subst cl answers.
  destruct (calls_snoc ops) as [Henq Hdeq].
  destruct op as [x|p].
  - destruct (Henq x) as [He Hd]. clear Henq Hdeq.
    unfold queueStep, InMemoryQueue.enqueue, InMemoryQueue.resolvePendingPromises,
      newlyResolved. cbn.
    destruct pend as [|w ws].
    + cbn. symmetry in Hp. apply drop_nil_length in Hp.
      rewrite drop_ge by lia. cbn. rewrite app_nil_r.
      split; rewrite ?He, ?Hd; cbn.
      * rewrite zip_snoc_r_short; [done|lia].
      * rewrite drop_app_le by lia. by rewrite Hi.
      * rewrite drop_ge; [done|]. rewrite length_app. cbn. lia.
      * done.
    + symmetry in Hp.
      destruct (zip_snoc_r_next _ _ x _ _ Hp) as (H1 & H2 & H3 & H4).
      rewrite H3 in Hi. subst its. cbn.
      rewrite resolveLoop_no_items. cbn.
      rewrite drop_app_length. cbn.
      split; rewrite ?He, ?Hd; cbn; by rewrite ?H1, ?H2, ?H4.
  - destruct (Hdeq p) as [He Hd]. clear Henq Hdeq.
    unfold queueStep, InMemoryQueue.dequeue. cbn.
    destruct its as [|x rest]; cbn.
    + symmetry in Hi. apply drop_nil_length in Hi.
      split; rewrite ?He, ?Hd; cbn.
      * rewrite zip_snoc_l_short; [done|lia].
      * rewrite drop_ge; [done|]. rewrite length_app. cbn. lia.
      * rewrite drop_app_le by lia. by rewrite Hp.
      * done.
    + symmetry in Hi.
      destruct (zip_snoc_l_next _ _ p _ _ Hi) as (H1 & H2 & H3 & H4).
      rewrite H3 in Hp. subst pend.
      split; rewrite ?He, ?Hd; cbn; by rewrite ?H1, ?H2, ?H4.
Qed.

Lemma fifoState_run (ops : list (QueueOp T)) :
  fifoState ops (runQueue InMemoryQueue.empty ops).
Proof.
  induction ops as [|op ops IH] using rev_ind.
  - by split.
  - unfold runQueue. rewrite foldl_snoc. by apply fifoState_step.
Qed.

(** X1.  On a new queue, whatever the order of the [enqueue] and
    [dequeue] calls, the i-th [dequeue] call gets the i-th enqueued item:
    the answers given are the calls zipped with the items, what is left in
    the queue are the items not yet asked for, and the waiters left are the
    calls not yet served; there is never both an item and a waiter. *)
Theorem queue_fifo (ops : list (QueueOp T)) :
  let q := fst (runQueue InMemoryQueue.empty ops) in
  snd (runQueue InMemoryQueue.empty ops) = zip (deqs ops) (enqs ops)
  /\ InMemoryQueue.items q = drop (length (deqs ops)) (enqs ops)
  /\ InMemoryQueue.pendingDequeuePromises q = drop (length (enqs ops)) (deqs ops)
  /\ (InMemoryQueue.items q = [] \/ InMemoryQueue.pendingDequeuePromises q = []).
Proof.
  destruct (fifoState_run ops) as [Ha Hi Hp _]. cbn zeta.
  repeat split; try done.
  rewrite Hi, Hp.
  destruct (decide (length (deqs ops) <= length (enqs ops))).
  - right. apply drop_ge. lia.
  - left. apply drop_ge. lia.
Qed.

Lemma closed_step (st : InMemoryQueue.t T * list (nat * T)) op :
  InMemoryQueue._isClosed (fst st) = true ->
  InMemoryQueue.pendingDequeuePromises (fst st) = [] ->
  InMemoryQueue._isClosed (fst (queueStep st op)) = true
  /\ InMemoryQueue.pendingDequeuePromises (fst (queueStep st op)) = []
  /\ InMemoryQueue.settled (fst (queueStep st op)) = InMemoryQueue.settled (fst st)
  /\ snd (queueStep st op) = snd st.
Proof.
  destruct st as [[its cl pend setl] answers]. cbn. intros -> ->.
  destruct op as [x|p]; cbn.
  - unfold newlyResolved. cbn. rewrite drop_ge by done. cbn. by rewrite app_nil_r.
  - done.
Qed.

(** X2.  After [close()], whatever calls follow, no [dequeue] is ever
    answered with an item and none is left waiting: every [dequeue] returns
    "no event" at once, also when items were enqueued after the close. *)
Theorem closed_queue_delivers_nothing (q : InMemoryQueue.t T) (ops : list (QueueOp T)) :
  let st := runQueue (InMemoryQueue.close q) ops in
  snd st = []
  /\ InMemoryQueue.pendingDequeuePromises (fst st) = []
  /\ InMemoryQueue.settled (fst st) = InMemoryQueue.settled (InMemoryQueue.close q)
  /\ InMemoryQueue._isClosed (fst st) = true
  /\ forall p, InMemoryQueue.dequeue p (fst st) = (InMemoryQueue.Now None, fst st).
Proof.
  cbn zeta.
  assert (InMemoryQueue._isClosed (fst (runQueue (InMemoryQueue.close q) ops)) = true
          /\ InMemoryQueue.pendingDequeuePromises
               (fst (runQueue (InMemoryQueue.close q) ops)) = []
          /\ InMemoryQueue.settled (fst (runQueue (InMemoryQueue.close q) ops)) =
             InMemoryQueue.settled (InMemoryQueue.close q)
          /\ snd (runQueue (InMemoryQueue.close q) ops) = []) as (Hc & Hp & Hs & Ha).
  { induction ops as [|op ops IH] using rev_ind; [done|].
    unfold runQueue in *. rewrite foldl_snoc.
    destruct IH as (Hc & Hp & Hs & Ha).
    destruct (closed_step _ op Hc Hp) as (H1 & H2 & H3 & H4).
    by rewrite H3, H4. }
  repeat split; try done.
  intros p. unfold InMemoryQueue.dequeue. by rewrite Hc.
Qed.

End QueueOrder.

(** ** In-memory store *)

Section StoreFacts.
Context {T : Type}.
Implicit Types (s : InMemoryStore.t T) (e : InMemoryStore.Entry T) (k key : string).

Lemma mapGet_mapSet_eq key e s :
  InMemoryStore.mapGet key (InMemoryStore.mapSet key e s) = Some e.
Proof.
  induction s as [|[k e'] s IH]; cbn.
  - by rewrite decide_True.
  - destruct (decide (k = key)) as [->|Hne]; cbn.
    + by rewrite decide_True.
    + by rewrite decide_False.
Qed.

Lemma mapGet_mapSet_ne key k e s :
  key ≠ k ->
  InMemoryStore.mapGet k (InMemoryStore.mapSet key e s) = InMemoryStore.mapGet k s.
Proof.
  intros Hne. induction s as [|[k' e'] s IH]; cbn.
  - by rewrite decide_False.
  - destruct (decide (k' = key)) as [->|Hne']; cbn.
    + by rewrite !decide_False.
    + destruct (decide (k' = k)); [done|apply IH].
Qed.

Lemma mapGet_removed key s :
  InMemoryStore.mapGet key (filter (fun kv => fst kv ≠ key) s) = None.
Proof.
  induction s as [|[k e] s IH]; [done|].
  cbn. destruct (decide (k ≠ key)) as [Hne|Heq]; [|done].
  cbn. by rewrite decide_False.
Qed.

Lemma mapGet_removed_ne key k s :
  key ≠ k ->
  InMemoryStore.mapGet k (filter (fun kv => fst kv ≠ key) s) = InMemoryStore.mapGet k s.
Proof.
  intros Hne. induction s as [|[k' e] s IH]; [done|].
  cbn. destruct (decide (k' ≠ key)) as [Hne'|Heq]; cbn.
  - destruct (decide (k' = k)); [done|apply IH].
  - apply dec_stable in Heq. subst k'. by rewrite decide_False.
Qed.

Lemma mapGet_elem key s :
  is_Some (InMemoryStore.mapGet key s) <-> key ∈ fst <$> s.
Proof.
  induction s as [|[k e] s IH]; cbn.
  - split; [by intros [? ?]|by intros ?%elem_of_nil].
  - rewrite elem_of_cons. destruct (decide (k = key)) as [->|Hne].
    + split; eauto.
    + rewrite IH. split; [by right|]. by intros [?|?].
Qed.

(** X3.  A value stored without ttl, or with a ttl that is zero or
    negative, never expires: [get] returns it at any later time, [has]
    answers true, and neither purges anything. *)
Theorem store_set_get_permanent (now later : Z) key (v : T) (ttl : option Z) s :
  (forall n, ttl = Some n -> (n <= 0)%Z) ->
  let s' := InMemoryStore.set now key v ttl s in
  InMemoryStore.get later key s' = (Some v, s')
  /\ InMemoryStore.has later key s' = (true, s').
Proof.
  intros Httl. cbn zeta. unfold InMemoryStore.get, InMemoryStore.has, InMemoryStore.set.
  rewrite mapGet_mapSet_eq.
  assert (match ttl with
          | Some n => if bool_decide (0 < n)%Z then Some (now + n * 1000)%Z else None
          | None => None
          end = None) as ->.
  { destruct ttl as [n|]; [|done]. specialize (Httl n eq_refl).
    by rewrite bool_decide_eq_false_2 by lia. }
  done.
Qed.


(** X5.  [delete] removes the key and nothing else: afterwards [get] and
    [has] do not find it, a second [delete] reports false, and every other
    key reads as before.  [set] does not disturb other keys either. *)
Theorem store_delete (now : Z) key k (v : T) (ttl : option Z) s :
  key ≠ k ->
  let s' := snd (InMemoryStore.delete key s) in
  fst (InMemoryStore.get now key s') = None
  /\ fst (InMemoryStore.has now key s') = false
  /\ fst (InMemoryStore.delete key s') = false
  /\ fst (InMemoryStore.get now k s') = fst (InMemoryStore.get now k s)
  /\ fst (InMemoryStore.get now k (InMemoryStore.set now key v ttl s)) =
     fst (InMemoryStore.get now k s).
Proof.
  intros Hne. cbn zeta.
  unfold InMemoryStore.get, InMemoryStore.has, InMemoryStore.delete, InMemoryStore.set,
    InMemoryStore.mapDelete. cbn.
  rewrite mapGet_removed, mapGet_removed_ne, mapGet_mapSet_ne by done.
  repeat split; try done.
  - by destruct (InMemoryStore.mapGet k s) as [e|]; [destruct (InMemoryStore.expired now e)|].
  - by destruct (InMemoryStore.mapGet k s) as [e|]; [destruct (InMemoryStore.expired now e)|].
Qed.

Lemma mapSet_keys key e s :
  fst <$> (InMemoryStore.mapSet key e s) =
  if bool_decide (key ∈ fst <$> s) then fst <$> s else (fst <$> s) ++ [key].
Proof.
  induction s as [|[k e'] s IH]; cbn; [done|].
  destruct (decide (k = key)) as [->|Hne]; cbn.
  - rewrite bool_decide_eq_true_2; [done|]. by left.
  - rewrite IH. destruct (bool_decide (key ∈ fst <$> s)) eqn:Hin.
    + apply bool_decide_eq_true_1 in Hin.
      rewrite bool_decide_eq_true_2; [done|]. by right.
    + apply bool_decide_eq_false_1 in Hin.
      rewrite bool_decide_eq_false_2; [done|].
      intros [?|?]%elem_of_cons; congruence.
Qed.

(** Keys stay unique under [set], [delete] and the purges. *)
Lemma set_NoDup now key (v : T) ttl s :
  NoDup (fst <$> s) -> NoDup (fst <$> (InMemoryStore.set now key v ttl s)).
Proof.
  intros Hnd. unfold InMemoryStore.set. rewrite mapSet_keys.
  case_bool_decide as Hin; [done|].
  apply NoDup_app. split; [done|]. split; [|apply NoDup_singleton].
  intros x Hx ->%list_elem_of_singleton. done.
Qed.

Lemma mapGet_filter (P : string * InMemoryStore.Entry T -> Prop)
    `{!forall kv, Decision (P kv)} key e s :
  NoDup (fst <$> s) ->
  InMemoryStore.mapGet key s = Some e ->
  InMemoryStore.mapGet key (filter P s) = if decide (P (key, e)) then Some e else None.
Proof.
  induction s as [|[k e'] s IH]; [done|]. cbn.
  intros Hnd%NoDup_cons. destruct Hnd as [Hk Hnd].
  destruct (decide (k = key)) as [->|Hne].
  - intros [= ->]. destruct (decide (P (key, e))); cbn.
    + by rewrite decide_True.
    + destruct (InMemoryStore.mapGet key (filter P s)) as [e2|] eqn:Hget; [|done].
      exfalso. apply Hk.
      assert (is_Some (InMemoryStore.mapGet key (filter P s))) as Hsome by eauto.
      apply mapGet_elem in Hsome. apply list_elem_of_fmap in Hsome as (kv & -> & Hkv).
      apply list_elem_of_filter in Hkv as [_ Hkv]. apply list_elem_of_fmap. eauto.
  - intros Hget. destruct (decide (P (k, e'))); cbn.
    + rewrite decide_False by done. by apply IH.
    + by apply IH.
Qed.

Lemma mapGet_filter_None (P : string * InMemoryStore.Entry T -> Prop)
    `{!forall kv, Decision (P kv)} key s :
  InMemoryStore.mapGet key s = None ->
  InMemoryStore.mapGet key (filter P s) = None.
Proof.
  induction s as [|[k e'] s IH]; [done|]. cbn.
  destruct (decide (k = key)) as [->|Hne]; [done|].
  intros Hget. destruct (decide (P (k, e'))); cbn; [|by apply IH].
  rewrite decide_False by done. by apply IH.
Qed.

Lemma NoDup_keys_filter (P : string * InMemoryStore.Entry T -> Prop)
    `{!forall kv, Decision (P kv)} s :
  NoDup (fst <$> s) -> NoDup (fst <$> filter P s).
Proof.
  induction s as [|[k e] s IH]; [done|]. cbn.
  intros [Hk Hnd]%NoDup_cons.
  destruct (decide (P (k, e))); cbn; [|by apply IH].
  apply NoDup_cons. split; [|by apply IH].
  intros (kv & -> & Hkv)%list_elem_of_fmap.
  apply list_elem_of_filter in Hkv as [_ Hkv].
  apply Hk. apply list_elem_of_fmap. eauto.
Qed.

Lemma cleanupExpired_idem now s :
  InMemoryStore.cleanupExpired now (InMemoryStore.cleanupExpired now s) =
  InMemoryStore.cleanupExpired now s.
Proof.
  unfold InMemoryStore.cleanupExpired.
  induction s as [|[k e] s IH]; [done|]. cbn.
  destruct (decide (InMemoryStore.expired now e = false)) as [He|He]; cbn; [|done].
  rewrite decide_True by done. f_equal. exact IH.
Qed.

(** X6.  The enumerations drop the expired entries and agree with the
    lookups: a key is listed by [keys] exactly when [get] finds a value for
    it, [entries] pairs the keys with the values in the same (insertion)
    order, the store left behind holds the listed keys only, and listing
    again gives the same. *)
Theorem store_keys_agree_with_get (now : Z) key s :
  NoDup (fst <$> s) ->
  (key ∈ fst (InMemoryStore.keys now s) <-> is_Some (fst (InMemoryStore.get now key s)))
  /\ fst (InMemoryStore.entries now s) =
     zip (fst (InMemoryStore.keys now s)) (fst (InMemoryStore.values now s))
  /\ fst <$> (snd (InMemoryStore.keys now s)) = fst (InMemoryStore.keys now s)
  /\ InMemoryStore.keys now (snd (InMemoryStore.keys now s)) = InMemoryStore.keys now s
  /\ NoDup (fst (InMemoryStore.keys now s)).
Proof.
  intros Hnd. pose proof (cleanupExpired_idem now s) as Hidem.
  unfold InMemoryStore.keys, InMemoryStore.entries, InMemoryStore.values,
    InMemoryStore.cleanupExpired in *. cbn.
  split; [|split; [|split; [done|split]]].
  - rewrite <- mapGet_elem. unfold InMemoryStore.get.
    destruct (InMemoryStore.mapGet key s) as [e|] eqn:Hget.
    + rewrite (mapGet_filter _ key e s Hnd Hget). cbn.
      destruct (InMemoryStore.expired now e); cbn.
      * rewrite decide_False by done. split; by intros [? ?].
      * rewrite decide_True by done. split; eauto.
    + rewrite mapGet_filter_None by done. cbn. split; by intros [? ?].
  - generalize (filter (fun kv : string * InMemoryStore.Entry T =>
                          InMemoryStore.expired now (snd kv) = false) s).
    intros l. induction l as [|[k e] l IH]; cbn; [done|]. by rewrite IH.
  - f_equal; [f_equal|]; exact Hidem.
  - by apply NoDup_keys_filter.
Qed.

Lemma storeView_lookup key s :
  storeView s !! key = InMemoryStore.value <$> InMemoryStore.mapGet key s.
Proof.
  unfold storeView. induction s as [|[k e] s IH]; cbn; [done|].
  destruct (decide (k = key)) as [->|Hne].
  - by rewrite lookup_insert_eq.
  - by rewrite lookup_insert_ne.
Qed.

Lemma permanent_unexpired now key e s :
  permanent s -> InMemoryStore.mapGet key s = Some e -> InMemoryStore.expired now e = false.
Proof.
  induction s as [|[k e'] s IH]; [done|]. cbn.
  intros [He Hperm]%Forall_cons. cbn in He.
  destruct (decide (k = key)).
  - intros [= <-]. unfold InMemoryStore.expired. by rewrite He.
  - by apply IH.
Qed.

(** X7.  While no entry has a ttl, which is how the request handlers use
    the store, the store is a finite map: [get] is lookup and purges
    nothing, and [set] without ttl is insertion. *)
Theorem store_without_ttl_is_a_map (now : Z) key (v : T) s :
  permanent s ->
  InMemoryStore.get now key s = (storeView s !! key, s)
  /\ storeView (InMemoryStore.set now key v None s) = <[key := v]> (storeView s)
  /\ permanent (InMemoryStore.set now key v None s).
Proof.
  intros Hperm. unfold InMemoryStore.get, InMemoryStore.set.
  split; [|split].
  - rewrite storeView_lookup.
    destruct (InMemoryStore.mapGet key s) as [e|] eqn:Hget; [|done].
    by rewrite (permanent_unexpired now key e s Hperm Hget).
  - clear Hperm. unfold storeView. induction s as [|[k e] s IH]; cbn; [done|].
    destruct (decide (k = key)) as [->|Hne]; cbn.
    + by rewrite insert_insert_eq.
    + rewrite IH. by apply insert_insert_ne.
  - induction s as [|[k e] s IH]; cbn.
    + by apply Forall_singleton.
    + apply Forall_cons in Hperm as [He Hperm].
      destruct (decide (k = key)); apply Forall_cons; split; try done. by apply IH.
Qed.

End StoreFacts.

Lemma store_set_get_permanent_witness :
  InMemoryStore.get 5000 "k" (InMemoryStore.set 1000 "k" "v" (Some 0%Z) []) =
  (Some "v", InMemoryStore.set 1000 "k" "v" (Some 0%Z) []).
Proof.
  apply (store_set_get_permanent 1000 5000 "k" "v" (Some 0%Z) []).
  intros n [= <-]. lia.
Defined.


Lemma store_delete_witness :
  let s := InMemoryStore.set 0 "b" "2" None (InMemoryStore.set 0 "a" "1" None []) in
  fst (InMemoryStore.get 9 "a" (snd (InMemoryStore.delete "a" s))) = None
  /\ fst (InMemoryStore.get 9 "b" (snd (InMemoryStore.delete "a" s))) = Some "2".
Proof.
  destruct (store_delete 9 "a" "b" "0" None
              (InMemoryStore.set 0 "b" "2" None (InMemoryStore.set 0 "a" "1" None [])))
    as (H1 & _ & _ & H4 & _); [done|].
  cbn zeta. split; [exact H1|]. rewrite H4. reflexivity.
Defined.

Lemma store_keys_agree_with_get_witness :
  let s := InMemoryStore.set 0 "b" "2" (Some 1%Z) (InMemoryStore.set 0 "a" "1" None []) in
  fst (InMemoryStore.keys 5000 s) = ["a"]
  /\ ("b" ∈ fst (InMemoryStore.keys 5000 s) <->
      is_Some (fst (InMemoryStore.get 5000 "b" s))).
Proof.
  cbn zeta. split; [reflexivity|].
  apply (store_keys_agree_with_get 5000 "b").
  apply (bool_decide_unpack _). vm_compute. reflexivity.
Defined.

Lemma store_without_ttl_is_a_map_witness :
  let s := InMemoryStore.set 0 "a" "1" None [] in
  InMemoryStore.get 9 "a" s = (Some "1", s).
Proof.
  cbn zeta.
  destruct (store_without_ttl_is_a_map 9 "a" "0" (InMemoryStore.set 0 "a" "1" None []))
    as (H & _ & _).
  - by repeat constructor.
  - rewrite H. reflexivity.
Defined.

(** ** Execution context: what transitions keep *)

Lemma truthy_nonempty (s : string) : s ≠ "" -> truthy (Some s) = Some s.
Proof. by destruct s. Qed.

Lemma js_or_nonempty (s : string) b : s ≠ "" -> js_or (Some s) b = Some s.
Proof. intros H. unfold js_or. by rewrite truthy_nonempty. Qed.

(** X8.  A context made for a stored task takes the task's [contextId] as
    its id, whatever the message and the [id] argument say, and every
    transition keeps the task's id and [contextId]: the [taskId] argument
    of a transition and the fresh uuids are never used once a task
    exists. *)
Theorem transitions_keep_identity
    (uuid : string) (messageContextId id : option string) (refs : option (list Task))
    (t : Task) (trs : list Transition) :
  task_id t ≠ "" -> task_contextId t ≠ "" ->
  let c := applyTransitions (newContext uuid messageContextId (Some t) refs id) trs in
  cx_id c = task_contextId t
  /\ exists t', currentTask c = Some t'
       /\ task_id t' = task_id t /\ task_contextId t' = task_contextId t.
Proof.
  intros Hid Hctx. cbn zeta.
  assert (forall c,
            (cx_id c = task_contextId t /\
             exists t', currentTask c = Some t' /\ task_id t' = task_id t
                        /\ task_contextId t' = task_contextId t) ->
            let c' := applyTransitions c trs in
            cx_id c' = task_contextId t /\
            exists t', currentTask c' = Some t' /\ task_id t' = task_id t
                       /\ task_contextId t' = task_contextId t) as Hinv.
  { induction trs as [|tr trs IH]; intros c Hc; [done|].
    apply (IH (applyTransition c tr)).
    destruct Hc as (Hcx & t' & Ht' & Hid' & Hctx').
    unfold applyTransition. cbn. split; [done|].
    eexists. split; [reflexivity|]. cbn. rewrite Ht'. cbn.
    rewrite Hid', js_or_nonempty, truthy_nonempty by done. done. }
  apply Hinv. unfold newContext. cbn.
  rewrite !js_or_nonempty, truthy_nonempty by done. cbn. eauto.
Qed.

Lemma transitions_keep_identity_witness :
  let c := applyTransitions
             (newContext "uuid-context-0" (Some "other-context") (Some storedTask) None
                         (Some "yet-another"))
             [mkTransition fresh0 None working (Some "ignored");
              mkTransition fresh1 (Some emptyTaskParams) completed None] in
  cx_id c = "ctx-1"
  /\ exists t', currentTask c = Some t' /\ task_id t' = "task-1"
                /\ task_contextId t' = "ctx-1".
Proof.
  apply (transitions_keep_identity "uuid-context-0" (Some "other-context")
           (Some "yet-another") None storedTask); done.
Defined.

Lemma applyTransitions_snoc c trs tr :
  applyTransitions c (trs ++ [tr]) = applyTransition (applyTransitions c trs) tr.
Proof. apply foldl_snoc. Qed.

(** X9.  After any number of transitions (at least one), the task's
    artifacts are those it had before followed by the artifacts of every
    transition, in call order: none is dropped, replaced or merged, also
    when artifact ids repeat.  The state is that of the last transition. *)
Theorem transitions_accumulate_artifacts
    (c : AgentExecutionContext) (trs : list Transition) (tr : Transition) :
  let c' := applyTransitions c (trs ++ [tr]) in
  exists t', currentTask c' = Some t'
    /\ artifacts t' =
       Some (default [] (currentTask c ≫= artifacts)
             ++ concat (tr_artifacts <$> (trs ++ [tr])))
    /\ state (status t') = tr_state tr.
Proof.
  cbn zeta. revert tr.
  induction trs as [|tr0 trs IH] using rev_ind; intros tr.
  - cbn. eexists. split; [reflexivity|]. cbn.
    unfold _mergeArtifacts, tr_artifacts. cbn. by rewrite app_nil_r.
  - destruct (IH tr0) as (t0 & Ht0 & Harts & _).
    rewrite applyTransitions_snoc. unfold applyTransition at 1. cbn.
    eexists. split; [reflexivity|]. cbn. rewrite Ht0. cbn. rewrite Harts. cbn.
    unfold _mergeArtifacts. cbn.
    rewrite (fmap_app _ (trs ++ [tr0]) [tr]), concat_app. cbn.
    by rewrite app_nil_r, <- app_assoc.
Qed.

(** ** Task stream: the state machine *)

Lemma sendStatus_fields s :
  closed (_sendTaskStatusUpdate s) = closed s /\ cx (_sendTaskStatusUpdate s) = cx s.
Proof. unfold _sendTaskStatusUpdate. by destruct (currentTask (cx s)). Qed.

(** What the terminate check does to an open stream. *)
Lemma terminate_check_open s :
  closed s = false ->
  (closed (_terminateIfPendingOrFinalState s) = true <->
   terminated (_terminateIfPendingOrFinalState s)).
Proof.
  intros Hopen. split; [|apply terminate_check_closes].
  unfold terminated, _terminateIfPendingOrFinalState.
  destruct (currentTask (cx s)) as [task|] eqn:Ht; [|by rewrite Hopen].
  destruct (isPendingTaskState (state (status task))) eqn:Hp;
    destruct (isFinalTaskState (state (status task))) eqn:Hf; cbn;
    rewrite ?Hopen; try done; intros _; exists task; by rewrite Ht, Hp, Hf.
Qed.

(** X11.  After every successful producer call the stream is closed
    exactly when its task is in a terminal or pending state. *)
Theorem closed_iff_terminated fr c s s' :
  call fr c s = Ok s' -> (closed s' = true <-> terminated s').
Proof.
  destruct c; unfold call, writeArtifact, start, reject, authRequired, inputRequired,
    complete, transition, _ensureOpen, mbind, Result_bind;
    destruct (closed s) eqn:Hopen; try done;
    try (destruct (currentTask (cx s)) as [task|]; [|done]);
    intros H; injection H as <-; apply terminate_check_open; cbn;
    repeat match goal with
           | |- context [if ?b then _ else _] => destruct b
           end;
    cbn; rewrite ?(proj1 (sendStatus_fields _)); done.
Qed.

Lemma closed_iff_terminated_witness :
  (closed completedStream = true <-> terminated completedStream)
  /\ (closed workingStream = true <-> terminated workingStream).
Proof.
  split.
  - apply (closed_iff_terminated fresh1 (Complete emptyTaskParams) workingStream).
    reflexivity.
  - apply (closed_iff_terminated fresh1 (WriteArtifact chunk None) submittedStream).
    reflexivity.
Defined.

(** X12.  [reject], [authRequired], [inputRequired] and [complete] on an
    open stream move the task to their state and enqueue a status-update
    carrying the new status, whose [final] flag is true for the terminal
    states and false for the pending ones, before their [await]; the
    stream is still open then.  The call closes the stream and enqueues
    the end-of-stream sentinel with the task's id and context when it
    runs on, if the task is still as the call left it; if another call
    has moved the task to working meanwhile, it does neither.  So a call
    that is awaited with no other producer call under way enqueues
    exactly two events, the status-update and then the sentinel, and
    leaves the stream closed. *)
Theorem terminal_transition_events (st : TaskState) fr taskParams s :
  st ∈ [rejected; auth_required; input_required; completed] ->
  closed s = false ->
  let moved := fst (setOrUpdateTask fr (cx s) (Some taskParams) st None) in
  let update := StatusUpdate (task_id moved) (task_contextId moved) (status moved)
                             (bool_decide (st ∈ [rejected; completed])) in
  let last := EndOfStream (Some (task_id moved)) (Some (task_contextId moved)) in
  exists s1,
    transitionHead st fr taskParams s = Ok (s1, Some CheckLeft)
    /\ currentTask (cx s1) = Some moved
    /\ state (status moved) = st
    /\ closed s1 = false
    /\ streamQueue s1 = InMemoryQueue.enqueue update (streamQueue s)
    /\ (forall s2, currentTask (cx s2) = Some moved ->
        resume CheckLeft s2 =
          (mkStream true (cx s2) (InMemoryQueue.enqueue last (streamQueue s2)), None))
    /\ (forall s2 task, currentTask (cx s2) = Some task ->
        state (status task) ∈ [submitted; working] ->
        resume CheckLeft s2 = (s2, None))
    /\ closed (settle (Some CheckLeft) s1) = true
    /\ streamQueue (settle (Some CheckLeft) s1) =
       InMemoryQueue.enqueueAll [update; last] (streamQueue s).
Proof.
  intros Hst Hopen. cbn zeta. unfold transitionHead, _ensureOpen, mbind, Result_bind.
  rewrite Hopen. eexists. split; [reflexivity|].
  rewrite !elem_of_cons, elem_of_nil in Hst.
  assert (forall s2 task, currentTask (cx s2) = Some task ->
            state (status task) ∈ [submitted; working] ->
            resume CheckLeft s2 = (s2, None)) as Hback.
  { intros s2 task Ht Hs. cbn. unfold _terminateIfPendingOrFinalState. rewrite Ht.
    rewrite !elem_of_cons, elem_of_nil in Hs. by destruct Hs as [->|[->|[]]]. }
  destruct Hst as [->|[->|[->|[->|[]]]]]; cbn; rewrite ?Hopen;
    (repeat split; try done);
    intros s2 Ht; unfold _terminateIfPendingOrFinalState; by rewrite Ht.
Qed.

Lemma terminal_transition_events_witness :
  exists s1,
    transitionHead completed fresh1 emptyTaskParams workingStream = Ok (s1, Some CheckLeft)
    /\ closed s1 = false
    /\ closed (settle (Some CheckLeft) s1) = true
    /\ InMemoryQueue.items (streamQueue (settle (Some CheckLeft) s1)) =
       InMemoryQueue.items (streamQueue workingStream) ++
       [StatusUpdate "task-1" "ctx-1"
          (mkTaskStatus completed (Some (now fresh1)) (Some howMany)) true;
        EndOfStream (Some "task-1") (Some "ctx-1")].
Proof.
  destruct (terminal_transition_events completed fresh1 emptyTaskParams workingStream)
    as (s1 & Hh & _ & _ & Ho & _ & _ & _ & Hc & Hq).
  - set_solver.
  - reflexivity.
  - exists s1. split; [exact Hh|]. split; [exact Ho|]. split; [exact Hc|].
    rewrite Hq. reflexivity.
Defined.

(** X13.  [start] on a task that is already working does nothing at all:
    no event is enqueued, the task is not touched and the params passed
    (artifacts, message, metadata) are dropped.  On any other state it
    applies the params, moves the task to working and enqueues one
    status-update. *)
Theorem start_on_working fr taskParams s task :
  closed s = false -> currentTask (cx s) = Some task ->
  (state (status task) = working -> start fr taskParams s = Ok s)
  /\ (state (status task) ≠ working ->
      let moved := fst (setOrUpdateTask fr (cx s) (Some taskParams) working None) in
      exists s', start fr taskParams s = Ok s'
        /\ currentTask (cx s') = Some moved
        /\ closed s' = false
        /\ streamQueue s' =
           InMemoryQueue.enqueue
             (StatusUpdate (task_id moved) (task_contextId moved) (status moved) false)
             (streamQueue s)).
Proof.
  intros Hopen Htask. unfold start, _ensureOpen, mbind, Result_bind.
  rewrite Hopen, Htask. split; intros Hst.
  - rewrite bool_decide_eq_false_2 by (intros H; by apply H).
    by rewrite (terminate_working s task).
  - rewrite bool_decide_eq_true_2 by done. cbn zeta.
    eexists. split; [reflexivity|]. cbn. by rewrite Hopen.
Qed.

Lemma start_on_working_witness :
  start fresh1 (mkTaskParams (Some [art "a9" "nine"]) (Some hello) None) workingStream =
  Ok workingStream.
Proof.
  destruct (start_on_working fresh1
              (mkTaskParams (Some [art "a9" "nine"]) (Some hello) None) workingStream
              (default storedTask (currentTask (cx workingStream))))
    as [H _]; [reflexivity|reflexivity|].
  apply H. reflexivity.
Defined.

(** X14.  [writeArtifact] never stores the artifact in the task: on an
    open stream the call leaves the task with the artifacts it had, in
    state working, before its first [await], and nothing that runs after
    an [await] of a producer call touches the task.  When the call is
    awaited with no other producer call under way, the stream is still
    open at its end: the terminate check at the end of [writeArtifact]
    does not fire then. *)
Theorem writeArtifact_not_stored fr params send s task :
  closed s = false ->
  currentTask (cx s) = Some task ->
  exists s1 k task1,
    writeArtifactHead fr params send s = Ok (s1, Some k)
    /\ currentTask (cx s1) = Some task1
    /\ default [] (artifacts task1) = default [] (artifacts task)
    /\ state (status task1) = working
    /\ closed s1 = false
    /\ (forall k' s2, cx (fst (resume k' s2)) = cx s2)
    /\ cx (settle (Some k) s1) = cx s1
    /\ closed (settle (Some k) s1) = false.
Proof.
  intros Hopen Htask. unfold writeArtifactHead, _ensureOpen, mbind, Result_bind.
  rewrite Hopen, Htask.
  destruct (decide (state (status task) = working)) as [Hw|Hw].
  - rewrite bool_decide_eq_false_2 by (intros H; by apply H).
    eexists _, _, task. split; [reflexivity|]. cbn.
    unfold _terminateIfPendingOrFinalState. cbn. rewrite Htask, Hw. cbn.
    repeat split; try done. apply resume_cx.
  - rewrite bool_decide_eq_true_2 by done.
    assert (default [] (artifacts (_createOrUpdateTask fr (cx s) (Some emptyTaskParams)
                                     working None)) = default [] (artifacts task)) as Ha.
    { cbn. by rewrite Htask, app_nil_r. }
    destruct (default true send); eexists _, _, _; (split; [reflexivity|]);
      (split; [reflexivity|]); (split; [exact Ha|]); (split; [done|]);
      (split; [cbn; by rewrite ?Hopen|]); (split; [apply resume_cx|]);
      cbn; by rewrite ?Hopen.
Qed.

Lemma writeArtifact_not_stored_witness :
  exists s1 k task1,
    writeArtifactHead fresh1 chunk None submittedStream = Ok (s1, Some k)
    /\ currentTask (cx s1) = Some task1
    /\ default [] (artifacts task1) = [art "a0" "zero"]
    /\ state (status task1) = working
    /\ closed (settle (Some k) s1) = false.
Proof.
  destruct (writeArtifact_not_stored fresh1 chunk None submittedStream
              (default storedTask (currentTask (cx submittedStream))))
    as (s1 & k & task1 & Hh & Ht & Ha & Hs & _ & _ & _ & Hc); [reflexivity|reflexivity|].
  exists s1, k, task1. repeat split; try done.
Defined.

(** ** Task stream: what a producer puts on the queue *)

Lemma sendStatus_events s :
  exists evs, Forall (fun e => isEndOfStream e = false) evs
    /\ _sendTaskStatusUpdate s =
       mkStream (closed s) (cx s) (InMemoryQueue.enqueueAll evs (streamQueue s)).
Proof.
  unfold _sendTaskStatusUpdate. destruct (currentTask (cx s)) as [task|].
  - eexists [_]. split; [|reflexivity]. by repeat constructor.
  - exists []. split; [constructor|]. by destruct s.
Qed.

Lemma terminate_events s :
  exists ends,
    (ends = [] /\ closed (_terminateIfPendingOrFinalState s) = closed s
     \/ (exists taskId contextId, ends = [EndOfStream taskId contextId])
        /\ closed (_terminateIfPendingOrFinalState s) = true)
    /\ streamQueue (_terminateIfPendingOrFinalState s) =
       InMemoryQueue.enqueueAll ends (streamQueue s).
Proof.
  unfold _terminateIfPendingOrFinalState.
  destruct (currentTask (cx s)) as [task|]; [destruct (_ || _)|].
  - eexists [_]. split; [right; eauto|reflexivity].
  - exists []. split; [by left|reflexivity].
  - exists []. split; [by left|reflexivity].
Qed.

(** What one successful producer call enqueues: events that are not the
    sentinel, then the sentinel if and only if the call closes the
    stream. *)
Lemma call_events fr c s s' :
  call fr c s = Ok s' ->
  closed s = false
  /\ exists evs ends,
      Forall (fun e => isEndOfStream e = false) evs
      /\ (ends = [] /\ closed s' = false
          \/ (exists taskId contextId, ends = [EndOfStream taskId contextId])
             /\ closed s' = true)
      /\ streamQueue s' = InMemoryQueue.enqueueAll (evs ++ ends) (streamQueue s).
Proof.
  assert (Hend : forall s0 evs,
    closed s0 = false ->
    Forall (fun e => isEndOfStream e = false) evs ->
    streamQueue s0 = InMemoryQueue.enqueueAll evs (streamQueue s) ->
    exists evs ends,
      Forall (fun e => isEndOfStream e = false) evs
      /\ (ends = [] /\ closed (_terminateIfPendingOrFinalState s0) = false
          \/ (exists taskId contextId, ends = [EndOfStream taskId contextId])
             /\ closed (_terminateIfPendingOrFinalState s0) = true)
      /\ streamQueue (_terminateIfPendingOrFinalState s0) =
         InMemoryQueue.enqueueAll (evs ++ ends) (streamQueue s)).
  { intros s0 evs Hopen Hevs Hq.
    destruct (terminate_events s0) as (ends & Hends & Hq').
    exists evs, ends. split; [done|]. split.
    - destruct Hends as [[-> Hc]|[He Hc]]; [left|right]; by rewrite ?Hc.
    - by rewrite Hq', Hq, enqueueAll_app. }
  destruct c; unfold call, writeArtifact, start, reject, authRequired, inputRequired,
    complete, transition, _ensureOpen, mbind, Result_bind;
    destruct (closed s) eqn:Hopen; try done;
    try (destruct (currentTask (cx s)) as [task|]; [|done]);
    intros H; injection H as <-; (split; [done|]).
  - (* writeArtifact *)
    destruct (bool_decide _); [destruct (default true sendTaskStatusUpdate)|].
    + destruct (sendStatus_events (updateTask fr emptyTaskParams working s))
        as (evs & Hevs & ->).
      eapply (Hend _ (evs ++ [_])); [done|..]; cycle 1.
      * cbn. by rewrite enqueueAll_app.
      * apply Forall_app. split; [done|]. by apply Forall_singleton.
    + eapply (Hend _ [_]); [done|..]; cycle 1; [reflexivity|].
      by apply Forall_singleton.
    + eapply (Hend _ [_]); [done|..]; cycle 1; [reflexivity|].
      by apply Forall_singleton.
  - (* start *)
    destruct (bool_decide _).
    + destruct (sendStatus_events (updateTask fr taskParams working s))
        as (evs & Hevs & ->).
      by eapply (Hend _ evs).
    + by eapply (Hend _ []).
  - destruct (sendStatus_events (updateTask fr taskParams rejected s))
      as (evs & Hevs & ->). by eapply (Hend _ evs).
  - destruct (sendStatus_events (updateTask fr taskParams auth_required s))
      as (evs & Hevs & ->). by eapply (Hend _ evs).
  - destruct (sendStatus_events (updateTask fr taskParams input_required s))
      as (evs & Hevs & ->). by eapply (Hend _ evs).
  - destruct (sendStatus_events (updateTask fr taskParams completed s))
      as (evs & Hevs & ->). by eapply (Hend _ evs).
Qed.

Lemma removelast_Forall {A} (P : A -> Prop) (l : list A) :
  Forall P l -> Forall P (removelast l).
Proof.
  induction 1 as [|x l Hx Hl IH]; [constructor|].
  cbn. destruct l; [constructor|]. by constructor.
Qed.

(** The queue of a stream nobody dequeues from: the sentinel is on it
    exactly when the stream is closed, once, and last. *)
Lemma runCalls_sentinel calls : forall s,
  InMemoryQueue.pendingDequeuePromises (streamQueue s) = [] ->
  (if closed s
   then exists evs end_, InMemoryQueue.items (streamQueue s) = evs ++ [end_]
          /\ Forall (fun e => isEndOfStream e = false) evs
          /\ isEndOfStream end_ = true
   else Forall (fun e => isEndOfStream e = false) (InMemoryQueue.items (streamQueue s))) ->
  let s' := runCalls s calls in
  InMemoryQueue.pendingDequeuePromises (streamQueue s') = []
  /\ (if closed s'
      then exists evs end_, InMemoryQueue.items (streamQueue s') = evs ++ [end_]
             /\ Forall (fun e => isEndOfStream e = false) evs
             /\ isEndOfStream end_ = true
      else Forall (fun e => isEndOfStream e = false)
             (InMemoryQueue.items (streamQueue s'))).
Proof.
  induction calls as [|[fr c] calls IH]; intros s Hp Hinv; [done|].
  cbn zeta. change (runCalls s ((fr, c) :: calls))
    with (runCalls (match call fr c s with Ok s' => s' | Throw _ => s end) calls).
  destruct (call fr c s) as [s1|] eqn:Hcall; [|by apply IH].
  destruct (call_events _ _ _ _ Hcall) as (Hopen & evs & ends & Hevs & Hends & Hq).
  rewrite Hopen in Hinv. rewrite enqueueAll_no_waiter in Hq by done.
  apply IH; rewrite Hq; [done|]. cbn.
  destruct Hends as [[-> ->]|[(taskId & contextId & ->) ->]].
  - rewrite app_nil_r. by apply Forall_app.
  - exists (InMemoryQueue.items (streamQueue s) ++ evs), (EndOfStream taskId contextId).
    split; [by rewrite !app_assoc|]. split; [by apply Forall_app|done].
Qed.

Lemma sendStatus_sentinel s :
  sentinelOnlyIfClosed s -> sentinelOnlyIfClosed (_sendTaskStatusUpdate s).
Proof.
  intros [Hp Hs]. unfold _sendTaskStatusUpdate.
  destruct (currentTask (cx s)) as [task|]; [|done].
  split; cbn; rewrite enqueue_no_waiter by done; [done|].
  intros Hc. apply Forall_app. split; [by apply Hs|]. by apply Forall_singleton.
Qed.

Lemma enqueueArtifact_sentinel task params s :
  sentinelOnlyIfClosed s -> sentinelOnlyIfClosed (enqueueArtifact task params s).
Proof.
  intros [Hp Hs]. split; cbn; rewrite enqueue_no_waiter by done; [done|].
  intros Hc. apply Forall_app. split; [by apply Hs|]. by apply Forall_singleton.
Qed.

Lemma terminate_sentinel s :
  sentinelOnlyIfClosed s -> sentinelOnlyIfClosed (_terminateIfPendingOrFinalState s).
Proof.
  intros [Hp Hs]. unfold _terminateIfPendingOrFinalState.
  destruct (currentTask (cx s)) as [task|]; [|done].
  destruct (_ || _); [|done].
  split; cbn; rewrite enqueue_no_waiter by done; done.
Qed.

Lemma updateTask_sentinel fr params st s :
  sentinelOnlyIfClosed s -> sentinelOnlyIfClosed (updateTask fr params st s).
Proof. done. Qed.

Lemma resume_sentinel k s :
  sentinelOnlyIfClosed s -> sentinelOnlyIfClosed (fst (resume k s)).
Proof.
  destruct k; cbn; [apply enqueueArtifact_sentinel|apply terminate_sentinel].
Qed.

Lemma callHead_sentinel fr c s s' k :
  callHead fr c s = Ok (s', k) -> sentinelOnlyIfClosed s -> sentinelOnlyIfClosed s'.
Proof.
  intros Hcall Hs.
  destruct c; cbn in Hcall;
    unfold writeArtifactHead, startHead, transitionHead, _ensureOpen, mbind, Result_bind
      in Hcall;
    destruct (closed s); try done;
    try (destruct (currentTask (cx s)) as [task|]; [|done]);
    try (destruct (bool_decide _));
    try (destruct (default true sendTaskStatusUpdate));
    injection Hcall as <- <-;
    auto using sendStatus_sentinel, enqueueArtifact_sentinel, terminate_sentinel,
               updateTask_sentinel.
Qed.

Lemma producerStep_sentinel P a :
  sentinelOnlyIfClosed (prod_stream P) ->
  sentinelOnlyIfClosed (prod_stream (producerStep P a)).
Proof.
  intros Hs. destruct a as [fr c|i]; cbn.
  - destruct (callHead fr c (prod_stream P)) as [[s' k]|] eqn:Hcall; [|done].
    by apply (callHead_sentinel _ _ _ _ _ Hcall).
  - destruct (inFlight P !! i) as [k|]; [|done].
    pose proof (resume_sentinel k _ Hs) as Hk.
    destruct (resume k (prod_stream P)) as [s' [k'|]]; done.
Qed.

(** Whatever calls the agent makes and however they overlap, the sentinel
    is enqueued only by a step that closes the stream. *)
Lemma runProducer_sentinel steps : forall P,
  sentinelOnlyIfClosed (prod_stream P) ->
  sentinelOnlyIfClosed (prod_stream (runProducer P steps)).
Proof.
  induction steps as [|a steps IH]; intros P Hs; [done|].
  apply IH. by apply producerStep_sentinel.
Qed.

(** A call made with nothing under way and run on to its end is the call
    run in one go. *)
Lemma awaited_steps fr c P :
  inFlight P = [] ->
  let P' := runProducer P [Invoke fr c; Continue 0; Continue 0] in
  inFlight P' = []
  /\ prod_stream P' = match call fr c (prod_stream P) with
                      | Ok s' => s'
                      | Throw _ => prod_stream P
                      end.
Proof.
  intros Hin. cbn zeta. rewrite <- call_awaited. unfold callAwaited, mbind, Result_bind.
  cbn. destruct (callHead fr c (prod_stream P)) as [[s1 [[task params|]|]]|];
    cbn; rewrite ?Hin; cbn; done.
Qed.

Lemma awaitEach_runCalls calls : forall P,
  inFlight P = [] ->
  inFlight (runProducer P (awaitEach calls)) = []
  /\ prod_stream (runProducer P (awaitEach calls)) = runCalls (prod_stream P) calls.
Proof.
  induction calls as [|[fr c] calls IH]; intros P Hin; [done|].
  change (awaitEach ((fr, c) :: calls))
    with ([Invoke fr c; Continue 0; Continue 0] ++ awaitEach calls).
  unfold runProducer. rewrite foldl_app.
  fold (runProducer P [Invoke fr c; Continue 0; Continue 0]).
  fold (runProducer (runProducer P [Invoke fr c; Continue 0; Continue 0]) (awaitEach calls)).
  destruct (awaited_steps fr c P Hin) as [Hin' Hs].
  destruct (IH _ Hin') as [IH1 IH2]. split; [done|].
  rewrite IH2, Hs. reflexivity.
Qed.

(** X15.  On a stream nobody dequeues from, whatever producer calls the
    agent makes, whichever of them throw and however they overlap, the
    end-of-stream sentinel is on the queue only if the stream is closed.
    For an agent that awaits each call before it makes the next, the
    sentinel is enqueued at most once and nothing after it: no event but
    the last is the sentinel, and the last one is the sentinel exactly
    when the stream is closed.  For calls that overlap this fails: of two
    [complete] calls made in a row without [await], each enqueues its
    status-update and then each enqueues the sentinel. *)
Theorem sentinel_once_and_last s calls steps :
  closed s = false ->
  streamQueue s = InMemoryQueue.empty ->
  (let s' := prod_stream (runProducer (newProducer s) steps) in
   closed s' = false -> noSentinel (InMemoryQueue.items (streamQueue s')))
  /\ (let s' := prod_stream (runProducer (newProducer s) (awaitEach calls)) in
      let evs := InMemoryQueue.items (streamQueue s') in
      noSentinel (removelast evs)
      /\ (closed s' = true <-> isEndOfStream <$> last evs = Some true))
  /\ (forall fr1 fr2 p1 p2,
      let P := runProducer (newProducer s)
                 [Invoke fr1 (Complete p1); Invoke fr2 (Complete p2);
                  Continue 0; Continue 0] in
      outcomes P = [None; None]
      /\ exists u1 u2 e1 e2,
          InMemoryQueue.items (streamQueue (prod_stream P)) = [u1; u2; e1; e2]
          /\ noSentinel [u1; u2]
          /\ isEndOfStream e1 = true /\ isEndOfStream e2 = true).
Proof.
  intros Hopen Hq. split; [|split].
  - cbn zeta. intros Hc.
    apply (runProducer_sentinel steps (newProducer s)); [|exact Hc].
    split; cbn; rewrite Hq; [done|]. intros _. constructor.
  - destruct (awaitEach_runCalls calls (newProducer s) eq_refl) as [_ ->].
    change (prod_stream (newProducer s)) with s.
    destruct (runCalls_sentinel calls s) as [_ H].
    { by rewrite Hq. }
    { rewrite Hopen, Hq. constructor. }
    cbn zeta. destruct (closed (runCalls s calls)).
    + destruct H as (evs & end_ & -> & Hevs & Hend).
      rewrite removelast_last, last_snoc. cbn. by rewrite Hend.
    + split; [by apply removelast_Forall|]. split; [done|].
      destruct (last _) as [e|] eqn:Hlast; [|done].
      apply last_Some in Hlast as [l' Hl']. rewrite Hl' in H.
      apply Forall_app in H as [_ H]. rewrite Forall_singleton in H.
      cbn. congruence.
  - intros fr1 fr2 p1 p2. destruct s as [cl c q]. cbn in Hopen, Hq. subst cl q.
    cbn zeta. split; [reflexivity|].
    eexists _, _, _, _. split; [reflexivity|].
    split; [by repeat constructor|done].
Qed.

Lemma sentinel_once_and_last_witness :
  let evs := InMemoryQueue.items (streamQueue (prod_stream
    (runProducer (newProducer submittedStream)
       (awaitEach
          [(fresh1, WriteArtifact chunk None); (fresh1, Complete emptyTaskParams);
           (fresh1, WriteArtifact chunk None); (fresh1, Complete emptyTaskParams)])))) in
  noSentinel (removelast evs)
  /\ length evs = 4.
Proof.
  split; [|reflexivity].
  apply (sentinel_once_and_last submittedStream
           [(fresh1, WriteArtifact chunk None); (fresh1, Complete emptyTaskParams);
            (fresh1, WriteArtifact chunk None); (fresh1, Complete emptyTaskParams)] []);
    reflexivity.
Defined.

(** ** Task stream: the task keeps its identity *)

Lemma truthy_Some o (s : string) : truthy o = Some s -> s ≠ "".
Proof. destruct o as [[|a o]|]; cbn; by intros [= <-]. Qed.

Lemma setOrUpdateTask_identity fr c taskParams st task :
  currentTask c = Some task -> task_id task ≠ "" ->
  let task' := fst (setOrUpdateTask fr c taskParams st None) in
  currentTask (snd (setOrUpdateTask fr c taskParams st None)) = Some task'
  /\ task_id task' = task_id task
  /\ task_contextId task' = cx_id c
  /\ cx_id (snd (setOrUpdateTask fr c taskParams st None)) = cx_id c.
Proof.
  intros Ht Hid. cbn. rewrite Ht. cbn.
  destruct (task_id task) as [|a i] eqn:Hi; [done|]. done.
Qed.

(** One producer call keeps the id and the context of the stream's
    task. *)
Lemma call_identity fr c s s' task :
  call fr c s = Ok s' ->
  currentTask (cx s) = Some task -> task_id task ≠ "" ->
  task_contextId task = cx_id (cx s) ->
  exists task', currentTask (cx s') = Some task'
    /\ task_id task' = task_id task
    /\ task_contextId task' = cx_id (cx s')
    /\ cx_id (cx s') = cx_id (cx s).
Proof.
  intros Hcall Ht Hid Hc.
  assert (Hupd : forall taskParams st,
    let s1 := _sendTaskStatusUpdate (updateTask fr taskParams st s) in
    exists task', currentTask (cx s1) = Some task'
      /\ task_id task' = task_id task
      /\ task_contextId task' = cx_id (cx s1)
      /\ cx_id (cx s1) = cx_id (cx s)).
  { intros taskParams st s1. subst s1. rewrite (proj2 (sendStatus_fields _)).
    destruct (setOrUpdateTask_identity fr (cx s) (Some taskParams) st task Ht Hid)
      as (H1 & H2 & H3 & H4).
    eexists. split; [exact H1|]. by rewrite H2, H3. }
  assert (Hupd' : forall taskParams st,
    let s1 := updateTask fr taskParams st s in
    exists task', currentTask (cx s1) = Some task'
      /\ task_id task' = task_id task
      /\ task_contextId task' = cx_id (cx s1)
      /\ cx_id (cx s1) = cx_id (cx s)).
  { intros taskParams st s1. subst s1.
    destruct (setOrUpdateTask_identity fr (cx s) (Some taskParams) st task Ht Hid)
      as (H1 & H2 & H3 & H4).
    eexists. split; [exact H1|]. by rewrite H2, H3. }
  revert Hcall.
  destruct c; unfold call, writeArtifact, start, reject, authRequired, inputRequired,
    complete, transition, _ensureOpen, mbind, Result_bind;
    destruct (closed s) eqn:Hopen; try done; rewrite ?Ht;
    intros H; injection H as <-; rewrite terminate_cx.
  - destruct (bool_decide _); [destruct (default true sendTaskStatusUpdate)|]; cbn [cx].
    + apply Hupd.
    + apply Hupd'.
    + by exists task.
  - destruct (bool_decide _); [apply Hupd|by exists task].
  - apply Hupd.
  - apply Hupd.
  - apply Hupd.
  - apply Hupd.
Qed.

Lemma runCalls_identity calls : forall s task,
  currentTask (cx s) = Some task -> task_id task ≠ "" ->
  task_contextId task = cx_id (cx s) ->
  exists task', currentTask (cx (runCalls s calls)) = Some task'
    /\ task_id task' = task_id task
    /\ task_contextId task' = task_contextId task.
Proof.
  induction calls as [|[fr c] calls IH]; intros s task Ht Hid Hc; [by exists task|].
  change (runCalls s ((fr, c) :: calls))
    with (runCalls (match call fr c s with Ok s' => s' | Throw _ => s end) calls).
  destruct (call fr c s) as [s1|] eqn:Hcall; [|by apply IH].
  destruct (call_identity _ _ _ _ _ Hcall Ht Hid Hc) as (task1 & Ht1 & Hid1 & Hc1 & Hcx).
  destruct (IH s1 task1) as (task' & Ht' & Hid' & Hc'); [done|by rewrite Hid1|done|].
  exists task'. split; [done|]. split; [by rewrite Hid', Hid1|].
  by rewrite Hc', Hc1, Hcx.
Qed.

(** X10.  [context.stream(cb)] always gets its task stream made (the
    constructor's "no current task" error cannot occur there), and
    whatever the callback does with the stream (any producer calls, some
    of which may throw), the stream's task keeps the id and the context id
    of the task that [stream] returned: the comparison that [message/send]
    makes between [taskStream.getTask()] and [currentTask] never fails for
    such a result.  The task id is the current task's, else the [taskId]
    given, else a fresh uuid. *)
Theorem stream_keeps_identity fr c taskId initialTaskState calls :
  uuid_task fr ≠ "" ->
  exists r task,
    cx_stream fr c taskId initialTaskState = Ok r
    /\ getTask (runCalls (taskStream r) calls) = Ok task
    /\ task_id task = task_id (sr_currentTask r)
    /\ task_contextId task = task_contextId (sr_currentTask r)
    /\ task_contextId task = cx_id c
    /\ task_id task =
       default (uuid_task fr) (truthy (js_or (task_id <$> currentTask c) taskId)).
Proof.
  intros Huuid.
  set (task0 := fst (setOrUpdateTask fr c None (default submitted initialTaskState) taskId)).
  assert (Hid : task_id task0 ≠ "").
  { cbn. destruct (truthy _) as [i|] eqn:Hi; cbn; [|done].
    by apply truthy_Some in Hi. }
  destruct (runCalls_identity calls
              (mkStream false
                 (snd (setOrUpdateTask fr c None (default submitted initialTaskState) taskId))
                 InMemoryQueue.empty) task0) as (task & Ht & Hi & Hc); [done..|].
  exists (mkStreamResult
            (mkStream false
               (snd (setOrUpdateTask fr c None (default submitted initialTaskState) taskId))
               InMemoryQueue.empty) task0), task.
  split; [reflexivity|]. cbn [taskStream sr_currentTask].
  unfold getTask. rewrite Ht. by rewrite Hi, Hc.
Qed.

Lemma stream_keeps_identity_witness :
  exists r task,
    cx_stream fresh0 resumedContext None None = Ok r
    /\ getTask (runCalls (taskStream r)
         [(fresh1, WriteArtifact chunk None); (fresh1, Complete emptyTaskParams)]) = Ok task
    /\ task_id task = task_id (sr_currentTask r)
    /\ task_contextId task = task_contextId (sr_currentTask r)
    /\ task_contextId task = "ctx-1"
    /\ task_id task = "task-1".
Proof.
  apply (stream_keeps_identity fresh0 resumedContext None None
           [(fresh1, WriteArtifact chunk None); (fresh1, Complete emptyTaskParams)]).
  discriminate.
Defined.

(** ** Task stream consumer: order of delivery *)

Lemma callResolve_nextId p v ch : nextId (callResolve p v ch) = nextId ch.
Proof. unfold callResolve. by destruct (tapPromises ch !! p). Qed.

Lemma broadcastTo_frame event ch r :
  consumer (broadcastTo event ch r) = consumer ch
  /\ consumeGen (broadcastTo event ch r) = consumeGen ch
  /\ nextId (broadcastTo event ch r) = nextId ch
  /\ tapGens (broadcastTo event ch r) = tapGens ch
  /\ iterated (broadcastTo event ch r) = iterated ch.
Proof.
  unfold broadcastTo. destruct (tapperHeap ch !! r) as [t|]; [|done].
  destruct (resolve t) as [p|]; [|done].
  unfold callResolve. by destruct (tapPromises ch !! p).
Qed.

Lemma broadcast_frame event ch :
  consumer (broadcast event ch) = consumer ch
  /\ consumeGen (broadcast event ch) = consumeGen ch
  /\ nextId (broadcast event ch) = nextId ch
  /\ tapGens (broadcast event ch) = tapGens ch
  /\ iterated (broadcast event ch) = iterated ch.
Proof.
  unfold broadcast. generalize (tappers (consumer ch)). intros rs.
  revert ch. induction rs as [|r rs IH]; intros ch; [done|]. cbn.
  destruct (IH (broadcastTo event ch r)) as (H1 & H2 & H3 & H4 & H5).
  destruct (broadcastTo_frame event ch r) as (G1 & G2 & G3 & G4 & G5).
  by rewrite H1, H2, H3, H4, H5.
Qed.

Lemma notifyEnd_frame ch r :
  consumer (notifyEnd ch r) = consumer ch
  /\ nextId (notifyEnd ch r) = nextId ch
  /\ tapGens (notifyEnd ch r) = tapGens ch
  /\ tapperHeap (notifyEnd ch r) = tapperHeap ch
  /\ iterated (notifyEnd ch r) = iterated ch.
Proof.
  unfold notifyEnd. destruct (tapperHeap ch !! r) as [t|]; [|done].
  destruct (resolve t) as [p|]; [|done].
  unfold callResolve. by destruct (tapPromises ch !! p).
Qed.

Lemma notify_frame (rs : list nat) : forall ch,
  consumer (foldl notifyEnd ch rs) = consumer ch
  /\ nextId (foldl notifyEnd ch rs) = nextId ch
  /\ tapGens (foldl notifyEnd ch rs) = tapGens ch
  /\ tapperHeap (foldl notifyEnd ch rs) = tapperHeap ch
  /\ iterated (foldl notifyEnd ch rs) = iterated ch.
Proof.
  induction rs as [|r rs IH]; intros ch; [done|]. cbn.
  destruct (IH (notifyEnd ch r)) as (H1 & H2 & H3 & H4 & H5).
  destruct (notifyEnd_frame ch r) as (G1 & G2 & G3 & G4 & G5).
  by rewrite H1, H2, H3, H4, H5.
Qed.

Lemma consumeFinally_frame g ch :
  cons_streamQueue (consumer (consumeFinally g ch)) = cons_streamQueue (consumer ch)
  /\ consumeGen (consumeFinally g ch) = Some (mkGenerator ConsumeDone (yielded g))
  /\ nextId (consumeFinally g ch) = nextId ch
  /\ finished (consumer (consumeFinally g ch)) = true
  /\ tappers (consumer (consumeFinally g ch)) = []
  /\ tapGens (consumeFinally g ch) = tapGens ch
  /\ tapperHeap (consumeFinally g ch) = tapperHeap ch.
Proof.
  unfold consumeFinally.
  destruct (notify_frame (tappers (consumer ch)) ch) as (H1 & H2 & H3 & H4 & H5).
  cbn. by rewrite H1, H2, H3, H4.
Qed.

(** An [inOrder] state depends on the queue, the generator of [consume()]
    and the bound on the promise ids only. *)
Lemma inOrder_frame E ch ch' :
  inOrder E ch ->
  cons_streamQueue (consumer ch') = cons_streamQueue (consumer ch) ->
  consumeGen ch' = consumeGen ch ->
  nextId ch <= nextId ch' ->
  inOrder E ch'.
Proof.
  intros [Ho Hp Hs Hg] Hq Hgen Hn. split; rewrite ?Hq, ?Hgen; try done.
  - eapply Forall_impl; [exact Hp|]. cbn. lia.
  - eapply Forall_impl; [exact Hs|]. cbn. lia.
Qed.

Lemma inOrder_done E g ch :
  InMemoryQueue._isClosed (cons_streamQueue (consumer ch)) = false ->
  Forall (fun p => p < nextId ch)
         (InMemoryQueue.pendingDequeuePromises (cons_streamQueue (consumer ch))) ->
  Forall (fun r => fst r < nextId ch)
         (InMemoryQueue.settled (cons_streamQueue (consumer ch))) ->
  Forall (fun e => isEndOfStream e = false) (yielded g) ->
  yielded g `prefix_of` E ->
  inOrder E (consumeFinally g ch).
Proof.
  intros Ho Hp Hs Hy Hpre.
  destruct (consumeFinally_frame g ch) as (H1 & H2 & H3 & _).
  split; rewrite ?H1, ?H2, ?H3; try done.
  eexists. split; [reflexivity|]. by split.
Qed.

Lemma resolution_fresh (p : nat) (q : InMemoryQueue.t AgentStreamEvent) n :
  Forall (fun r => fst r < n) (InMemoryQueue.settled q) -> n <= p ->
  InMemoryQueue.resolution p q = None.
Proof.
  intros Hs Hn. unfold InMemoryQueue.resolution.
  destruct (list_find _ _) as [[i r]|] eqn:Hf; [|done].
  apply list_find_Some in Hf as (Hi & Hr & _).
  apply list_elem_of_lookup_2 in Hi. rewrite Forall_forall in Hs.
  specialize (Hs _ Hi). lia.
Qed.

Lemma consumeLoop_inOrder E g ch :
  InMemoryQueue._isClosed (cons_streamQueue (consumer ch)) = false ->
  InMemoryQueue.pendingDequeuePromises (cons_streamQueue (consumer ch)) = [] ->
  Forall (fun r => fst r < nextId ch)
         (InMemoryQueue.settled (cons_streamQueue (consumer ch))) ->
  Forall (fun e => isEndOfStream e = false) (yielded g) ->
  yielded g ++ InMemoryQueue.items (cons_streamQueue (consumer ch)) = E ->
  inOrder E (consumeLoop g ch).
Proof.
  intros Ho Hp Hs Hy HE. unfold consumeLoop.
  destruct (aborted (consumer ch)) eqn:Hab.
  { apply inOrder_done; try done; [by rewrite Hp|]. rewrite <- HE. by apply prefix_app_r. }
  pose proof (resolution_fresh (nextId ch) _ _ Hs (le_n _)) as Hres.
  destruct ch as [[tps cons fin q ab] heap proms gen it gens n].
  destruct q as [its cl pend setl]. cbn in *. subst cl pend.
  unfold InMemoryQueue.dequeue. cbn.
  destruct its as [|x rest]; cbn.
  - split; cbn; try done.
    + repeat constructor.
    + eapply Forall_impl; [exact Hs|]. cbn. lia.
    + eexists. split; [reflexivity|]. split; [done|]. cbn. left.
      by rewrite app_nil_r in HE.
  - unfold consumeEvent. destruct (isEndOfStream x) eqn:Hx.
    + apply inOrder_done; cbn; try done.
      * eapply Forall_impl; [exact Hs|]. cbn. lia.
      * rewrite <- HE. by apply prefix_app_r.
    + split; cbn; try done.
      * eapply Forall_impl; [exact Hs|]. cbn. lia.
      * eexists. split; [reflexivity|]. cbn. split.
        -- apply Forall_app. split; [done|]. by apply Forall_singleton.
        -- split; [done|]. by rewrite <- app_assoc.
Qed.

Lemma resolveLoop_ids n (pend : list nat) : forall (its : list AgentStreamEvent) log,
  Forall (fun p => p < n) pend -> Forall (fun r => fst r < n) log ->
  Forall (fun p => p < n) (fst (fst (InMemoryQueue.resolveLoop pend its log)))
  /\ Forall (fun r => fst r < n) (snd (InMemoryQueue.resolveLoop pend its log)).
Proof.
  induction pend as [|p pend IH]; intros its log Hp Hd; [done|].
  destruct its as [|x its]; [done|]. cbn.
  apply Forall_cons in Hp as [Hp Hps]. apply IH; [done|].
  apply Forall_app. split; [done|]. by apply Forall_singleton.
Qed.

Lemma enqueue_ids n event (q : InMemoryQueue.t AgentStreamEvent) :
  Forall (fun p => p < n) (InMemoryQueue.pendingDequeuePromises q) ->
  Forall (fun r => fst r < n) (InMemoryQueue.settled q) ->
  Forall (fun p => p < n) (InMemoryQueue.pendingDequeuePromises (InMemoryQueue.enqueue event q))
  /\ Forall (fun r => fst r < n) (InMemoryQueue.settled (InMemoryQueue.enqueue event q))
  /\ InMemoryQueue._isClosed (InMemoryQueue.enqueue event q) = InMemoryQueue._isClosed q.
Proof.
  intros Hp Hs. unfold InMemoryQueue.enqueue, InMemoryQueue.resolvePendingPromises. cbn.
  destruct (resolveLoop_ids n _ (InMemoryQueue.items q ++ [event]) _ Hp Hs) as [H1 H2].
  by destruct (InMemoryQueue.resolveLoop _ _ _) as [[pend its] log].
Qed.

Lemma resolution_snoc (p : nat) (event : AgentStreamEvent) its cl pend setl :
  InMemoryQueue.resolution p (InMemoryQueue.mk its cl pend setl) = None ->
  forall its' pend',
  InMemoryQueue.resolution p (InMemoryQueue.mk its' cl pend' (setl ++ [(p, Some event)])) =
  Some (Some event).
Proof.
  unfold InMemoryQueue.resolution. cbn. intros Hnone its' pend'.
  destruct (list_find (fun r => fst r = p) setl) as [[i r]|] eqn:Hf; [done|].
  clear Hnone.
  assert (Forall (fun r : nat * option AgentStreamEvent => fst r ≠ p) setl) as Hall.
  { by apply (list_find_None (fun r : nat * option AgentStreamEvent => fst r = p)). }
  assert (list_find (fun r : nat * option AgentStreamEvent => fst r = p)
            (setl ++ [(p, Some event)]) = Some (length setl, (p, Some event))) as ->; [|done].
  apply list_find_Some. split; [|split].
  - by rewrite lookup_app_r, Nat.sub_diag by lia.
  - done.
  - intros j y Hj Hlt. rewrite lookup_app_l in Hj by done.
    apply list_elem_of_lookup_2 in Hj. rewrite Forall_forall in Hall. by apply Hall.
Qed.

(** The steps of the subscribers and the abort signal leave the queue and
    the generator of [consume()] alone. *)
Lemma tap_steps_frame ch a :
  match a with
  | Abort | Tap | TapNext _ | TapResume _ => True
  | _ => False
  end ->
  cons_streamQueue (consumer (step ch a)) = cons_streamQueue (consumer ch)
  /\ consumeGen (step ch a) = consumeGen ch
  /\ nextId ch <= nextId (step ch a)
  /\ finished (consumer (step ch a)) = finished (consumer ch)
  /\ iterated (step ch a) = iterated ch.
Proof.
  destruct a as [event| | | | |r|r]; try done; intros _; cbn.
  - repeat split; try done; cbn; lia.
  - unfold tapNext. destruct (tapGens ch !! r) as [g|]; [|repeat split; try done; cbn; lia].
    destruct (pc g); try (repeat split; try done; cbn; lia); unfold tapLoop; cbn.
    + destruct (finished (consumer ch)) eqn:Hf; [repeat split; try done; cbn; try lia|].
      rewrite lookup_insert_eq. cbn. repeat split; try done; cbn; lia.
    + destruct (finished (consumer ch)) eqn:Hf; [repeat split; try done; cbn; try lia|].
      destruct (tapperHeap ch !! r) as [t|]; [|repeat split; try done; cbn; lia].
      destruct (queue t); cbn; repeat split; try done; cbn; lia.
  - unfold tapResume. destruct (tapGens ch !! r) as [g|]; [|repeat split; try done; cbn; lia].
    destruct (pc g); try (repeat split; try done; cbn; lia).
    destruct (tapPromises ch !! p) as [[e|]|]; repeat split; try done; cbn; lia.
Qed.

Lemma inOrder_step E ch a :
  inOrder E ch -> inOrder (E ++ enqueued [a]) (step ch a).
Proof.
  intros Hord.
  destruct a as [event| | | | |r|r];
    try (rewrite app_nil_r;
         destruct (tap_steps_frame ch Abort I) as (H1 & H2 & H3 & _);
         destruct (tap_steps_frame ch Tap I) as (H1' & H2' & H3' & _);
         first [ destruct (tap_steps_frame ch (TapNext r) I) as (G1 & G2 & G3 & _);
                 destruct (tap_steps_frame ch (TapResume r) I) as (G1' & G2' & G3' & _)
               | idtac ];
         by eapply inOrder_frame).
  - (* the producer enqueues *)
    destruct Hord as [Ho Hp Hs (g & Hg & Hy & Hpc)].
    destruct (enqueue_ids (nextId ch) event _ Hp Hs) as (Hp' & Hs' & Ho').
    split; cbn -[InMemoryQueue.enqueue]; try done; [by rewrite Ho'|].
    exists g. split; [done|]. split; [done|]. cbn zeta in *.
    destruct (cons_streamQueue (consumer ch)) as [its cl pend setl]. cbn in *.
    destruct (pc g) as [|p|e|].
    + destruct Hpc as [-> <-]. cbn. split; [done|]. by rewrite app_assoc.
    + destruct Hpc as [(-> & -> & Hres & <-)|(e & -> & Hres & <-)].
      * right. exists event.
        unfold InMemoryQueue.enqueue, InMemoryQueue.resolvePendingPromises. cbn.
        split; [done|]. split; [|done].
        exact (resolution_snoc p event [] cl [p] setl Hres [] []).
      * right. exists e. unfold InMemoryQueue.enqueue, InMemoryQueue.resolvePendingPromises.
        cbn. split; [done|]. split; [done|]. by rewrite <- app_assoc.
    + destruct Hpc as [-> <-]. cbn. split; [done|]. by rewrite app_assoc.
    + by apply prefix_app_r.
  - (* next() on the generator of consume() *)
    rewrite app_nil_r. cbn. destruct (iterated ch); [|done].
    destruct Hord as [Ho Hp Hs (g & Hg & Hy & Hpc)].
    unfold consumeNext. rewrite Hg. cbn zeta in Hpc.
    destruct (pc g) as [|p|e|] eqn:Hpcg.
    + destruct Hpc as [Hpend HE].
      destruct (consuming (consumer ch) || finished (consumer ch)).
      * split; cbn; try done. eexists. split; [reflexivity|]. split; [done|].
        cbn. rewrite <- HE. by apply prefix_app_r.
      * by apply consumeLoop_inOrder.
    + split; try done. exists g. by rewrite Hpcg.
    + destruct Hpc as [Hpend HE].
      destruct (broadcast_frame e ch) as (H1 & H2 & H3 & _).
      apply consumeLoop_inOrder; by rewrite ?H1, ?H3.
    + split; try done. exists g. by rewrite Hpcg.
  - (* the awaited dequeue promise has a value *)
    rewrite app_nil_r. cbn.
    destruct Hord as [Ho Hp Hs (g & Hg & Hy & Hpc)].
    unfold consumeResume. rewrite Hg. cbn zeta in Hpc.
    destruct (pc g) as [|p|e|] eqn:Hpcg;
      try (split; try done; exists g; by rewrite Hpcg).
    destruct Hpc as [(Hpend & Hits & Hres & HE)|(e & Hpend & Hres & HE)]; rewrite Hres.
    + split; try done. exists g. rewrite Hpcg. split; [done|]. split; [done|]. by left.
    + unfold consumeEvent. destruct (isEndOfStream e) eqn:He.
      * apply inOrder_done; try done. rewrite <- HE. by apply prefix_app_r.
      * split; cbn; try done. eexists. split; [reflexivity|]. cbn. split.
        -- apply Forall_app. split; [done|]. by apply Forall_singleton.
        -- split; [done|]. by rewrite <- app_assoc.
Qed.

Lemma inOrder_run trace : forall E ch,
  inOrder E ch -> inOrder (E ++ enqueued trace) (run ch trace).
Proof.
  induction trace as [|a trace IH]; intros E ch Hord; [by rewrite app_nil_r|].
  change (run ch (a :: trace)) with (run (step ch a) trace).
  change (a :: trace) with ([a] ++ trace).
  rewrite enqueued_app, app_assoc. apply IH. by apply inOrder_step.
Qed.

Lemma inOrder_received E ch :
  inOrder E ch ->
  primaryReceived ch `prefix_of` E
  /\ Forall (fun e => isEndOfStream e = false) (primaryReceived ch).
Proof.
  intros [Ho Hp Hs (g & Hg & Hy & Hpc)]. unfold primaryReceived. rewrite Hg.
  split; [|done]. cbn zeta in Hpc.
  destruct (pc g).
  - destruct Hpc as [_ <-]. by apply prefix_app_r.
  - destruct Hpc as [(_ & _ & _ & <-)|(e & _ & _ & <-)]; [done|by apply prefix_app_r].
  - destruct Hpc as [_ <-]. by apply prefix_app_r.
  - done.
Qed.

(** X16.  The [for await] loop of [message/stream] over [consume()] is
    given the produced events in the order of production, each at most
    once, and never the end-of-stream sentinel: whatever the producer,
    the abort signal and the subscribers do and however their steps
    interleave, what the loop has received is a prefix of the events the
    stream was given. *)
Theorem primary_receives_in_order ts abortSignal trace :
  InMemoryQueue._isClosed (streamQueue ts) = false ->
  InMemoryQueue.pendingDequeuePromises (streamQueue ts) = [] ->
  InMemoryQueue.settled (streamQueue ts) = [] ->
  let ch := run (streamingChannel ts abortSignal) trace in
  primaryReceived ch `prefix_of` (InMemoryQueue.items (streamQueue ts) ++ enqueued trace)
  /\ Forall (fun e => isEndOfStream e = false) (primaryReceived ch).
Proof.
  intros Ho Hp Hs. apply inOrder_received, inOrder_run.
  split; cbn; rewrite ?Ho, ?Hp, ?Hs; try done.
  eexists. split; [reflexivity|]. by cbn.
Qed.

Lemma primary_receives_in_order_witness :
  primaryReceived (run liveChannel (twoTappers ++ firstEvent ++ secondEvent))
    `prefix_of` [artifactEvent "a1" "one"; artifactEvent "a2" "two"; sentinel].
Proof.
  apply (primary_receives_in_order (taskStream sendHiResult) None
           (twoTappers ++ firstEvent ++ secondEvent)); reflexivity.
Defined.

(** ** Task stream consumer: what the subscribers are given *)

Lemma tapsWithin_frame B ch ch' :
  tapsWithin B ch ->
  tapPromises ch' = tapPromises ch -> tapperHeap ch' = tapperHeap ch ->
  tapGens ch' = tapGens ch -> nextId ch <= nextId ch' ->
  tapsWithin B ch'.
Proof.
  intros [Hf Hb Ht] Hp Hh Hg Hn. split.
  - intros p Hp'. rewrite Hp. apply Hf. lia.
  - intros r t p. rewrite Hh. intros H1 H2. specialize (Hb _ _ _ H1 H2). lia.
  - intros r g. rewrite Hg. intros H. unfold awaited. rewrite Hp. exact (Ht r g H).
Qed.

Lemma awaited_notify p ch g :
  awaited (callResolve p None ch) g = awaited ch g.
Proof.
  unfold awaited, callResolve. destruct (pc g) as [|p'| |]; try done.
  destruct (tapPromises ch !! p) eqn:Hp; [done|]. cbn.
  destruct (decide (p = p')) as [<-|Hne].
  - by rewrite lookup_insert_eq, Hp.
  - by rewrite lookup_insert_ne.
Qed.

Lemma callResolve_fresh p v ch :
  p < nextId ch ->
  (forall p', nextId ch <= p' -> tapPromises ch !! p' = None) ->
  forall p', nextId ch <= p' -> tapPromises (callResolve p v ch) !! p' = None.
Proof.
  intros Hp Hf p' Hp'. unfold callResolve.
  destruct (tapPromises ch !! p); [by apply Hf|]. cbn.
  rewrite lookup_insert_ne by lia. by apply Hf.
Qed.

Lemma tapsWithin_notify B (rs : list nat) : forall ch,
  tapsWithin B ch -> tapsWithin B (foldl notifyEnd ch rs).
Proof.
  induction rs as [|r rs IH]; intros ch Hw; [done|]. cbn. apply IH.
  unfold notifyEnd. destruct (tapperHeap ch !! r) as [t|] eqn:Ht; [|done].
  destruct (resolve t) as [p|] eqn:Hp; [|done].
  destruct Hw as [Hf Hb Hts].
  destruct (callResolve_fields p None ch) as (Hh & _ & _ & Hg).
  split.
  - rewrite callResolve_nextId. apply callResolve_fresh; [exact (Hb _ _ _ Ht Hp)|done].
  - rewrite callResolve_nextId, Hh. apply Hb.
  - intros r' g. rewrite Hg, awaited_notify. apply Hts.
Qed.

Lemma tapsWithin_finally B g ch :
  tapsWithin B ch -> tapsWithin B (consumeFinally g ch).
Proof.
  intros Hw. apply (tapsWithin_frame B (foldl notifyEnd ch (tappers (consumer ch))));
    [by apply tapsWithin_notify|done..].
Qed.

Lemma tapsDuring_broadcastTo B e ch r :
  tapsDuring B e ch -> tapsDuring B e (broadcastTo e ch r).
Proof.
  intros [Hf Hb Hts]. unfold broadcastTo.
  destruct (tapperHeap ch !! r) as [t|] eqn:Ht; [|done].
  destruct (resolve t) as [p|] eqn:Hp.
  - destruct (callResolve_fields p (Some e) ch) as (Hh & _ & _ & Hg).
    split.
    + rewrite callResolve_nextId. apply callResolve_fresh; [exact (Hb _ _ _ Ht Hp)|done].
    + rewrite callResolve_nextId, Hh. apply Hb.
    + intros r' g. rewrite Hg. intros Hr'. specialize (Hts _ _ Hr').
      unfold awaited, callResolve in *.
      destruct (tapPromises ch !! p) eqn:Hpp; [done|]. cbn.
      destruct (pc g) as [|p'| |]; try done.
      destruct (decide (p = p')) as [<-|Hne].
      * rewrite lookup_insert_eq. rewrite Hpp in Hts. right. split; [|done].
        destruct Hts as [Hs|[Hs _]]; [by rewrite app_nil_r in Hs|done].
      * by rewrite lookup_insert_ne.
  - split; cbn; [done| |done].
    intros r' t' p. destruct (decide (r = r')) as [<-|Hne].
    + rewrite lookup_insert_eq. intros [= <-]. cbn. intros Hr. by rewrite Hr in Hp.
    + rewrite lookup_insert_ne by done. apply Hb.
Qed.

Lemma tapsWithin_broadcast B e ch :
  tapsWithin B ch -> tapsWithin (B ++ [e]) (broadcast e ch).
Proof.
  intros [Hf Hb Hts].
  assert (tapsDuring B e (broadcast e ch)) as [Hf' Hb' Hts'].
  { unfold broadcast. generalize (tappers (consumer ch)). intros rs.
    assert (tapsDuring B e ch) as Hd.
    { split; [done..|]. intros r g Hg. left. exact (Hts r g Hg). }
    clear Hf Hb Hts. revert ch Hd. induction rs as [|r rs IH]; intros ch Hd; [done|].
    cbn. apply IH. by apply tapsDuring_broadcastTo. }
  split; [done..|]. intros r g Hg.
  destruct (Hts' _ _ Hg) as [Hs|[Hs ->]].
  - by apply sublist_inserts_r.
  - by apply sublist_app.
Qed.

Lemma tapsWithin_consumeEvent B g e ch :
  tapsWithin B ch -> tapsWithin B (consumeEvent g e ch).
Proof.
  intros Hw. unfold consumeEvent.
  destruct (isEndOfStream e); [by apply tapsWithin_finally|].
  by apply (tapsWithin_frame B ch).
Qed.

Lemma tapsWithin_consumeLoop B g ch :
  tapsWithin B ch -> tapsWithin B (consumeLoop g ch).
Proof.
  intros Hw. unfold consumeLoop.
  destruct (aborted (consumer ch)); [by apply tapsWithin_finally|]. cbn.
  assert (forall q, tapsWithin B
    (setQueue q (mkChannel (consumer ch) (tapperHeap ch) (tapPromises ch) (consumeGen ch)
                   (iterated ch) (tapGens ch) (S (nextId ch))))) as Hq.
  { intros q. apply (tapsWithin_frame B ch); cbn; try done. lia. }
  destruct (InMemoryQueue.dequeue _ _) as [[[event|]|] q].
  - apply tapsWithin_consumeEvent, Hq.
  - apply tapsWithin_finally, Hq.
  - apply (tapsWithin_frame B ch); cbn; try done. lia.
Qed.

Lemma broadcastSoFar_finally g ch :
  broadcastSoFar (consumeFinally g ch) = yielded g.
Proof.
  unfold broadcastSoFar. by rewrite (proj1 (proj2 (consumeFinally_frame g ch))).
Qed.

Lemma broadcastSoFar_consumeEvent g e ch :
  broadcastSoFar (consumeEvent g e ch) = yielded g
  /\ forall g' e', consumeGen (consumeEvent g e ch) = Some g' -> pc g' = ConsumeYield e' ->
       exists ys, yielded g' = ys ++ [e'].
Proof.
  unfold consumeEvent. destruct (isEndOfStream e).
  - split; [apply broadcastSoFar_finally|].
    intros g' e'. rewrite (proj1 (proj2 (consumeFinally_frame g ch))).
    by intros [= <-].
  - unfold broadcastSoFar. cbn. split; [apply removelast_last|].
    intros g' e' [= <-]. cbn. intros [= <-]. eauto.
Qed.

Lemma broadcastSoFar_consumeLoop g ch :
  broadcastSoFar (consumeLoop g ch) = yielded g
  /\ forall g' e', consumeGen (consumeLoop g ch) = Some g' -> pc g' = ConsumeYield e' ->
       exists ys, yielded g' = ys ++ [e'].
Proof.
  unfold consumeLoop.
  assert (forall ch0, broadcastSoFar (consumeFinally g ch0) = yielded g
    /\ forall g' e', consumeGen (consumeFinally g ch0) = Some g' -> pc g' = ConsumeYield e' ->
         exists ys, yielded g' = ys ++ [e']) as Hfin.
  { intros ch0. split; [apply broadcastSoFar_finally|].
    intros g' e'. rewrite (proj1 (proj2 (consumeFinally_frame g ch0))).
    by intros [= <-]. }
  destruct (aborted (consumer ch)); [apply Hfin|]. cbn.
  destruct (InMemoryQueue.dequeue _ _) as [[[event|]|] q].
  - apply broadcastSoFar_consumeEvent.
  - apply Hfin.
  - split; [done|]. by intros g' e' [= <-].
Qed.

Lemma tapsWithin_tapFinally B r g ch :
  tapsWithin B ch -> yielded g `sublist_of` B -> tapsWithin B (tapFinally r g ch).
Proof.
  intros [Hf Hb Hts] Hy. split; cbn; [done..|].
  intros r' g'. destruct (decide (r = r')) as [<-|Hne].
  - rewrite lookup_insert_eq. intros [= <-]. cbn. by rewrite app_nil_r.
  - rewrite lookup_insert_ne by done. apply Hts.
Qed.

Lemma tapsWithin_tapLoop B r g ch :
  tapsWithin B ch -> yielded g `sublist_of` B ->
  (forall t, tapperHeap ch !! r = Some t -> queue t = []) ->
  tapsWithin B (tapLoop r g ch).
Proof.
  intros Hw Hy Hq. unfold tapLoop.
  destruct (finished (consumer ch)); [by apply tapsWithin_tapFinally|].
  destruct (tapperHeap ch !! r) as [t|] eqn:Ht; [|done].
  rewrite (Hq t eq_refl). cbn. destruct Hw as [Hf Hb Hts]. split; cbn.
  - intros p Hp. apply Hf. lia.
  - intros r' t' p. destruct (decide (r = r')) as [<-|Hne].
    + rewrite lookup_insert_eq. intros [= <-]. cbn. intros [= <-]. lia.
    + rewrite lookup_insert_ne by done. intros H1 H2. specialize (Hb _ _ _ H1 H2). lia.
  - intros r' g'. destruct (decide (r = r')) as [<-|Hne].
    + rewrite lookup_insert_eq. intros [= <-]. unfold awaited. cbn.
      rewrite (Hf (nextId ch)) by lia. by rewrite app_nil_r.
    + rewrite lookup_insert_ne by done. apply Hts.
Qed.

Lemma tapsInOrder_step ch a : tapsInOrder ch -> tapsInOrder (step ch a).
Proof.
  intros [Hu Hw Hy].
  pose proof (unbuffered_step ch a Hu) as Hu'.
  split; [exact Hu'|..]; clear Hu'.
  - destruct a as [event| | | | |r|r]; cbn.
    + by apply (tapsWithin_frame _ ch).
    + by apply (tapsWithin_frame _ ch).
    + destruct (iterated ch); [|done]. unfold consumeNext.
      destruct (consumeGen ch) as [g|] eqn:Hg; [|done].
      destruct (pc g) as [|p|e|] eqn:Hpc; try done.
      * destruct (consuming (consumer ch) || finished (consumer ch)).
        -- unfold broadcastSoFar in *. cbn. rewrite Hg, Hpc in Hw.
           by apply (tapsWithin_frame _ ch).
        -- rewrite (proj1 (broadcastSoFar_consumeLoop _ _)).
           apply tapsWithin_consumeLoop.
           unfold broadcastSoFar in Hw. rewrite Hg, Hpc in Hw.
           by apply (tapsWithin_frame _ ch).
      * rewrite (proj1 (broadcastSoFar_consumeLoop _ _)).
        apply tapsWithin_consumeLoop.
        destruct (Hy g e eq_refl Hpc) as [ys Hys].
        unfold broadcastSoFar in Hw. rewrite Hg, Hpc, Hys, removelast_last in Hw.
        rewrite Hys. by apply tapsWithin_broadcast.
    + unfold consumeResume. destruct (consumeGen ch) as [g|] eqn:Hg; [|done].
      destruct (pc g) as [|p|e|] eqn:Hpc; try done.
      destruct (InMemoryQueue.resolution _ _) as [[event|]|]; [| |done].
      * rewrite (proj1 (broadcastSoFar_consumeEvent _ _ _)).
        apply tapsWithin_consumeEvent.
        unfold broadcastSoFar in Hw. by rewrite Hg, Hpc in Hw.
      * rewrite broadcastSoFar_finally. apply tapsWithin_finally.
        unfold broadcastSoFar in Hw. by rewrite Hg, Hpc in Hw.
    + (* tap() *)
      destruct Hw as [Hf Hb Hts].
      change (broadcastSoFar _) with (broadcastSoFar ch). split; cbn.
      * intros p Hp. apply Hf. lia.
      * intros r t p H1 H2. specialize (Hb _ _ _ H1 H2). lia.
      * intros r g. destruct (decide (nextId ch = r)) as [<-|Hne].
        -- rewrite lookup_insert_eq. intros [= <-]. apply sublist_nil_l.
        -- rewrite lookup_insert_ne by done. apply Hts.
    + (* next() on a tap generator *)
      assert (broadcastSoFar (tapNext r ch) = broadcastSoFar ch) as ->.
      { unfold broadcastSoFar. change (tapNext r ch) with (step ch (TapNext r)).
        by rewrite (proj1 (proj2 (tap_steps_frame ch (TapNext r) I))). }
      unfold tapNext.
      destruct (tapGens ch !! r) as [g|] eqn:Hg; [|done].
      assert (yielded g `sublist_of` broadcastSoFar ch) as Hyg.
      { etrans; [|exact (tw_taps _ _ Hw r g Hg)]. by apply sublist_inserts_r. }
      destruct (pc g); try done.
      * apply tapsWithin_tapLoop; [|done|].
        -- destruct Hw as [Hf Hb Hts]. split; cbn; [done| |done].
           intros r' t' p. destruct (decide (r = r')) as [<-|Hne].
           ++ rewrite lookup_insert_eq. by intros [= <-].
           ++ rewrite lookup_insert_ne by done. apply Hb.
        -- cbn. rewrite lookup_insert_eq. by intros t [= <-].
      * apply tapsWithin_tapLoop; [done..|].
        intros t. apply (unbuffered_queue _ Hu).
    + (* the awaited promise of a tap generator has a value *)
      assert (broadcastSoFar (tapResume r ch) = broadcastSoFar ch) as ->.
      { unfold broadcastSoFar. change (tapResume r ch) with (step ch (TapResume r)).
        by rewrite (proj1 (proj2 (tap_steps_frame ch (TapResume r) I))). }
      unfold tapResume.
      destruct (tapGens ch !! r) as [g|] eqn:Hg; [|done].
      pose proof (tw_taps _ _ Hw r g Hg) as Hyg. unfold awaited in Hyg.
      destruct (pc g) as [|p| |]; try done.
      destruct (tapPromises ch !! p) as [[e|]|] eqn:Hp; [| |done].
      * destruct Hw as [Hf Hb Hts]. split; cbn; [done..|].
        intros r' g'. destruct (decide (r = r')) as [<-|Hne].
        -- rewrite lookup_insert_eq. intros [= <-]. cbn. by rewrite app_nil_r.
        -- rewrite lookup_insert_ne by done. apply Hts.
      * apply tapsWithin_tapFinally; [done|]. by rewrite app_nil_r in Hyg.
  - destruct a as [event| | | | |r|r]; cbn; try done.
    + destruct (iterated ch); [|done]. unfold consumeNext.
      destruct (consumeGen ch) as [g|] eqn:Hg; [|by rewrite Hg].
      destruct (pc g) as [|p|e|] eqn:Hpc; try (by rewrite Hg).
      * destruct (consuming (consumer ch) || finished (consumer ch)).
        -- cbn. by intros g' e' [= <-].
        -- apply broadcastSoFar_consumeLoop.
      * apply broadcastSoFar_consumeLoop.
    + unfold consumeResume. destruct (consumeGen ch) as [g|] eqn:Hg; [|by rewrite Hg].
      destruct (pc g) as [|p|e|] eqn:Hpc; try (by rewrite Hg).
      destruct (InMemoryQueue.resolution _ _) as [[event|]|]; [| |by rewrite Hg].
      * apply broadcastSoFar_consumeEvent.
      * intros g' e'. rewrite (proj1 (proj2 (consumeFinally_frame g ch))).
        by intros [= <-].
    + change (tapNext r ch) with (step ch (TapNext r)).
      rewrite (proj1 (proj2 (tap_steps_frame ch (TapNext r) I))). apply Hy.
    + change (tapResume r ch) with (step ch (TapResume r)).
      rewrite (proj1 (proj2 (tap_steps_frame ch (TapResume r) I))). apply Hy.
Qed.

Lemma tapsInOrder_run trace : forall ch, tapsInOrder ch -> tapsInOrder (run ch trace).
Proof.
  induction trace as [|a trace IH]; intros ch H; [done|].
  apply (IH (step ch a)). by apply tapsInOrder_step.
Qed.

Lemma broadcastSoFar_prefix ch : broadcastSoFar ch `sublist_of` primaryReceived ch.
Proof.
  unfold broadcastSoFar, primaryReceived. destruct (consumeGen ch) as [g|]; [|done].
  destruct (pc g); try done.
  destruct (yielded g) as [|y ys] using rev_ind; [done|].
  rewrite removelast_last. by apply sublist_inserts_r.
Qed.

(** X17.  A subscriber is given nothing but what the primary consumer was
    given, in the same order and each event at most once: in every state
    a consumer can reach, whatever the interleaving, the events a [tap()]
    generator has yielded are a subsequence of those the generator of
    [consume()] has yielded.  (It may be a proper one: a subscriber misses
    what is broadcast while it is busy.) *)
Theorem tapper_receives_subsequence ts abortSignal trace r :
  let ch := run (streamingChannel ts abortSignal) trace in
  received r ch `sublist_of` primaryReceived ch.
Proof.
  cbn zeta.
  assert (tapsInOrder (run (streamingChannel ts abortSignal) trace)) as [Hu Hw Hy].
  { apply tapsInOrder_run. split.
    - split.
      + intros r' t Hr'.
        change (tapperHeap (streamingChannel ts abortSignal)) with (∅ : gmap nat Tapper) in Hr'.
        by rewrite lookup_empty in Hr'.
      + intros r' Hr'. by apply elem_of_nil in Hr'.
    - split.
      + done.
      + intros r' t p Hr'.
        change (tapperHeap (streamingChannel ts abortSignal)) with (∅ : gmap nat Tapper) in Hr'.
        by rewrite lookup_empty in Hr'.
      + intros r' g Hr'.
        change (tapGens (streamingChannel ts abortSignal))
          with (∅ : gmap nat (Generator TapPc)) in Hr'.
        by rewrite lookup_empty in Hr'.
    - cbn. by intros g e [= <-]. }
  etrans; [|apply broadcastSoFar_prefix].
  unfold received. destruct (tapGens _ !! r) as [g|] eqn:Hg; [|apply sublist_nil_l].
  etrans; [|exact (tw_taps _ _ Hw r g Hg)]. by apply sublist_inserts_r.
Qed.

(** ** Task stream consumer: the abort signal *)

Lemma waiting_frame g p ch ch' :
  waiting g p ch ->
  cons_streamQueue (consumer ch') = cons_streamQueue (consumer ch) ->
  consumeGen ch' = consumeGen ch ->
  finished (consumer ch') = finished (consumer ch) ->
  iterated ch' = iterated ch ->
  waiting g p ch'.
Proof. intros [] Hq Hg Hf Hi. split; by rewrite ?Hq, ?Hg, ?Hf, ?Hi. Qed.

Lemma waiting_step g p ch a :
  waiting g p ch -> enqueued [a] = [] -> waiting g p (step ch a).
Proof.
  intros Hw Ha. destruct a as [event| | | | |r|r]; try done.
  - by apply (waiting_frame g p ch).
  - cbn. destruct Hw as [Hg Hpc Hi Hf Ho Hits Hpend Hres].
    rewrite Hi. unfold consumeNext. rewrite Hg, Hpc. by split.
  - cbn. destruct Hw as [Hg Hpc Hi Hf Ho Hits Hpend Hres].
    unfold consumeResume. rewrite Hg, Hpc, Hres. by split.
  - by apply (waiting_frame g p ch).
  - destruct (tap_steps_frame ch (TapNext r) I) as (H1 & H2 & _ & H3 & H4).
    by apply (waiting_frame g p ch).
  - destruct (tap_steps_frame ch (TapResume r) I) as (H1 & H2 & _ & H3 & H4).
    by apply (waiting_frame g p ch).
Qed.

Lemma waiting_run g p trace : forall ch,
  waiting g p ch -> enqueued trace = [] -> waiting g p (run ch trace).
Proof.
  induction trace as [|a trace IH]; intros ch Hw He; [done|].
  change (a :: trace) with ([a] ++ trace) in He. rewrite enqueued_app in He.
  apply app_eq_nil in He as [Ha He].
  apply (IH (step ch a)); [by apply waiting_step|done].
Qed.

Lemma waiting_event g p ch event :
  waiting g p ch -> isEndOfStream event = false ->
  let ch2 := run ch [Enqueue event; ConsumeResume] in
  consumeGen ch2 = Some (mkGenerator (ConsumeYield event) (yielded g ++ [event]))
  /\ finished (consumer ch2) = false
  /\ aborted (consumer ch2) = aborted (consumer ch)
  /\ iterated ch2 = true.
Proof.
  intros [Hg Hpc Hi Hf Ho Hits Hpend Hres] Hev.
  destruct ch as [[tps cons fin q ab] heap proms gen it gens n].
  destruct q as [its cl pend setl]. cbn -[InMemoryQueue.resolution] in *. subst.
  unfold consumeResume. cbn -[InMemoryQueue.resolution]. rewrite Hpc.
  unfold InMemoryQueue.enqueue, InMemoryQueue.resolvePendingPromises.
  cbn -[InMemoryQueue.resolution].
  rewrite (resolution_snoc p event [] false [p] setl Hres [] []).
  unfold consumeEvent. by rewrite Hev.
Qed.

Lemma consumeNext_aborted ch g e :
  consumeGen ch = Some g -> pc g = ConsumeYield e -> aborted (consumer ch) = true ->
  finished (consumer (consumeNext ch)) = true
  /\ primaryReceived (consumeNext ch) = yielded g.
Proof.
  intros Hg Hpc Hab. unfold consumeNext, consumeLoop. rewrite Hg, Hpc.
  rewrite (proj1 (broadcast_frame _ _)), Hab.
  destruct (consumeFinally_frame g (broadcast e ch)) as (_ & H2 & _ & H4 & _).
  split; [done|]. unfold primaryReceived. by rewrite H2.
Qed.

(** X18.  The abort signal is read at the head of the loop of [consume()]
    only.  When it trips while the consumer waits for an event, nothing
    happens until the producer enqueues one: whatever else goes on, the
    consumer does not finish and its subscribers are not released.  The
    next event is still handed to the [for await] loop; the consumer
    finishes when the loop asks for the one after. *)
Theorem abort_takes_effect_after_next_event g p ch trace event :
  waiting g p ch -> enqueued trace = [] -> isEndOfStream event = false ->
  let ch1 := run (step ch Abort) trace in
  let ch2 := run ch1 [Enqueue event; ConsumeResume] in
  finished (consumer ch1) = false
  /\ primaryReceived ch1 = yielded g
  /\ finished (consumer ch2) = false
  /\ primaryReceived ch2 = yielded g ++ [event]
  /\ finished (consumer (step ch2 ConsumeNext)) = true
  /\ primaryReceived (step ch2 ConsumeNext) = yielded g ++ [event].
Proof.
  intros Hw He Hev. cbn zeta.
  assert (waiting g p (run (step ch Abort) trace)
          /\ aborted (consumer (run (step ch Abort) trace)) = true) as [Hw1 Hab].
  { split; [apply waiting_run; [by apply (waiting_frame g p ch)|done]|].
    generalize (eq_refl : aborted (consumer (step ch Abort)) = true).
    generalize (step ch Abort). clear. intros ch Hab. revert ch Hab.
    induction trace as [|a trace IH]; intros ch Hab; [done|].
    apply (IH (step ch a)). destruct a as [event| | | | |r|r]; cbn; try done.
    - destruct (iterated ch); [|done]. unfold consumeNext.
      destruct (consumeGen ch) as [g|]; [|done].
      destruct (pc g); try done.
      + destruct (_ || _); [done|]. unfold consumeLoop. cbn. rewrite Hab.
        destruct (consumeFinally_frame g
          (setConsumer (mkConsumer (tappers (consumer ch)) true (finished (consumer ch))
             (cons_streamQueue (consumer ch)) (aborted (consumer ch))) ch)).
        unfold consumeFinally. cbn.
        by rewrite (proj1 (notify_frame _ _)).
      + unfold consumeLoop. rewrite (proj1 (broadcast_frame _ _)), Hab.
        unfold consumeFinally. cbn.
        by rewrite (proj1 (notify_frame _ _)), (proj1 (broadcast_frame _ _)).
    - unfold consumeResume. destruct (consumeGen ch) as [g|]; [|done].
      destruct (pc g); try done.
      destruct (InMemoryQueue.resolution _ _) as [[e|]|]; try done.
      + unfold consumeEvent. destruct (isEndOfStream e); [|done].
        unfold consumeFinally. cbn. by rewrite (proj1 (notify_frame _ _)).
      + unfold consumeFinally. cbn. by rewrite (proj1 (notify_frame _ _)).
    - unfold tapNext. destruct (tapGens ch !! r) as [g|]; [|done].
      destruct (pc g); try done; unfold tapLoop; cbn.
      + destruct (finished (consumer ch)); [done|]. by rewrite lookup_insert_eq.
      + destruct (finished (consumer ch)); [done|].
        destruct (tapperHeap ch !! r) as [t|]; [|done]. by destruct (queue t).
    - unfold tapResume. destruct (tapGens ch !! r) as [g|]; [|done].
      destruct (pc g); try done. by destruct (tapPromises ch !! p) as [[e|]|]. }
  destruct (waiting_event g p _ event Hw1 Hev) as (Hg2 & Hf2 & Hab2 & Hi2).
  destruct Hw1 as [Hg Hpc Hi Hf Ho Hits Hpend Hres].
  split; [done|]. split; [by unfold primaryReceived; rewrite Hg|].
  split; [done|]. split; [by unfold primaryReceived; rewrite Hg2|].
  change (step ?c ConsumeNext) with (if iterated c then consumeNext c else c).
  rewrite Hi2. rewrite Hab in Hab2.
  apply (consumeNext_aborted _ _ event Hg2 eq_refl Hab2).
Qed.

Lemma abort_takes_effect_after_next_event_witness :
  let ch1 := run (step waitingChannel Abort) [Tap; TapNext 1; ConsumeNext; ConsumeResume] in
  let ch2 := run ch1 [Enqueue (artifactEvent "a1" "one"); ConsumeResume] in
  finished (consumer ch1) = false
  /\ primaryReceived ch1 = []
  /\ finished (consumer ch2) = false
  /\ primaryReceived ch2 = [] ++ [artifactEvent "a1" "one"]
  /\ finished (consumer (step ch2 ConsumeNext)) = true
  /\ primaryReceived (step ch2 ConsumeNext) = [] ++ [artifactEvent "a1" "one"].
Proof.
  apply (abort_takes_effect_after_next_event (mkGenerator (ConsumeAwait 0) []) 0
           waitingChannel [Tap; TapNext 1; ConsumeNext; ConsumeResume]
           (artifactEvent "a1" "one")).
  - split; reflexivity.
  - reflexivity.
  - reflexivity.
Defined.

(** ** Task stream consumer: the end of the stream reaches every subscriber *)

Lemma callResolve_settled p v ch p' :
  is_Some (tapPromises ch !! p') -> is_Some (tapPromises (callResolve p v ch) !! p').
Proof.
  intros Hs. unfold callResolve. destruct (tapPromises ch !! p) eqn:Hp; [done|]. cbn.
  destruct (decide (p = p')) as [<-|Hne]; [by rewrite lookup_insert_eq|].
  by rewrite lookup_insert_ne.
Qed.

Lemma callResolve_settles p v ch : is_Some (tapPromises (callResolve p v ch) !! p).
Proof.
  unfold callResolve. destruct (tapPromises ch !! p) eqn:Hp; [by rewrite Hp|]. cbn.
  by rewrite lookup_insert_eq.
Qed.

(** The [finally] block of [consume()] settles the promise of every
    tapper of the set that has stored a [resolve]. *)
Lemma notify_settles (rs : list nat) : forall ch,
  (forall p, is_Some (tapPromises ch !! p) ->
             is_Some (tapPromises (foldl notifyEnd ch rs) !! p))
  /\ (forall r t p, r ∈ rs -> tapperHeap ch !! r = Some t -> resolve t = Some p ->
        is_Some (tapPromises (foldl notifyEnd ch rs) !! p)).
Proof.
  induction rs as [|r rs IH]; intros ch.
  { split; [done|]. by intros r t p Hin%elem_of_nil. }
  cbn. destruct (IH (notifyEnd ch r)) as [IH1 IH2].
  assert (forall p, is_Some (tapPromises ch !! p) ->
                    is_Some (tapPromises (notifyEnd ch r) !! p)) as Hmono.
  { intros p Hp. unfold notifyEnd. destruct (tapperHeap ch !! r) as [t|]; [|done].
    destruct (resolve t); [|done]. by apply callResolve_settled. }
  split; [by intros p Hp; apply IH1, Hmono|].
  intros r' t p Hin Ht Hp. apply elem_of_cons in Hin as [->|Hin].
  - apply IH1. unfold notifyEnd. rewrite Ht, Hp. apply callResolve_settles.
  - apply (IH2 r' t p Hin); [|done].
    by rewrite (proj1 (proj2 (proj2 (proj2 (notifyEnd_frame ch r))))).
Qed.

Lemma tapsAlive_finally g ch : tapsAlive ch -> tapsAlive (consumeFinally g ch).
Proof.
  intros [Hw Hm Hc].
  destruct (consumeFinally_frame g ch) as (_ & _ & _ & Hf & Ht & Hg & Hh).
  destruct (notify_settles (tappers (consumer ch)) ch) as [Hmono Hset].
  split; rewrite ?Hf, ?Ht, ?Hg; try done.
  intros r g' p Hr Hpc. left.
  change (tapPromises (consumeFinally g ch))
    with (tapPromises (foldl notifyEnd ch (tappers (consumer ch)))).
  destruct (Hw r g' p Hr Hpc) as [Hs|(_ & Hin & t & Ht' & Hp)]; [by apply Hmono|].
  by apply (Hset r t p).
Qed.

(** [tapsAlive] depends on the finished flag, the tapper set, the tapper
    objects, the promises and the tap generators only. *)
Lemma tapsAlive_frame ch ch' :
  tapsAlive ch ->
  finished (consumer ch') = finished (consumer ch) ->
  tappers (consumer ch') = tappers (consumer ch) ->
  tapperHeap ch' = tapperHeap ch -> tapPromises ch' = tapPromises ch ->
  tapGens ch' = tapGens ch ->
  tapsAlive ch'.
Proof. intros [] Hf Ht Hh Hp Hg. split; by rewrite ?Hf, ?Ht, ?Hh, ?Hp, ?Hg. Qed.

Lemma tapsAlive_consumeEvent g e ch : tapsAlive ch -> tapsAlive (consumeEvent g e ch).
Proof.
  intros Ha. unfold consumeEvent.
  destruct (isEndOfStream e); [by apply tapsAlive_finally|].
  by apply (tapsAlive_frame ch).
Qed.

Lemma tapsAlive_consumeLoop g ch : tapsAlive ch -> tapsAlive (consumeLoop g ch).
Proof.
  intros Ha. unfold consumeLoop.
  destruct (aborted (consumer ch)); [by apply tapsAlive_finally|]. cbn.
  destruct (InMemoryQueue.dequeue _ _) as [[[event|]|] q].
  - apply tapsAlive_consumeEvent. by apply (tapsAlive_frame ch).
  - apply tapsAlive_finally. by apply (tapsAlive_frame ch).
  - by apply (tapsAlive_frame ch).
Qed.

Lemma tapsAlive_broadcastTo e ch r : tapsAlive ch -> tapsAlive (broadcastTo e ch r).
Proof.
  intros [Hw Hm Hc]. unfold broadcastTo.
  destruct (tapperHeap ch !! r) as [t|] eqn:Ht; [|done].
  destruct (resolve t) as [p|] eqn:Hp.
  - destruct (callResolve_fields p (Some e) ch) as (Hh & Hcs & _ & Hg).
    split; rewrite ?Hcs, ?Hg, ?Hh; try done.
    intros r' g p' Hr' Hpc.
    destruct (Hw r' g p' Hr' Hpc) as [Hs|?]; [left; by apply callResolve_settled|by right].
  - split; cbn; try done.
    intros r' g p' Hr' Hpc.
    destruct (Hw r' g p' Hr' Hpc) as [Hs|(Hf & Hin & t' & Ht' & Hp')]; [by left|right].
    split; [done|]. split; [done|].
    destruct (decide (r = r')) as [<-|Hne].
    + rewrite Ht in Ht'. injection Ht' as <-. by rewrite Hp in Hp'.
    + exists t'. by rewrite lookup_insert_ne.
Qed.

Lemma tapsAlive_broadcast e ch : tapsAlive ch -> tapsAlive (broadcast e ch).
Proof.
  unfold broadcast. generalize (tappers (consumer ch)). intros rs. revert ch.
  induction rs as [|r rs IH]; intros ch Ha; [done|].
  cbn. apply IH. by apply tapsAlive_broadcastTo.
Qed.

Lemma tapsAlive_tapFinally r g ch : tapsAlive ch -> tapsAlive (tapFinally r g ch).
Proof.
  intros [Hw Hm Hc]. split; cbn.
  - intros r' g' p. destruct (decide (r = r')) as [<-|Hne].
    + rewrite lookup_insert_eq. by intros [= <-].
    + rewrite lookup_insert_ne by done. intros Hr' Hpc.
      destruct (Hw r' g' p Hr' Hpc) as [Hs|(Hf & Hin & Ht)]; [by left|right].
      split; [done|]. split; [|done]. apply list_elem_of_filter. by split.
  - intros r' g'. destruct (decide (r = r')) as [<-|Hne].
    + rewrite lookup_insert_eq. by intros [= <-].
    + rewrite lookup_insert_ne by done. intros Hr' H1 H2 Hf.
      apply list_elem_of_filter. split; [done|]. by apply (Hm r' g').
  - intros Hf. by rewrite (Hc Hf).
Qed.

Lemma tapsAlive_tapLoop r g ch :
  tapsAlive ch -> (finished (consumer ch) = false -> r ∈ tappers (consumer ch)) ->
  tapsAlive (tapLoop r g ch).
Proof.
  intros Ha Hin. unfold tapLoop.
  destruct (finished (consumer ch)) eqn:Hf; [by apply tapsAlive_tapFinally|].
  destruct (tapperHeap ch !! r) as [t|] eqn:Ht; [|done].
  destruct Ha as [Hw Hm Hc].
  destruct (queue t) as [|event rest]; cbn.
  - split; cbn; rewrite ?Hf; try done.
    + intros r' g' p. destruct (decide (r = r')) as [<-|Hne].
      * rewrite lookup_insert_eq. intros [= <-]. cbn. intros [= <-]. right.
        split; [done|]. split; [by apply Hin|]. rewrite lookup_insert_eq. eauto.
      * rewrite !lookup_insert_ne by done. intros Hr' Hpc.
        destruct (Hw r' g' p Hr' Hpc) as [Hs|(_ & Hin' & Ht')]; [by left|by right].
    + intros r' g'. destruct (decide (r = r')) as [<-|Hne].
      * rewrite lookup_insert_eq. intros _ _ _ _. by apply Hin.
      * rewrite lookup_insert_ne by done. intros Hr' H1 H2 _. by apply (Hm r' g').
  - split; cbn; rewrite ?Hf; try done.
    + intros r' g' p. destruct (decide (r = r')) as [<-|Hne].
      * rewrite lookup_insert_eq. by intros [= <-].
      * rewrite !lookup_insert_ne by done. intros Hr' Hpc.
        destruct (Hw r' g' p Hr' Hpc) as [Hs|(_ & Hin' & Ht')]; [by left|by right].
    + intros r' g'. destruct (decide (r = r')) as [<-|Hne].
      * rewrite lookup_insert_eq. intros _ _ _ _. by apply Hin.
      * rewrite lookup_insert_ne by done. intros Hr' H1 H2 _. by apply (Hm r' g').
Qed.

Lemma tapsAlive_step ch a : tapsAlive ch -> tapsAlive (step ch a).
Proof.
  intros Ha. destruct a as [event| | | | |r|r]; cbn.
  - by apply (tapsAlive_frame ch).
  - by apply (tapsAlive_frame ch).
  - destruct (iterated ch); [|done]. unfold consumeNext.
    destruct (consumeGen ch) as [g|]; [|done].
    destruct (pc g); try done.
    + destruct (_ || _); [by apply (tapsAlive_frame ch)|].
      apply tapsAlive_consumeLoop. by apply (tapsAlive_frame ch).
    + apply tapsAlive_consumeLoop. by apply tapsAlive_broadcast.
  - unfold consumeResume. destruct (consumeGen ch) as [g|]; [|done].
    destruct (pc g); try done.
    destruct (InMemoryQueue.resolution _ _) as [[e|]|]; [| |done].
    + by apply tapsAlive_consumeEvent.
    + by apply tapsAlive_finally.
  - destruct Ha as [Hw Hm Hc]. split; cbn; try done.
    + intros r g p. destruct (decide (nextId ch = r)) as [<-|Hne].
      * rewrite lookup_insert_eq. by intros [= <-].
      * rewrite lookup_insert_ne by done. apply Hw.
    + intros r g. destruct (decide (nextId ch = r)) as [<-|Hne].
      * rewrite lookup_insert_eq. by intros [= <-].
      * rewrite lookup_insert_ne by done. apply Hm.
  - unfold tapNext. destruct (tapGens ch !! r) as [g|] eqn:Hg; [|done].
    destruct (pc g) eqn:Hpc; try done.
    + destruct (finished (consumer ch)) eqn:Hfin.
      * unfold tapLoop. cbn. rewrite Hfin.
        destruct Ha as [Hw Hm Hc]. split; cbn; rewrite ?Hfin; try done.
        -- intros r' g' p. destruct (decide (r = r')) as [<-|Hne].
           ++ rewrite lookup_insert_eq. by intros [= <-].
           ++ rewrite lookup_insert_ne by done. intros Hr' Hpc'.
              destruct (Hw r' g' p Hr' Hpc') as [Hs|(Hf & _)]; [by left|congruence].
        -- rewrite (Hc Hfin). cbn. by rewrite decide_False by (by intros H).
      * apply tapsAlive_tapLoop; cbn; [|intros _; set_solver].
        destruct Ha as [Hw Hm Hc]. split; cbn; rewrite ?Hfin; try done.
        -- intros r' g' p Hr' Hpc'.
           destruct (Hw r' g' p Hr' Hpc') as [Hs|(Hf & Hin & t & Ht & Hp)]; [by left|right].
           split; [done|]. split; [set_solver|].
           destruct (decide (r = r')) as [<-|Hne]; [congruence|].
           exists t. by rewrite lookup_insert_ne.
        -- intros r' g' Hr' H1 H2 _. specialize (Hm r' g' Hr' H1 H2 Hfin). set_solver.
    + apply tapsAlive_tapLoop; [done|].
      intros Hf. apply (ta_member _ Ha r g Hg); [by rewrite Hpc..|done].
  - unfold tapResume. destruct (tapGens ch !! r) as [g|] eqn:Hg; [|done].
    destruct (pc g) eqn:Hpc; try done.
    destruct (tapPromises ch !! p) as [[e|]|] eqn:Hp; [| |done].
    + destruct Ha as [Hw Hm Hc]. split; cbn; try done.
      * intros r' g' p'. destruct (decide (r = r')) as [<-|Hne].
        -- rewrite lookup_insert_eq. by intros [= <-].
        -- rewrite lookup_insert_ne by done. apply Hw.
      * intros r' g'. destruct (decide (r = r')) as [<-|Hne].
        -- rewrite lookup_insert_eq. intros _ _ _ Hf.
           apply (Hm r g Hg); [by rewrite Hpc..|done].
        -- rewrite lookup_insert_ne by done. apply Hm.
    + by apply tapsAlive_tapFinally.
Qed.

Lemma tapsAlive_run trace : forall ch, tapsAlive ch -> tapsAlive (run ch trace).
Proof.
  induction trace as [|a trace IH]; intros ch H; [done|].
  apply (IH (step ch a)). by apply tapsAlive_step.
Qed.

(** X19.  When the consumer has finished, no subscriber is left waiting:
    in every state a consumer can reach in which it has finished, the
    tapper set is empty and every [tap()] generator returns as soon as it
    runs again (once the promise it awaits, which is settled, lets it go
    on and its caller asks for the next event). *)
Theorem finished_consumer_releases_tappers ts abortSignal trace r :
  let ch := run (streamingChannel ts abortSignal) trace in
  finished (consumer ch) = true ->
  is_Some (tapGens ch !! r) ->
  tappers (consumer ch) = []
  /\ (forall g p, tapGens ch !! r = Some g -> pc g = TapAwait p ->
        is_Some (tapPromises ch !! p))
  /\ (pc <$> tapGens (run ch [TapResume r; TapNext r]) !! r) = Some TapDone.
Proof.
  cbn zeta. intros Hf [g Hg].
  assert (tapsAlive (run (streamingChannel ts abortSignal) trace)) as [Hw Hm Hc].
  { apply tapsAlive_run. split; try done.
    all: intros r' g'.
    all: change (tapGens (streamingChannel ts abortSignal))
           with (∅ : gmap nat (Generator TapPc)).
    all: by rewrite lookup_empty. }
  split; [by apply Hc|].
  assert (forall g p, tapGens (run (streamingChannel ts abortSignal) trace) !! r = Some g ->
            pc g = TapAwait p ->
            is_Some (tapPromises (run (streamingChannel ts abortSignal) trace) !! p)) as Hset.
  { intros g' p Hg' Hpc. destruct (Hw r g' p Hg' Hpc) as [Hs|(Hnf & _)]; [done|].
    by rewrite Hf in Hnf. }
  split; [exact Hset|].
  specialize (Hset g). revert Hf Hg Hset.
  generalize (run (streamingChannel ts abortSignal) trace). clear. intros ch Hf Hg Hset.
  cbn. unfold tapResume. rewrite Hg.
  destruct (pc g) as [|p| |] eqn:Hpc.
  - unfold tapNext. rewrite Hg, Hpc. unfold tapLoop. cbn. rewrite Hf. cbn.
    by rewrite lookup_insert_eq.
  - destruct (Hset p Hg eq_refl) as [[e|] ->].
    + unfold tapNext. cbn. rewrite lookup_insert_eq. cbn. unfold tapLoop. cbn.
      rewrite Hf. cbn. by rewrite lookup_insert_eq.
    + unfold tapNext. cbn. rewrite lookup_insert_eq. cbn. by rewrite lookup_insert_eq.
  - unfold tapNext. rewrite Hg, Hpc. unfold tapLoop. rewrite Hf. cbn.
    by rewrite lookup_insert_eq.
  - unfold tapNext. rewrite Hg, Hpc, Hg. cbn. by rewrite Hpc.
Qed.

Lemma finished_consumer_releases_tappers_witness :
  let ch := run liveChannel (twoTappers ++ firstEvent ++ secondEvent) in
  tappers (consumer ch) = []
  /\ (pc <$> tapGens (run ch [TapResume 1; TapNext 1]) !! 1) = Some TapDone.
Proof.
  destruct (finished_consumer_releases_tappers (taskStream sendHiResult) None
              (twoTappers ++ firstEvent ++ secondEvent) 1) as (H1 & _ & H3).
  - reflexivity.
  - apply (bool_decide_unpack _). vm_compute. reflexivity.
  - split; [exact H1|exact H3].
Defined.

(** ** Request handlers *)

Section HandlerFacts.
Variable exec : IAgentExecutor.
Variable uuid : string.

(** The routing table of a started server: [start()] registers the same
    six handlers again. *)
Lemma running_route st m :
  _jsonRpcServer (runningServer exec uuid st) !! m = route exec uuid m.
Proof.
  unfold runningServer, startServer, newA2AServer. cbn [_jsonRpcServer].
  unfold registerHandlers, setRequestHandler, route.
  repeat (case_decide; [subst m; by rewrite ?lookup_insert_eq|
                        rewrite lookup_insert_ne by done]).
  repeat (rewrite lookup_insert_ne by done). apply lookup_empty.
Qed.

Lemma handleRequest_route st request abortSignal :
  handleRequest (runningServer exec uuid st) request abortSignal =
  Ok (match route exec uuid (method request) with
      | Some h => (fst (h request abortSignal st),
                   runningServer exec uuid (snd (h request abortSignal st)))
      | None => (Response (Failure (req_id request) (mkError (-32601) "Method not found")),
                 runningServer exec uuid st)
      end).
Proof.
  unfold handleRequest.
  change (_isRunning (runningServer exec uuid st)) with true. cbn [negb].
  unfold dispatch. change (serverState (runningServer exec uuid st)) with st.
  unfold Handler in *. rewrite running_route.
  destruct (route exec uuid (method request)) as [h|]; [|done].
  by destruct (h request abortSignal st).
Qed.

(** *** Every frame carries the id of its request *)

Lemma single_id (h : JSONRPCRequest -> option bool -> ServerState ->
                     JSONRPCResponse * ServerState) request abortSignal st m :
  responseId (fst (h request abortSignal st)) = req_id request ->
  Forall (fun f => responseId f = req_id request)
         (wireFrames (fst (single h request abortSignal st)) m).
Proof.
  intros H. unfold single. destruct (h request abortSignal st). cbn in *.
  by apply Forall_singleton.
Qed.

Lemma streaming_id (h : JSONRPCRequest -> option bool -> ServerState ->
                        ResponseStream * ServerState) request abortSignal st m :
  rs_id (fst (h request abortSignal st)) = req_id request ->
  Forall (fun f => responseId f = req_id request) (frames (fst (h request abortSignal st))) ->
  Forall (fun f => responseId f = req_id request)
         (wireFrames (fst (streaming h request abortSignal st)) m).
Proof.
  intros Hid Hfr. unfold streaming. destruct (h request abortSignal st) as [rs st'].
  cbn in *. unfold streamFrames. apply Forall_app. split; [done|].
  destruct (source rs); [|constructor].
  apply List.Forall_map. by apply Forall_true.
Qed.

Lemma messageSend_id request abortSignal st :
  responseId (fst (_handleMessageSend exec uuid request abortSignal st)) = req_id request.
Proof.
  unfold _handleMessageSend.
  destruct (_handleMessage exec uuid request st) as [[| |r|]|]; try done.
  destruct (getTask (taskStream r)); [|done]. destruct (_ || _); [done|].
  destruct (getConsumer _ _); [done|]. by destruct (createConsumer _ _ _).
Qed.

Lemma messageStream_id request abortSignal st :
  rs_id (fst (_handleMessageStream exec uuid request abortSignal st)) = req_id request
  /\ Forall (fun f => responseId f = req_id request)
            (frames (fst (_handleMessageStream exec uuid request abortSignal st))).
Proof.
  unfold _handleMessageStream.
  destruct (_handleMessage exec uuid request st) as [[| |r|]|]; cbn;
    try (split; [done|by repeat constructor]).
  destruct (tapOrConsume _ _ _) as [[src m']|]; cbn; split; try done; by repeat constructor.
Qed.

Lemma cancel_id request abortSignal st :
  responseId (fst (_handleTaskCancel exec request abortSignal st)) = req_id request.
Proof.
  unfold _handleTaskCancel. destruct (params request); try done.
  destruct (_taskStore st !! id); [|done]. by destruct (cancel exec t) as [[|]|].
Qed.

Lemma pushGet_id request abortSignal st :
  responseId (fst (_handleTaskPushNotificationGet request abortSignal st)) = req_id request.
Proof.
  unfold _handleTaskPushNotificationGet. destruct (params request); try done.
  by destruct (_taskStore st !! id).
Qed.

Lemma pushSet_id request abortSignal st :
  responseId (fst (_handleTaskPushNotificationSet request abortSignal st)) = req_id request.
Proof.
  unfold _handleTaskPushNotificationSet. destruct (params request); try done.
  by destruct (_taskStore st !! taskId).
Qed.

Lemma resubscribe_id request abortSignal st :
  rs_id (fst (_handleTaskResubscribe request abortSignal st)) = req_id request
  /\ Forall (fun f => responseId f = req_id request)
            (frames (fst (_handleTaskResubscribe request abortSignal st))).
Proof.
  unfold _handleTaskResubscribe.
  destruct (params request); cbn; try (split; [done|by repeat constructor]).
  destruct (_taskStore st !! id) as [task|]; cbn; [|split; [done|by repeat constructor]].
  destruct (getConsumer _ _) as [ch|]; cbn; [|split; [done|by repeat constructor]].
  destruct (tap ch). cbn. split; [done|constructor].
Qed.

(** X20.  A started server answers every request, and every response it
    gives, be it the single response, the MethodNotFound error, or any
    frame of a stream (the initial task, an event, an error), carries the
    [id] of the request. *)
Theorem responses_echo_request_id st request abortSignal m :
  exists hr srv',
    handleRequest (runningServer exec uuid st) request abortSignal = Ok (hr, srv')
    /\ Forall (fun f => responseId f = req_id request) (wireFrames hr m).
Proof.
  rewrite handleRequest_route. unfold route.
  repeat case_decide; eexists _, _; (split; [reflexivity|]).
  - apply streaming_id; apply resubscribe_id.
  - apply single_id, pushGet_id.
  - apply single_id, pushSet_id.
  - apply single_id, cancel_id.
  - apply streaming_id; apply messageStream_id.
  - apply single_id, messageSend_id.
  - by apply Forall_singleton.
Qed.

(** *** What the handlers do to the store and to the manager *)

Lemma tapOrConsume_dom ts abortSignal (m m' : gmap string Channel) src :
  tapOrConsume ts abortSignal m = Ok (src, m') ->
  dom m ⊆ dom (forAwait src m')
  /\ forall t, getTask ts = Ok t -> is_Some (forAwait src m' !! task_id t).
Proof.
  unfold tapOrConsume, createConsumer, mbind, Result_bind.
  destruct (getTask ts) as [t|]; [|done].
  destruct (m !! task_id t) as [ch|] eqn:Hm.
  - destruct (tap ch) as [r ch']. intros [= <- <-]. cbn. split.
    + rewrite dom_insert. set_solver.
    + intros t' [= <-]. by rewrite lookup_insert_eq.
  - intros [= <- <-]. cbn. split.
    + rewrite !dom_alter, dom_insert. set_solver.
    + intros t' [= <-]. by rewrite !lookup_alter_eq, lookup_insert_eq.
Qed.

Lemma messageSend_state request abortSignal st :
  let st' := snd (_handleMessageSend exec uuid request abortSignal st) in
  dom (_taskStore st) ⊆ dom (_taskStore st')
  /\ dom (_taskStreamManager st) ⊆ dom (_taskStreamManager st')
  /\ ((forall t, _handleMessage exec uuid request st ≠ Returned (TaskResult t)) ->
      _taskStore st' = _taskStore st).
Proof.
  unfold _handleMessageSend.
  destruct (_handleMessage exec uuid request st) as [[t|m|r|e]|]; cbn; try done.
  - split; [rewrite dom_insert; set_solver|]. split; [done|].
    intros H. by destruct (H t).
  - destruct (getTask (taskStream r)) as [t|] eqn:Ht; [|done].
    destruct (_ || _); [done|].
    destruct (getConsumer _ _); [done|].
    unfold createConsumer, mbind, Result_bind. rewrite Ht.
    destruct (_taskStreamManager st !! task_id t); [done|]. cbn.
    split; [done|]. split; [|done]. rewrite dom_alter, dom_insert. set_solver.
Qed.

Lemma messageStream_state request abortSignal st :
  let st' := snd (_handleMessageStream exec uuid request abortSignal st) in
  dom (_taskStore st) ⊆ dom (_taskStore st')
  /\ dom (_taskStreamManager st) ⊆ dom (_taskStreamManager st')
  /\ ((forall t, _handleMessage exec uuid request st ≠ Returned (TaskResult t)) ->
      _taskStore st' = _taskStore st).
Proof.
  unfold _handleMessageStream.
  destruct (_handleMessage exec uuid request st) as [[t|m|r|e]|]; cbn; try done.
  - split; [rewrite dom_insert; set_solver|]. split; [done|].
    intros H. by destruct (H t).
  - destruct (tapOrConsume _ _ _) as [[src m']|] eqn:Htap; [|done]. cbn.
    split; [done|]. split; [|done]. by apply (tapOrConsume_dom _ _ _ _ _ Htap).
Qed.

Lemma other_handlers_state request abortSignal st :
  snd (_handleTaskCancel exec request abortSignal st) = st
  /\ snd (_handleTaskPushNotificationGet request abortSignal st) = st
  /\ snd (_handleTaskPushNotificationSet request abortSignal st) = st
  /\ _taskStore (snd (_handleTaskResubscribe request abortSignal st)) = _taskStore st
  /\ dom (_taskStreamManager st) ⊆
     dom (_taskStreamManager (snd (_handleTaskResubscribe request abortSignal st))).
Proof.
  unfold _handleTaskCancel, _handleTaskPushNotificationGet, _handleTaskPushNotificationSet,
    _handleTaskResubscribe.
  destruct (params request) as [message|id|taskId config|]; cbn; try done.
  - destruct (_taskStore st !! id) as [task|]; cbn; [|done].
    split; [by destruct (cancel exec task) as [[|]|]|]. split; [done|]. split; [done|].
    destruct (getConsumer _ _) as [ch|]; [|done].
    destruct (tap ch). cbn. split; [done|]. rewrite dom_insert. set_solver.
  - by destruct (_taskStore st !! taskId).
Qed.

(** X21.  No request makes a started server forget a task or a stream
    consumer: after any request the store has every task id it had and
    the stream manager every consumer it had ([remove] is never called,
    so the consumer of a finished stream stays registered).  The store
    changes only when the agent answers [message/send] or
    [message/stream] with a Task: [tasks/cancel] does not store the task
    the executor returns, and a stream's task is not stored. *)
Theorem handlers_never_forget st request abortSignal :
  exists hr st',
    handleRequest (runningServer exec uuid st) request abortSignal =
      Ok (hr, runningServer exec uuid st')
    /\ dom (_taskStore st) ⊆ dom (_taskStore st')
    /\ dom (_taskStreamManager st) ⊆ dom (_taskStreamManager st')
    /\ ((forall t, _handleMessage exec uuid request st ≠ Returned (TaskResult t)) ->
        _taskStore st' = _taskStore st)
    /\ (method request ∉ ["message/send"; "message/stream"] ->
        _taskStore st' = _taskStore st).
Proof.
  rewrite handleRequest_route. unfold route.
  destruct (other_handlers_state request abortSignal st) as (Hc & Hg & Hs & Hr1 & Hr2).
  repeat case_decide; eexists _, _; (split; [reflexivity|]).
  - unfold streaming. destruct (_handleTaskResubscribe _ _ _). cbn in *. by rewrite Hr1.
  - unfold single. destruct (_handleTaskPushNotificationGet _ _ _). cbn in *. by subst.
  - unfold single. destruct (_handleTaskPushNotificationSet _ _ _). cbn in *. by subst.
  - unfold single. destruct (_handleTaskCancel _ _ _ _). cbn in *. by subst.
  - destruct (messageStream_state request abortSignal st) as (G1 & G2 & G3).
    unfold streaming. destruct (_handleMessageStream _ _ _ _ _). cbn in *.
    repeat split; try done. intros Hm. contradict Hm. set_solver.
  - destruct (messageSend_state request abortSignal st) as (G1 & G2 & G3).
    unfold single. destruct (_handleMessageSend _ _ _ _ _). cbn in *.
    repeat split; try done. intros Hm. contradict Hm. set_solver.
  - done.
Qed.

End HandlerFacts.

(** *** Requests that address a task the store does not have *)

(** X22.  A request of any registered method that addresses a task the
    store does not hold ([message.taskId] for [message/send] and
    [message/stream], [params.id] or [params.taskId] for the others) is
    answered with one TaskNotFound error (-32001) and nothing else; the
    agent executor is not consulted and the server's state does not
    change. *)
Theorem unknown_task_not_found uuid st request abortSignal taskId :
  addressedTask request = Some taskId ->
  _taskStore st !! taskId = None ->
  exists hr message,
    (forall executor,
       handleRequest (runningServer executor uuid st) request abortSignal =
         Ok (hr, runningServer executor uuid st))
    /\ (forall m, wireFrames hr m =
          [Failure (req_id request) (mkError (-32001) message)]).
Proof.
  unfold addressedTask. intros Ha Hstore.
  destruct (params request) as [message|id|tid config|] eqn:Hp; [| | |done];
    case_bool_decide as Hm; try done.
  - rewrite !elem_of_cons, elem_of_nil in Hm. destruct Hm as [Hm|[Hm|[]]].
    + eexists _, _. split.
      * intros executor. rewrite handleRequest_route, Hm.
        change (route executor uuid "message/send")
          with (Some (single (_handleMessageSend executor uuid))).
        unfold single, _handleMessageSend, _handleMessage. rewrite Hp, Ha, Hstore.
        reflexivity.
      * done.
    + eexists _, _. split.
      * intros executor. rewrite handleRequest_route, Hm.
        change (route executor uuid "message/stream")
          with (Some (streaming (_handleMessageStream executor uuid))).
        unfold streaming, _handleMessageStream, _handleMessage. rewrite Hp, Ha, Hstore.
        reflexivity.
      * done.
  - injection Ha as ->.
    rewrite !elem_of_cons, elem_of_nil in Hm. destruct Hm as [Hm|[Hm|[Hm|[]]]].
    + eexists _, _. split.
      * intros executor. rewrite handleRequest_route, Hm.
        change (route executor uuid "tasks/cancel")
          with (Some (single (_handleTaskCancel executor))).
        unfold single, _handleTaskCancel. rewrite Hp, Hstore. reflexivity.
      * done.
    + eexists _, _. split.
      * intros executor. rewrite handleRequest_route, Hm.
        change (route executor uuid "tasks/pushNotificationConfig/get")
          with (Some (single _handleTaskPushNotificationGet)).
        unfold single, _handleTaskPushNotificationGet. rewrite Hp, Hstore. reflexivity.
      * done.
    + eexists _, _. split.
      * intros executor. rewrite handleRequest_route, Hm.
        change (route executor uuid "tasks/resubscribe")
          with (Some (streaming _handleTaskResubscribe)).
        unfold streaming, _handleTaskResubscribe. rewrite Hp, Hstore. reflexivity.
      * done.
  - injection Ha as ->. eexists _, _. split.
    + intros executor. rewrite handleRequest_route, Hm.
      change (route executor uuid "tasks/pushNotificationConfig/set")
        with (Some (single _handleTaskPushNotificationSet)).
      unfold single, _handleTaskPushNotificationSet. rewrite Hp, Hstore. reflexivity.
    + done.
Qed.


Lemma unknown_task_not_found_witness :
  exists hr message,
    (forall executor,
       handleRequest (runningServer executor "uuid-context-0" emptyState)
         (mkRequest (IdNumber 9) "tasks/cancel" (IdParams "task-9")) None =
         Ok (hr, runningServer executor "uuid-context-0" emptyState))
    /\ (forall m, wireFrames hr m = [Failure (IdNumber 9) (mkError (-32001) message)]).
Proof.
  apply (unknown_task_not_found "uuid-context-0" emptyState
           (mkRequest (IdNumber 9) "tasks/cancel" (IdParams "task-9")) None "task-9").
  - reflexivity.
  - apply lookup_empty.
Defined.

(** *** Tasks that are streamed, tasks that are returned *)

(** X23.  The task of a stream is never stored.  When the agent answers
    [message/stream] with a stream for a task the store does not hold
    (a new task), the handler registers a consumer for the task but
    leaves the store as it was; a [tasks/resubscribe] for that task, at
    once or at any later time at which no Task result has been stored
    under its id, is answered "Task ... not found" (-32001) although the
    stream is live. *)
Theorem streamed_task_not_stored exec uuid st request abortSignal r t :
  method request = "message/stream" ->
  _handleMessage exec uuid request st = Returned (StreamRes r) ->
  getTask (taskStream r) = Ok t ->
  _taskStore st !! task_id t = None ->
  exists hr st',
    handleRequest (runningServer exec uuid st) request abortSignal =
      Ok (hr, runningServer exec uuid st')
    /\ _taskStore st' = _taskStore st
    /\ is_Some (_taskStreamManager st' !! task_id t)
    /\ forall id abortSignal',
         handleRequest (runningServer exec uuid st')
           (mkRequest id "tasks/resubscribe" (IdParams (task_id t))) abortSignal' =
         Ok (Stream (mkResponseStream id
                       [Failure id (taskNotFoundError
                                      (Some ("Task " +:+ task_id t +:+ " not found")))]
                       None),
             runningServer exec uuid st').
Proof.
  intros Hm Hres Ht Hstore.
  destruct (tapOrConsume_ok (taskStream r) abortSignal (_taskStreamManager st) t Ht)
    as (src & m' & Htap).
  exists (Stream (mkResponseStream (req_id request)
                    [Success (req_id request) (ResultTask (sr_currentTask r))] (Some src))),
         (mkState (_taskStore st) (forAwait src m')).
  split; [|split; [done|split]].
  - rewrite handleRequest_route, Hm.
    change (route exec uuid "message/stream")
      with (Some (streaming (_handleMessageStream exec uuid))).
    unfold streaming, _handleMessageStream. by rewrite Hres, Htap.
  - by apply (tapOrConsume_dom _ _ _ _ _ Htap).
  - intros id abortSignal'. rewrite handleRequest_route.
    change (route exec uuid (method (mkRequest id "tasks/resubscribe" (IdParams (task_id t)))))
      with (Some (streaming _handleTaskResubscribe)).
    unfold streaming, _handleTaskResubscribe. cbn. by rewrite Hstore.
Qed.

Lemma streamed_task_not_stored_witness :
  exists hr st',
    handleRequest (runningServer streamingAgent "uuid-context-0" emptyState) streamHi None =
      Ok (hr, runningServer streamingAgent "uuid-context-0" st')
    /\ _taskStore st' = ∅
    /\ is_Some (_taskStreamManager st' !! "uuid-task-0")
    /\ forall id abortSignal',
         handleRequest (runningServer streamingAgent "uuid-context-0" st')
           (mkRequest id "tasks/resubscribe" (IdParams "uuid-task-0")) abortSignal' =
         Ok (Stream (mkResponseStream id
                       [Failure id (taskNotFoundError (Some "Task uuid-task-0 not found"))]
                       None),
             runningServer streamingAgent "uuid-context-0" st').
Proof.
  apply (streamed_task_not_stored streamingAgent "uuid-context-0" emptyState streamHi None
           sendHiResult (sr_currentTask sendHiResult)).
  - reflexivity.
  - reflexivity.
  - reflexivity.
  - apply lookup_empty.
Defined.

(** X24.  A Task the agent returns is stored under its id and can be
    resumed: the response is that Task, and a later message that names
    the task in [message.taskId] is executed in a context whose current
    task is the stored Task and whose id is the task's [contextId],
    whatever [contextId] the message carries. *)
Theorem returned_task_is_resumable exec uuid st request abortSignal t :
  method request ∈ ["message/send"; "message/stream"] ->
  _handleMessage exec uuid request st = Returned (TaskResult t) ->
  task_id t ≠ "" -> task_contextId t ≠ "" ->
  exists hr st',
    handleRequest (runningServer exec uuid st) request abortSignal =
      Ok (hr, runningServer exec uuid st')
    /\ (forall m, wireFrames hr m = [Success (req_id request) (ResultTask t)])
    /\ _taskStore st' !! task_id t = Some t
    /\ forall id method' message,
         msg_taskId message = Some (task_id t) ->
         exists c,
           _handleMessage exec uuid (mkRequest id method' (SendParams message)) st' =
             execute exec c
           /\ currentTask c = Some t
           /\ cx_id c = task_contextId t.
Proof.
  intros Hm Hres Hid Hcid.
  exists (if decide (method request = "message/send")
          then Response (Success (req_id request) (ResultTask t))
          else Stream (mkResponseStream (req_id request)
                         [Success (req_id request) (ResultTask t)] None)),
         (mkState (<[task_id t := t]> (_taskStore st)) (_taskStreamManager st)).
  split; [|split; [|split]].
  - rewrite handleRequest_route.
    rewrite !elem_of_cons, elem_of_nil in Hm. destruct Hm as [Hm|[Hm|[]]]; rewrite Hm.
    + change (route exec uuid "message/send")
        with (Some (single (_handleMessageSend exec uuid))).
      unfold single, _handleMessageSend. by rewrite Hres.
    + change (route exec uuid "message/stream")
        with (Some (streaming (_handleMessageStream exec uuid))).
      unfold streaming, _handleMessageStream. by rewrite Hres.
  - intros m. by case_decide.
  - cbn. by rewrite lookup_insert_eq.
  - intros id method' message Hmsg. eexists. split.
    + unfold _handleMessage. cbn. rewrite Hmsg, truthy_nonempty by done.
      rewrite lookup_insert_eq. reflexivity.
    + split; [done|]. unfold newContext. cbn [cx_id fmap option_fmap option_map].
      rewrite !js_or_nonempty by done. by rewrite truthy_nonempty.
Qed.

Lemma returned_task_is_resumable_witness :
  exists hr st',
    handleRequest (runningServer taskAgent "uuid-context-0" emptyState) sendHi None =
      Ok (hr, runningServer taskAgent "uuid-context-0" st')
    /\ (forall m, wireFrames hr m = [Success (IdNumber 1) (ResultTask completedTask)])
    /\ _taskStore st' !! "uuid-task-0" = Some completedTask
    /\ forall id method' message,
         msg_taskId message = Some "uuid-task-0" ->
         exists c,
           _handleMessage taskAgent "uuid-context-0"
             (mkRequest id method' (SendParams message)) st' = execute taskAgent c
           /\ currentTask c = Some completedTask
           /\ cx_id c = "uuid-context-0".
Proof.
  apply (returned_task_is_resumable taskAgent "uuid-context-0" emptyState sendHi None
           completedTask).
  - apply (bool_decide_unpack _). reflexivity.
  - reflexivity.
  - discriminate.
  - discriminate.
Defined.

(** *** What a streaming response puts on the wire *)

(** X25.  The response of [message/stream] to a stream nobody consumes
    yet is the current task followed by the events the agent produces, in
    the order of production, each at most once: at every moment, however
    the producer, the abort signal and other subscribers interleave, the
    frames sent so far are the initial task and one result frame for each
    event of a prefix of the produced events.  No frame carries the
    end-of-stream sentinel and none is an error. *)
Theorem message_stream_frames_in_order exec uuid st request abortSignal r t ch0 trace m :
  _handleMessage exec uuid request st = Returned (StreamRes r) ->
  getTask (taskStream r) = Ok t ->
  _taskStreamManager st !! task_id t = None ->
  InMemoryQueue._isClosed (streamQueue (taskStream r)) = false ->
  InMemoryQueue.pendingDequeuePromises (streamQueue (taskStream r)) = [] ->
  InMemoryQueue.settled (streamQueue (taskStream r)) = [] ->
  let rs := fst (_handleMessageStream exec uuid request abortSignal st) in
  let st' := snd (_handleMessageStream exec uuid request abortSignal st) in
  _taskStreamManager st' !! task_id t = Some ch0 ->
  m !! task_id t = Some (run ch0 trace) ->
  exists events,
    streamFrames rs m =
      Success (req_id request) (ResultTask (sr_currentTask r))
      :: map (fun event => Success (req_id request) (ResultEvent event)) events
    /\ events `prefix_of` (InMemoryQueue.items (streamQueue (taskStream r)) ++ enqueued trace)
    /\ Forall (fun event => isEndOfStream event = false) events.
Proof.
  intros Hres Ht Hnone Ho Hp Hs. cbn zeta.
  unfold _handleMessageStream, tapOrConsume, createConsumer, mbind, Result_bind.
  rewrite Hres, Ht, Hnone. cbn [fst snd _taskStreamManager forAwait].
  rewrite !lookup_alter_eq, lookup_insert_eq. cbn [fmap option_fmap option_map].
  intros [= <-] Hm.
  exists (primaryReceived
            (run (streamingChannel (taskStream r) abortSignal) trace)).
  split.
  - unfold streamFrames. cbn. by rewrite Hm.
  - apply inOrder_received, inOrder_run.
    split; cbn; rewrite ?Ho, ?Hp, ?Hs; try done.
    eexists. split; [reflexivity|]. by cbn.
Qed.

Lemma message_stream_frames_in_order_witness :
  exists events,
    streamFrames
      (fst (_handleMessageStream streamingAgent "uuid-context-0" streamHi None emptyState))
      {["uuid-task-0" := run liveChannel (twoTappers ++ firstEvent ++ secondEvent)]} =
      Success (IdNumber 2) (ResultTask (sr_currentTask sendHiResult))
      :: map (fun event => Success (IdNumber 2) (ResultEvent event)) events
    /\ events `prefix_of` ([] ++ enqueued (twoTappers ++ firstEvent ++ secondEvent))
    /\ Forall (fun event => isEndOfStream event = false) events.
Proof.
  apply (message_stream_frames_in_order streamingAgent "uuid-context-0" emptyState streamHi
           None sendHiResult (sr_currentTask sendHiResult) liveChannel
           (twoTappers ++ firstEvent ++ secondEvent)
           {["uuid-task-0" := run liveChannel (twoTappers ++ firstEvent ++ secondEvent)]});
    reflexivity.
Defined.

(** ** Task stream consumer: every event reaches the loop *)

Lemma live_finally E g ch e rest :
  inOrder E (consumeFinally g ch) ->
  iterated ch = true -> aborted (consumer ch) = false ->
  isEndOfStream e = true -> E = yielded g ++ e :: rest ->
  live E (consumeFinally g ch).
Proof.
  intros Hord Hi Hab He HE.
  destruct (consumeFinally_frame g ch) as (_ & Hg & _ & Hf & _).
  split; try done.
  - unfold consumeFinally. cbn. by rewrite (proj2 (proj2 (proj2 (proj2 (notify_frame _ _))))).
  - unfold consumeFinally. cbn. by rewrite (proj1 (notify_frame _ _)).
  - intros g'. rewrite Hg. by intros [= <-].
  - intros g'. rewrite Hg. intros [= <-] _. split; [done|]. eauto.
Qed.

Lemma live_consumeEvent E g e ch rest :
  inOrder E (consumeEvent g e ch) ->
  iterated ch = true -> aborted (consumer ch) = false ->
  E = yielded g ++ e :: rest ->
  live E (consumeEvent g e ch).
Proof.
  intros Hord Hi Hab HE. unfold consumeEvent in *.
  destruct (isEndOfStream e) eqn:He; [by apply (live_finally E g ch e rest)|].
  split; try done; by intros g' [= <-].
Qed.

Lemma live_consumeLoop E g ch :
  inOrder E (consumeLoop g ch) ->
  iterated ch = true -> aborted (consumer ch) = false ->
  InMemoryQueue._isClosed (cons_streamQueue (consumer ch)) = false ->
  yielded g ++ InMemoryQueue.items (cons_streamQueue (consumer ch)) = E ->
  live E (consumeLoop g ch).
Proof.
  intros Hord Hi Hab Ho HE. unfold consumeLoop in *. rewrite Hab in *.
  destruct ch as [[tps cons fin q ab] heap proms gen it gens n].
  destruct q as [its cl pend setl]. cbn in *. subst cl it ab.
  unfold InMemoryQueue.dequeue in *. cbn in *.
  destruct its as [|x rest]; cbn in *.
  - split; try done; by intros g' [= <-].
  - by apply (live_consumeEvent E g x _ rest).
Qed.

Lemma tap_steps_flags ch a :
  match a with
  | Tap | TapNext _ | TapResume _ => True
  | _ => False
  end ->
  aborted (consumer (step ch a)) = aborted (consumer ch)
  /\ consuming (consumer (step ch a)) = consuming (consumer ch).
Proof.
  destruct a as [event| | | | |r|r]; try done; intros _; cbn.
  - unfold tapNext. destruct (tapGens ch !! r) as [g|]; [|done].
    destruct (pc g); try done; unfold tapLoop; cbn.
    + destruct (finished (consumer ch)) eqn:Hf; [done|].
      by rewrite lookup_insert_eq.
    + destruct (finished (consumer ch)) eqn:Hf; [done|].
      destruct (tapperHeap ch !! r) as [t|]; [|done]. by destruct (queue t).
  - unfold tapResume. destruct (tapGens ch !! r) as [g|]; [|done].
    destruct (pc g); try done. by destruct (tapPromises ch !! p) as [[e|]|].
Qed.

Lemma live_step E ch a :
  live E ch -> a ≠ Abort -> live (E ++ enqueued [a]) (step ch a).
Proof.
  intros [Hord Hi Hab Hst Hdn] Ha.
  pose proof (inOrder_step E ch a Hord) as Hord'.
  destruct a as [event| | | | |r|r]; try done.
  - (* the producer enqueues *)
    split; try done. cbn. intros g Hg Hpc.
    destruct (Hdn g Hg Hpc) as (Hf & e & rest & He & ->). split; [done|].
    exists e, (rest ++ [event]). split; [done|]. by rewrite <- !app_assoc.
  - (* next() on the generator of consume() *)
    rewrite app_nil_r in *. cbn in *. rewrite Hi in *. unfold consumeNext in *.
    destruct Hord as [Ho Hp Hs (g & Hg & Hy & Hpc)]. rewrite Hg in *.
    cbn zeta in Hpc.
    destruct (pc g) as [|p|e|] eqn:Hpcg.
    + destruct (Hst g eq_refl Hpcg) as [Hc Hf]. rewrite Hc, Hf in Hord' |- *.
      cbn [orb] in *. destruct Hpc as [Hpend HE].
      by apply live_consumeLoop.
    + split; try done; intros g'; rewrite Hg; intros [= <-]; by rewrite Hpcg.
    + destruct Hpc as [Hpend HE].
      destruct (broadcast_frame e ch) as (H1 & H2 & H3 & H4 & H5).
      apply live_consumeLoop; by rewrite ?H1, ?H5.
    + split; try done; intros g'; rewrite Hg; [apply Hst|apply Hdn].
  - (* the awaited dequeue promise has a value *)
    rewrite app_nil_r in *. cbn in *. unfold consumeResume in *.
    destruct Hord as [Ho Hp Hs (g & Hg & Hy & Hpc)]. rewrite Hg in *.
    cbn zeta in Hpc.
    destruct (pc g) as [|p|e|] eqn:Hpcg;
      try (split; try done; intros g'; rewrite Hg; [apply Hst|apply Hdn]).
    destruct Hpc as [(Hpend & Hits & Hres & HE)|(e & Hpend & Hres & HE)];
      rewrite Hres in *.
    + split; try done; intros g'; rewrite Hg; intros [= <-]; by rewrite Hpcg.
    + by apply (live_consumeEvent E g e ch
                  (InMemoryQueue.items (cons_streamQueue (consumer ch)))).
  - (* tap() *)
    rewrite app_nil_r in *. split; try done.
  - destruct (tap_steps_frame ch (TapNext r) I) as (H1 & H2 & H3 & H4 & H5).
    destruct (tap_steps_flags ch (TapNext r) I) as (H6 & H7).
    rewrite app_nil_r in *. split; rewrite ?H2, ?H4, ?H5, ?H6, ?H7; done.
  - destruct (tap_steps_frame ch (TapResume r) I) as (H1 & H2 & H3 & H4 & H5).
    destruct (tap_steps_flags ch (TapResume r) I) as (H6 & H7).
    rewrite app_nil_r in *. split; rewrite ?H2, ?H4, ?H5, ?H6, ?H7; done.
Qed.

Lemma live_run trace : forall E ch,
  live E ch -> unaborted trace -> live (E ++ enqueued trace) (run ch trace).
Proof.
  induction trace as [|a trace IH]; intros E ch Hl Hu; [by rewrite app_nil_r|].
  apply Forall_cons in Hu as [Ha Hu].
  change (run ch (a :: trace)) with (run (step ch a) trace).
  change (a :: trace) with ([a] ++ trace).
  rewrite enqueued_app, app_assoc. apply IH; [|done]. by apply live_step.
Qed.

(** The events before the first sentinel of [E]. *)
Lemma before_sentinel_unique (E ys ys' : list AgentStreamEvent) e e' rest rest' :
  E = ys ++ e :: rest -> E = ys' ++ e' :: rest' ->
  isEndOfStream e = true -> isEndOfStream e' = true ->
  Forall (fun x => isEndOfStream x = false) ys ->
  Forall (fun x => isEndOfStream x = false) ys' ->
  ys = ys'.
Proof.
  intros -> HE He He' Hys. revert ys' HE.
  induction Hys as [|y ys Hy Hys IH]; intros ys' HE Hys'.
  - destruct Hys' as [|y' ys' Hy' Hys']; [done|].
    cbn in HE. injection HE as -> _. congruence.
  - destruct Hys' as [|y' ys' Hy' Hys'].
    + cbn in HE. injection HE as -> _. congruence.
    + cbn in HE. injection HE as -> HE. f_equal. by apply IH.
Qed.

Lemma turn_unfold ch :
  run ch turn =
  if iterated (consumeResume ch) then consumeNext (consumeResume ch) else consumeResume ch.
Proof. reflexivity. Qed.

Lemma consumeResume_other ch g :
  consumeGen ch = Some g -> (forall p, pc g ≠ ConsumeAwait p) -> consumeResume ch = ch.
Proof.
  intros Hg Hpc. unfold consumeResume. rewrite Hg.
  destruct (pc g) as [|p| |]; try done. by destruct (Hpc p).
Qed.

(** One turn of the loop: the generator returns, or the loop is given one
    more event. *)
Lemma live_turn E ch g e rest ys :
  live E ch -> consumeGen ch = Some g ->
  E = ys ++ e :: rest -> isEndOfStream e = true ->
  Forall (fun x => isEndOfStream x = false) ys ->
  live E (run ch turn)
  /\ exists g', consumeGen (run ch turn) = Some g'
       /\ (pc g' = ConsumeDone \/ length (yielded g) < length (yielded g')).
Proof.
  intros Hl Hg HE He Hys.
  assert (live E (run ch turn)) as Hl'.
  { pose proof (live_run turn E ch Hl) as H. rewrite app_nil_r in H.
    apply H. by repeat constructor. }
  split; [done|].
  assert (forall ys0, Forall (fun x => isEndOfStream x = false) ys0 -> ys0 ≠ E) as Hnot.
  { intros ys0 H0 Heq. rewrite Heq, HE in H0.
    apply Forall_app in H0 as [_ H0]. apply Forall_cons in H0 as [H0 _]. congruence. }
  clear Hl'. destruct Hl as [[Ho Hp Hs (g0 & Hg0 & Hy & Hpc)] Hi Hab Hst Hdn].
  rewrite Hg in Hg0. injection Hg0 as <-. cbn zeta in Hpc.
  rewrite turn_unfold.
  destruct (pc g) as [|p|e0|] eqn:Hpcg.
  - (* not started *)
    destruct (Hst g Hg Hpcg) as [Hc Hf]. destruct Hpc as [Hpend HE'].
    rewrite (consumeResume_other ch g Hg) by (by rewrite Hpcg). rewrite Hi.
    unfold consumeNext. rewrite Hg, Hpcg, Hc, Hf. cbn [orb].
    unfold consumeLoop. cbn. rewrite Hab.
    destruct ch as [[tps cons fin q ab] heap proms gen it gens n].
    destruct q as [its cl pend setl]. cbn in *. subst.
    unfold InMemoryQueue.dequeue. cbn.
    destruct its as [|x its].
    { destruct (Hnot (yielded g) Hy). by rewrite app_nil_r. }
    cbn. unfold consumeEvent. destruct (isEndOfStream x).
    + eexists. split; [apply consumeFinally_frame|]. by left.
    + eexists. split; [reflexivity|]. right. cbn. rewrite length_app. cbn. lia.
  - (* awaiting an event *)
    destruct Hpc as [(Hpend & Hits & Hres & HE')|(x & Hpend & Hres & HE')].
    { by destruct (Hnot _ Hy). }
    unfold consumeResume. rewrite Hg, Hpcg, Hres.
    unfold consumeEvent. destruct (isEndOfStream x) eqn:Hx.
    + destruct (consumeFinally_frame g ch) as (_ & Hgen & _).
      assert (iterated (consumeFinally g ch) = true) as ->.
      { unfold consumeFinally. cbn.
        by rewrite (proj2 (proj2 (proj2 (proj2 (notify_frame _ _))))). }
      unfold consumeNext. rewrite Hgen. cbn. eexists. split; [exact Hgen|]. by left.
    + cbn [iterated setConsumeGen]. rewrite Hi.
      unfold consumeNext. cbn [consumeGen setConsumeGen pc].
      destruct (broadcastSoFar_consumeLoop (mkGenerator (ConsumeYield x) (yielded g ++ [x]))
                  (broadcast x (setConsumeGen
                     (mkGenerator (ConsumeYield x) (yielded g ++ [x])) ch))) as [_ Hshape].
      match goal with
      | |- exists g', consumeGen ?c = Some g' /\ _ =>
          assert (exists g', consumeGen c = Some g'
                    /\ (yielded g ++ [x]) `prefix_of` yielded g') as (g' & Hg' & Hpre)
      end.
      { unfold consumeLoop. rewrite (proj1 (broadcast_frame _ _)). cbn [consumer setConsumeGen].
        destruct (aborted (consumer ch)).
        { eexists. split; [apply consumeFinally_frame|]. done. }
        cbn. destruct (InMemoryQueue.dequeue _ _) as [[[event|]|] q].
        - unfold consumeEvent. destruct (isEndOfStream event).
          + eexists. split; [apply consumeFinally_frame|]. done.
          + eexists. split; [reflexivity|]. cbn. by apply prefix_app_r.
        - eexists. split; [apply consumeFinally_frame|]. done.
        - eexists. split; [reflexivity|]. done. }
      exists g'. split; [done|]. right.
      apply prefix_length in Hpre. rewrite length_app in Hpre. cbn in Hpre. lia.
  - (* suspended at a yield *)
    destruct Hpc as [Hpend HE'].
    rewrite (consumeResume_other ch g Hg) by (by rewrite Hpcg). rewrite Hi.
    unfold consumeNext. rewrite Hg, Hpcg.
    unfold consumeLoop. rewrite (proj1 (broadcast_frame _ _)), Hab.
    destruct (broadcast_frame e0 ch) as (Hc & _).
    destruct (broadcast e0 ch) as [c' heap' proms' gen' it' gens' n'].
    cbn in Hc. subst c'. cbn.
    destruct (cons_streamQueue (consumer ch)) as [its cl pend setl] eqn:Hq.
    cbn in *. subst.
    unfold InMemoryQueue.dequeue. cbn.
    destruct its as [|x its].
    { destruct (Hnot (yielded g) Hy). by rewrite app_nil_r. }
    cbn. unfold consumeEvent. destruct (isEndOfStream x).
    + eexists. split; [apply consumeFinally_frame|]. by left.
    + eexists. split; [reflexivity|]. right. cbn. rewrite length_app. cbn. lia.
  - (* returned *)
    rewrite (consumeResume_other ch g Hg) by (by rewrite Hpcg). rewrite Hi.
    unfold consumeNext. rewrite Hg, Hpcg. exists g. split; [done|]. by left.
Qed.

Lemma turn_done ch g :
  consumeGen ch = Some g -> pc g = ConsumeDone -> forall n, run ch (turns n) = ch.
Proof.
  intros Hg Hpc n. induction n as [|n IH]; [done|].
  change (turns (S n)) with (turn ++ turns n). unfold run. rewrite foldl_app.
  fold (run ch turn). rewrite turn_unfold.
  rewrite (consumeResume_other ch g Hg) by (by rewrite Hpc).
  assert (consumeNext ch = ch) as Hnext.
  { unfold consumeNext. by rewrite Hg, Hpc. }
  rewrite Hnext. destruct (iterated ch); exact IH.
Qed.

Lemma turns_progress E ys e rest :
  E = ys ++ e :: rest -> isEndOfStream e = true ->
  Forall (fun x => isEndOfStream x = false) ys ->
  forall n ch g,
  live E ch -> consumeGen ch = Some g ->
  exists g', live E (run ch (turns n))
    /\ consumeGen (run ch (turns n)) = Some g'
    /\ (pc g' = ConsumeDone \/ length (yielded g) + n <= length (yielded g')).
Proof.
  intros HE He Hys. induction n as [|n IH]; intros ch g Hl Hg.
  { exists g. split; [done|]. split; [done|]. right. lia. }
  change (turns (S n)) with (turn ++ turns n). unfold run. rewrite foldl_app.
  fold (run ch turn). fold (run (run ch turn) (turns n)).
  destruct (live_turn E ch g e rest ys Hl Hg HE He Hys) as (Hl1 & g1 & Hg1 & Hstep).
  destruct Hstep as [Hdone|Hgrow].
  - rewrite (turn_done _ g1 Hg1 Hdone). exists g1. split; [done|]. split; [done|]. by left.
  - destruct (IH _ g1 Hl1 Hg1) as (g' & Hl' & Hg' & Hres).
    exists g'. split; [done|]. split; [done|].
    destruct Hres as [?|?]; [by left|right; lia].
Qed.

Lemma before_sentinel_length (l ys : list AgentStreamEvent) e rest :
  l `prefix_of` (ys ++ e :: rest) -> isEndOfStream e = true ->
  Forall (fun x => isEndOfStream x = false) l ->
  length l <= length ys.
Proof.
  intros Hpre He Hl. destruct (decide (length l <= length ys)) as [|Hgt]; [done|].
  destruct (lookup_lt_is_Some_2 l (length ys)) as [x Hx]; [lia|].
  pose proof (prefix_lookup_Some _ _ _ _ Hx Hpre) as Hx'.
  rewrite list_lookup_middle in Hx' by done. injection Hx' as <-.
  rewrite Forall_forall in Hl. apply list_elem_of_lookup_2 in Hx.
  specialize (Hl _ Hx). congruence.
Qed.

(** X27.  Every produced event reaches the [for await] loop of
    [message/stream]: from any state the consumer can reach without the
    abort signal, once the producer has enqueued the end-of-stream
    sentinel, the loop running on (at most one turn per event) is given
    exactly the events enqueued before the sentinel, in order, and the
    consumer finishes. *)
Theorem stream_is_drained ts abortSignal trace ys e rest :
  InMemoryQueue._isClosed (streamQueue ts) = false ->
  InMemoryQueue.pendingDequeuePromises (streamQueue ts) = [] ->
  InMemoryQueue.settled (streamQueue ts) = [] ->
  default false abortSignal = false ->
  unaborted trace ->
  InMemoryQueue.items (streamQueue ts) ++ enqueued trace = ys ++ e :: rest ->
  isEndOfStream e = true ->
  Forall (fun x => isEndOfStream x = false) ys ->
  let ch := run (streamingChannel ts abortSignal) (trace ++ turns (S (length ys))) in
  primaryReceived ch = ys /\ finished (consumer ch) = true.
Proof.
  intros Ho Hp Hs Hab Hu HE He Hys. cbn zeta.
  unfold run. rewrite foldl_app. fold (run (streamingChannel ts abortSignal) trace).
  fold (run (run (streamingChannel ts abortSignal) trace) (turns (S (length ys)))).
  assert (live (InMemoryQueue.items (streamQueue ts) ++ enqueued trace)
               (run (streamingChannel ts abortSignal) trace)) as Hl.
  { apply live_run; [|done]. split; try done.
    - split; cbn; rewrite ?Ho, ?Hp, ?Hs; try done.
      eexists. split; [reflexivity|]. by cbn.
    - cbn. by intros g [= <-]. }
  destruct (ord_gen _ _ (lv_order _ _ Hl)) as (g & Hg & _).
  destruct (turns_progress _ ys e rest HE He Hys (S (length ys)) _ g Hl Hg)
    as (g' & Hl' & Hg' & Hres).
  destruct Hl' as [Hord' _ _ _ Hdn'].
  destruct (inOrder_received _ _ Hord') as [Hpre Hnot].
  unfold primaryReceived in *. rewrite Hg' in *.
  destruct Hres as [Hdone|Hlen].
  - destruct (Hdn' g' eq_refl Hdone) as (Hfin & e' & rest' & He' & HE').
    split; [|done]. symmetry.
    by apply (before_sentinel_unique _ ys (yielded g') e e' rest rest' HE HE').
  - rewrite HE in Hpre. pose proof (before_sentinel_length _ _ _ _ Hpre He Hnot). lia.
Qed.

Lemma stream_is_drained_witness :
  let ch := run liveChannel
              ([Enqueue (artifactEvent "a1" "one"); ConsumeNext; Tap; TapNext 1;
                Enqueue (artifactEvent "a2" "two"); Enqueue sentinel] ++ turns 3) in
  primaryReceived ch = [artifactEvent "a1" "one"; artifactEvent "a2" "two"]
  /\ finished (consumer ch) = true.
Proof.
  apply (stream_is_drained (taskStream sendHiResult) None
           [Enqueue (artifactEvent "a1" "one"); ConsumeNext; Tap; TapNext 1;
            Enqueue (artifactEvent "a2" "two"); Enqueue sentinel]
           [artifactEvent "a1" "one"; artifactEvent "a2" "two"] sentinel []);
    try reflexivity.
  - by repeat constructor.
  - by repeat constructor.
Defined.

Lemma tapper_buffer_never_used_witness :
  queue (mkTapper [] (Some 2)) = [].
Proof.
  apply (tapper_buffer_never_used liveChannel (twoTappers ++ firstEvent) 1
           (mkTapper [] (Some 2))); reflexivity.
Defined.

(** ** A consumer that has finished stays registered *)

Lemma consumeEvent_tail g e ch :
  tapGens (consumeEvent g e ch) = tapGens ch
  /\ nextId (consumeEvent g e ch) = nextId ch
  /\ (finished (consumer ch) = true -> finished (consumer (consumeEvent g e ch)) = true).
Proof.
  unfold consumeEvent. destruct (isEndOfStream e); [|done].
  destruct (consumeFinally_frame g ch) as (_ & _ & H3 & H4 & _ & H6 & _). by rewrite H3, H6.
Qed.

Lemma consumeLoop_tail g ch :
  tapGens (consumeLoop g ch) = tapGens ch
  /\ nextId ch <= nextId (consumeLoop g ch)
  /\ (finished (consumer ch) = true -> finished (consumer (consumeLoop g ch)) = true).
Proof.
  unfold consumeLoop.
  assert (forall ch0, tapGens (consumeFinally g ch0) = tapGens ch0
            /\ nextId (consumeFinally g ch0) = nextId ch0
            /\ finished (consumer (consumeFinally g ch0)) = true) as Hfin.
  { intros ch0. destruct (consumeFinally_frame g ch0) as (_ & _ & H3 & H4 & _ & H6 & _).
    by rewrite H3, H6. }
  destruct (aborted (consumer ch)).
  { destruct (Hfin ch) as (H1 & H2 & H3). rewrite H1, H2. repeat split; try lia; done. }
  cbn. destruct (InMemoryQueue.dequeue _ _) as [[[event|]|] q].
  - match goal with |- context [consumeEvent g event ?c] =>
      destruct (consumeEvent_tail g event c) as (H1 & H2 & H3) end.
    rewrite H1, H2. cbn. repeat split; try lia. intros Hf. by apply H3.
  - match goal with |- context [consumeFinally g ?c] =>
      destruct (Hfin c) as (H1 & H2 & H3) end.
    rewrite H1, H2. cbn. repeat split; try lia; done.
  - cbn. repeat split; try lia; done.
Qed.

Lemma silent_step r ch a : silent r ch -> silent r (step ch a).
Proof.
  intros [Hf Hid (g & Hg & Hy & Hpc)].
  destruct a as [event| | | | |r'|r']; cbn.
  - by split; [..|exists g].
  - by split; [..|exists g].
  - destruct (iterated ch); [|by split; [..|exists g]]. unfold consumeNext.
    destruct (consumeGen ch) as [g0|]; [|by split; [..|exists g]].
    destruct (pc g0) as [|p|e|]; try (by split; [..|exists g]).
    + rewrite Hf, orb_true_r. by split; [..|exists g].
    + destruct (consumeLoop_tail g0 (broadcast e ch)) as (H1 & H2 & H3).
      destruct (broadcast_frame e ch) as (G1 & _ & G3 & G4 & _).
      split.
      * apply H3. by rewrite G1.
      * rewrite G3 in H2. lia.
      * exists g. by rewrite H1, G4.
  - unfold consumeResume. destruct (consumeGen ch) as [g0|]; [|by split; [..|exists g]].
    destruct (pc g0) as [|p|e|]; try (by split; [..|exists g]).
    destruct (InMemoryQueue.resolution _ _) as [[e|]|]; [| |by split; [..|exists g]].
    + destruct (consumeEvent_tail g0 e ch) as (H1 & H2 & H3).
      split; [by apply H3|by rewrite H2|exists g; by rewrite H1].
    + destruct (consumeFinally_frame g0 ch) as (_ & _ & H3 & H4 & _ & H6 & _).
      split; [done|by rewrite H3|exists g; by rewrite H6].
  - split; cbn; [done|lia|]. exists g. by rewrite lookup_insert_ne by lia.
  - destruct (decide (r' = r)) as [->|Hne].
    + unfold tapNext. rewrite Hg. destruct Hpc as [Hpc|Hpc]; rewrite Hpc.
      * unfold tapLoop. cbn. rewrite Hf. split; cbn; [done..|].
        eexists. rewrite lookup_insert_eq. split; [reflexivity|]. cbn. split; [done|by right].
      * split; [done..|]. exists g. auto.
    + destruct (tap_steps_frame ch (TapNext r') I) as (_ & _ & H3 & H4 & _).
      cbn in H3, H4. split; [by rewrite H4|lia|]. exists g. split; [|done].
      unfold tapNext. destruct (tapGens ch !! r') as [g1|]; [|done].
      destruct (pc g1); try done; unfold tapLoop; cbn; rewrite Hf; cbn;
        by rewrite lookup_insert_ne.
  - destruct (decide (r' = r)) as [->|Hne].
    + unfold tapResume. rewrite Hg.
      destruct Hpc as [Hpc|Hpc]; rewrite Hpc; (split; [done..|]); exists g; auto.
    + destruct (tap_steps_frame ch (TapResume r') I) as (_ & _ & H3 & H4 & _).
      cbn in H3, H4. split; [by rewrite H4|lia|]. exists g. split; [|done].
      unfold tapResume. destruct (tapGens ch !! r') as [g1|]; [|done].
      destruct (pc g1); try done.
      destruct (tapPromises ch !! p) as [[e|]|]; cbn; try done;
        by rewrite lookup_insert_ne.
Qed.

Lemma silent_run r trace : forall ch, silent r ch -> silent r (run ch trace).
Proof.
  induction trace as [|a trace IH]; intros ch H; [done|].
  apply (IH (step ch a)). by apply silent_step.
Qed.

Lemma silent_tap ch :
  finished (consumer ch) = true -> silent (fst (tap ch)) (snd (tap ch)).
Proof.
  intros Hf. split; cbn; [done|lia|].
  eexists. rewrite lookup_insert_eq. split; [reflexivity|]. split; [done|by left].
Qed.

Lemma silent_received r ch : silent r ch -> received r ch = [].
Proof. intros [_ _ (g & Hg & Hy & _)]. unfold received. by rewrite Hg. Qed.

(** X28.  The consumer of a stream that has ended stays registered under
    the task's id, so a later stream for the same task is never consumed.
    When the agent answers [message/stream] with a stream for a task whose
    consumer has finished, the handler taps the finished consumer: the
    response is the current task and nothing else, whatever the agent
    then produces and whatever happens to the consumer, and the tap
    generator returns at its first [next()]. *)
Theorem second_stream_is_silent exec uuid st request abortSignal r t ch :
  _handleMessage exec uuid request st = Returned (StreamRes r) ->
  getTask (taskStream r) = Ok t ->
  _taskStreamManager st !! task_id t = Some ch ->
  finished (consumer ch) = true ->
  let rs := fst (_handleMessageStream exec uuid request abortSignal st) in
  let st' := snd (_handleMessageStream exec uuid request abortSignal st) in
  _taskStreamManager st' !! task_id t = Some (step ch Tap)
  /\ source rs = Some (FromTap (task_id t) (nextId ch))
  /\ (pc <$> tapGens (step (step ch Tap) (TapNext (nextId ch))) !! nextId ch) = Some TapDone
  /\ forall trace m,
       m !! task_id t = Some (run (step ch Tap) trace) ->
       streamFrames rs m = [Success (req_id request) (ResultTask (sr_currentTask r))].
Proof.
  intros Hres Ht Hm Hf. cbn zeta.
  unfold _handleMessageStream. rewrite Hres.
  rewrite (tapOrConsume_existing _ _ _ t ch Ht Hm). cbn [fst snd forAwait].
  cbn [_taskStreamManager source].
  split; [by rewrite lookup_insert_eq|]. split; [done|]. split.
  - cbn. unfold tapNext. cbn. rewrite lookup_insert_eq. cbn. unfold tapLoop. cbn.
    rewrite Hf. cbn. by rewrite lookup_insert_eq.
  - intros trace m Hrun. unfold streamFrames. cbn [frames source sourceEvents rs_id].
    rewrite Hrun. cbn [from_option].
    change (received (nextId ch) (run (step ch Tap) trace))
      with (received (fst (tap ch)) (run (snd (tap ch)) trace)).
    by rewrite (silent_received _ _ (silent_run _ trace _ (silent_tap ch Hf))).
Qed.

Lemma second_stream_is_silent_witness :
  let st := mkState ∅ {["uuid-task-0" := finishedChannel]} in
  let rs := fst (_handleMessageStream streamingAgent "uuid-context-0" streamHi None st) in
  source rs = Some (FromTap "uuid-task-0" (nextId finishedChannel))
  /\ streamFrames rs
       {["uuid-task-0" :=
           run (step finishedChannel Tap)
             [Enqueue (artifactEvent "a3" "three"); TapNext (nextId finishedChannel);
              ConsumeNext; ConsumeResume]]} =
     [Success (IdNumber 2) (ResultTask (sr_currentTask sendHiResult))].
Proof.
  destruct (second_stream_is_silent streamingAgent "uuid-context-0"
              (mkState ∅ {["uuid-task-0" := finishedChannel]}) streamHi None sendHiResult
              (sr_currentTask sendHiResult) finishedChannel) as (_ & H2 & _ & H4).
  - reflexivity.
  - reflexivity.
  - apply lookup_singleton_eq.
  - vm_compute. reflexivity.
  - split; [exact H2|].
    apply (H4 [Enqueue (artifactEvent "a3" "three"); TapNext (nextId finishedChannel);
               ConsumeNext; ConsumeResume]).
    apply lookup_singleton_eq.
Defined.

(** X29.  [tasks/resubscribe] for a stored task whose stream has ended is
    answered with an empty stream: no error frame, no final state, no
    event, whatever happens afterwards; the tap generator returns at its
    first [next()]. *)
Theorem resubscribe_after_end_is_empty id taskId abortSignal st task ch :
  _taskStore st !! taskId = Some task ->
  _taskStreamManager st !! task_id task = Some ch ->
  finished (consumer ch) = true ->
  let request := mkRequest id "tasks/resubscribe" (IdParams taskId) in
  let rs := fst (_handleTaskResubscribe request abortSignal st) in
  let st' := snd (_handleTaskResubscribe request abortSignal st) in
  frames rs = []
  /\ source rs = Some (FromTap (task_id task) (nextId ch))
  /\ _taskStreamManager st' !! task_id task = Some (step ch Tap)
  /\ (pc <$> tapGens (step (step ch Tap) (TapNext (nextId ch))) !! nextId ch) = Some TapDone
  /\ forall trace m,
       m !! task_id task = Some (run (step ch Tap) trace) -> streamFrames rs m = [].
Proof.
  intros Hs Hm Hf. cbn zeta. unfold _handleTaskResubscribe, getConsumer.
  cbn [params]. rewrite Hs, Hm. cbn [tap allocate fst snd frames source _taskStreamManager].
  split; [done|]. split; [done|]. split; [by rewrite lookup_insert_eq|]. split.
  - cbn. unfold tapNext. cbn. rewrite lookup_insert_eq. cbn. unfold tapLoop. cbn.
    rewrite Hf. cbn. by rewrite lookup_insert_eq.
  - intros trace m Hrun. unfold streamFrames. cbn [frames source sourceEvents rs_id].
    rewrite Hrun. cbn [from_option app].
    change (received (nextId ch) (run (step ch Tap) trace))
      with (received (fst (tap ch)) (run (snd (tap ch)) trace)).
    by rewrite (silent_received _ _ (silent_run _ trace _ (silent_tap ch Hf))).
Qed.

Lemma resubscribe_after_end_is_empty_witness :
  let st := mkState {["task-1" := storedTask]} {["task-1" := finishedChannel]} in
  let rs := fst (_handleTaskResubscribe
                   (mkRequest (IdNumber 3) "tasks/resubscribe" (IdParams "task-1")) None st) in
  frames rs = []
  /\ streamFrames rs
       {["task-1" := run (step finishedChannel Tap) [TapNext (nextId finishedChannel)]]} = [].
Proof.
  destruct (resubscribe_after_end_is_empty (IdNumber 3) "task-1" None
              (mkState {["task-1" := storedTask]} {["task-1" := finishedChannel]})
              storedTask finishedChannel) as (H1 & _ & _ & _ & H5).
  - apply lookup_singleton_eq.
  - apply lookup_singleton_eq.
  - vm_compute. reflexivity.
  - split; [exact H1|].
    apply (H5 [TapNext (nextId finishedChannel)]). apply lookup_singleton_eq.
Defined.
